(** * are-we-attested-yet: the attestation report pipeline

    A shallow embedding of [src/index.mts] (the full-document fetcher), of
    its version-scoped successor and of the static file server
    [server.mjs], and the properties of the retrying fetch, the ranked
    package lister, the two attestation checkers, the batch loop, the
    report builder and the request handler.

    Layout: the data model and every function of the program come first
    (JavaScript values, strings, numbers, effects, then the functions of the
    source in source order); the lemmas and theorems follow. *)

From stdpp Require Import base option list strings gmap.
From Stdlib Require Import Ascii ZArith Floats Uint63 DecimalString Lia.

Local Open Scope Z_scope.

(** ** JavaScript values of type [string | null | undefined]

    Every leaf the program reads from a JSON document or stores in a record
    is declared [string], [string | null] or optional. *)

Inductive JsStr : Type :=
  | Undefined
  | Null
  | Str (s : string).

#[global] Instance JsStr_eq_dec : EqDecision JsStr.
Proof. solve_decision. Defined.

(** ToBoolean: [undefined], [null] and the empty string are falsy. *)
Definition truthy (v : JsStr) : bool :=
  match v with
  | Str s => negb (String.eqb s "")
  | _ => false
  end.

(** [v || ""]. *)
Definition or_empty (v : JsStr) : JsStr :=
  if truthy v then v else Str "".

(** [v !== ""] and [v === ""] (strict comparison: no coercion). *)
Definition strict_ne_empty (v : JsStr) : bool :=
  match v with
  | Str s => negb (String.eqb s "")
  | _ => true
  end.

Definition is_string (v : JsStr) : Prop :=
  match v with Str _ => True | _ => False end.

(** ** Property access by a computed key

    [obj[key]] looks [key] up among the own properties of [obj] and, when
    it is not there, in the prototype of [obj].  The prototype of an object
    made by [JSON.parse] is [Object.prototype]; [JsObject.prototype] lists
    the names of its properties (ECMAScript with Annex B, as Node has
    them).  They are functions, apart from [__proto__], which reads as
    [Object.prototype] itself; none of them is [undefined], [null] or a
    string, and none has a [dist] or an [_npmUser] property. *)

Module JsObject.

Definition prototype : list string :=
  ["constructor"; "__defineGetter__"; "__defineSetter__"; "hasOwnProperty";
   "__lookupGetter__"; "__lookupSetter__"; "isPrototypeOf";
   "propertyIsEnumerable"; "toString"; "valueOf"; "__proto__"; "toLocaleString"].

Inductive Property (V : Type) : Type :=
  | Own (v : V)             (* an own property: a value of the JSON text *)
  | Proto (key : string)    (* the member [key] of [Object.prototype] *)
  | Absent.                 (* undefined *)
Arguments Own {V} v.
Arguments Proto {V} key.
Arguments Absent {V}.

(** [obj[key]], for an object of the JSON text with the own properties
    [obj]. *)
Definition get {V} (obj : gmap string V) (key : string) : Property V :=
  match obj !! key with
  | Some v => Own v
  | None => if bool_decide (key ∈ prototype) then Proto key else Absent
  end.

End JsObject.

(** What a record field can hold: a value of type
    [string | null | undefined], or a member of [Object.prototype] that a
    computed key has reached. *)
Inductive JsValue : Type :=
  | Plain (v : JsStr)
  | Inherited (key : string).

Coercion Plain : JsStr >-> JsValue.

#[global] Instance JsValue_eq_dec : EqDecision JsValue.
Proof. solve_decision. Defined.

(** [x || ""]: an object or function is truthy. *)
Definition value_or_empty (x : JsValue) : JsValue :=
  match x with
  | Plain v => Plain (or_empty v)
  | Inherited key => Inherited key
  end.

Definition is_string_value (x : JsValue) : Prop :=
  match x with
  | Plain v => is_string v
  | Inherited _ => False
  end.

(** ** Strings

    A string is a sequence of 8-bit characters; [toLowerCase] maps the
    letters A-Z and leaves every other character alone. *)

Module Js.

Definition lower_ascii (c : ascii) : ascii :=
  let n := Ascii.nat_of_ascii c in
  if ((65 <=? n)%nat && (n <=? 90)%nat)%bool
  then Ascii.ascii_of_nat (n + 32) else c.

Fixpoint toLowerCase (s : string) : string :=
  match s with
  | EmptyString => EmptyString
  | String c s' => String (lower_ascii c) (toLowerCase s')
  end.

Fixpoint startsWith (p s : string) : bool :=
  match p, s with
  | EmptyString, _ => true
  | String a p', String b s' => (Ascii.eqb a b && startsWith p' s')%bool
  | String _ _, EmptyString => false
  end.

(** [s.includes(needle)] *)
Fixpoint includes (needle s : string) : bool :=
  (startsWith needle s ||
   match s with
   | EmptyString => false
   | String _ s' => includes needle s'
   end)%bool.

Fixpoint skip (n : nat) (s : string) : string :=
  match n, s with
  | O, _ => s
  | S n', String _ s' => skip n' s'
  | S _, EmptyString => EmptyString
  end.

(** [s.replace(/^p/, "")] for a literal [p]. *)
Definition strip_prefix (p s : string) : string :=
  if startsWith p s then skip (String.length p) s else s.

(** [s.replace(/p$/, "")] for a literal [p]: the one match, if any, is the
    suffix of the whole string. *)
Fixpoint strip_suffix (p s : string) : string :=
  if String.eqb s p then EmptyString
  else match s with
       | EmptyString => EmptyString
       | String c s' => String c (strip_suffix p s')
       end.

(** Decimal rendering of a non-negative integer, as template literals
    render the page number. *)
Definition of_nat (n : nat) : string :=
  NilEmpty.string_of_uint (Nat.to_uint n).

(** [`${v}`] *)
Definition template (v : JsStr) : string :=
  match v with
  | Undefined => "undefined"
  | Null => "null"
  | Str s => s
  end.

(** [l.slice(i, j)] for [0 <= i]. *)
Definition slice {A} (i j : nat) (l : list A) : list A :=
  take (j - i) (drop i l).

End Js.

(** ** Numbers: IEEE 754 binary64

    A JavaScript number is a double; the arithmetic is that of the
    primitive floats.  [toFixed] and [parseFloat] are modelled on the
    values and strings the report can meet: magnitudes below 10^21 (no
    exponent notation), literals whose digits make an integer below
    2^53. *)

Module Number.

Definition t : Type := float.

(** The number of an integer, exact below 2^53. *)
Definition of_Z (z : Z) : t := PrimFloat.of_uint63 (Uint63.of_Z z).
Definition of_nat (n : nat) : t := of_Z (Z.of_nat n).

Definition div (x y : t) : t := PrimFloat.div x y.
Definition mul (x y : t) : t := PrimFloat.mul x y.

Definition NaN : t := PrimFloat.nan.

(** The integer [n] for which [n / 10 - m * 2^e] is closest to zero, the
    larger one when there are two. *)
Definition tenths (m : positive) (e : Z) : Z :=
  if 0 <=? e then 10 * Z.pos m * 2 ^ e
  else (20 * Z.pos m + 2 ^ (- e)) / 2 ^ (- e + 1).

Definition digits (n : Z) : string :=
  NilEmpty.string_of_uint (N.to_uint (Z.to_N n)).

(** The decimal numeral of [n / 10] with one digit after the point. *)
Definition decimal1 (n : Z) : string :=
  digits (n / 10) +:+ "." +:+ digits (n mod 10).

(** [x.toFixed(1)] *)
Definition toFixed1 (x : t) : string :=
  match Prim2SF x with
  | S754_nan => "NaN"
  | S754_infinity false => "Infinity"
  | S754_infinity true => "-Infinity"
  | S754_zero _ => decimal1 0
  | S754_finite s m e => (if s then "-" else "") +:+ decimal1 (tenths m e)
  end.

Definition digit_value (c : ascii) : option Z :=
  let n := Z.of_nat (Ascii.nat_of_ascii c) in
  if (48 <=? n) && (n <=? 57) then Some (n - 48) else None.

(** Reads decimal digits: the number read so far, how many digits were
    read, and the rest of the string. *)
Fixpoint read_digits (s : string) (acc : Z) (count : nat) : Z * nat * string :=
  match s with
  | String c s' =>
      match digit_value c with
      | Some d => read_digits s' (10 * acc + d) (S count)
      | None => (acc, count, s)
      end
  | EmptyString => (acc, count, s)
  end.

Definition parse_unsigned (s : string) : t :=
  if Js.startsWith "Infinity" s then PrimFloat.infinity
  else
    let '(int_part, int_digits, rest) := read_digits s 0 0 in
    let '(all, frac_digits) :=
      match rest with
      | String "."%char rest' =>
          let '(n, k, _) := read_digits rest' int_part 0 in (n, k)
      | _ => (int_part, O)
      end in
    if (int_digits + frac_digits =? 0)%nat then NaN
    else div (of_Z all) (of_Z (10 ^ Z.of_nat frac_digits)).

(** [parseFloat(s)]: the longest numeric prefix, [NaN] when there is
    none. *)
Definition parseFloat (s : string) : t :=
  match s with
  | String "-"%char s' => PrimFloat.opp (parse_unsigned s')
  | String "+"%char s' => parse_unsigned s'
  | _ => parse_unsigned s
  end.

End Number.

(** A propositional reading of "contains": the needle occurs somewhere. *)
Definition occurs_in (needle s : string) : Prop :=
  ∃ pre post : string, s = pre +:+ needle +:+ post.

(** [function isSupportedPlatform(repositoryUrl: string): boolean] *)
Definition isSupportedPlatform (repositoryUrl : JsStr) : bool :=
  if negb (truthy repositoryUrl) then false
  else
    match repositoryUrl with
    | Str s =>
        let url := Js.toLowerCase s in
        let cleanUrl := Js.strip_suffix ".git" (Js.strip_prefix "git+" url) in
        (Js.includes "github.com" cleanUrl || Js.includes "gitlab.com" cleanUrl)%bool
    | _ => false
    end.

(** The wording of the specification for [isSupportedPlatform], without the
    lower-casing the code performs first: strip, then look for a host. *)
Definition spec_supported (repositoryUrl : string) : Prop :=
  let cleanUrl := Js.strip_suffix ".git" (Js.strip_prefix "git+" repositoryUrl) in
  occurs_in "github.com" cleanUrl ∨ occurs_in "gitlab.com" cleanUrl.

(** ** Effects: a program is a tree of requests, delays and console lines

    [B] is the type of a parsed JSON body.  A fetch either fails at the
    transport level (the promise of [fetch] rejects) or yields a response;
    [json] is [None] when the body does not parse ([response.json()]
    rejects). *)

Inductive Error : Type :=
  | HttpError (status : Z)      (* new Error(`HTTP error! status: ${status}`) *)
  | Unreachable                 (* new Error("Unreachable") *)
  | NetworkError                (* fetch() rejected *)
  | SyntaxError                 (* response.json() rejected *)
  | TypeError                   (* a property of undefined, or a spread of a non-iterable *)
  | OutOfFuel.                  (* a loop of the model ran out of fuel: never produced *)

Inductive Result (A : Type) : Type :=
  | Ok (a : A)
  | Err (e : Error).
Arguments Ok {A} a.
Arguments Err {A} e.

(** One line of console output, by format string. *)
Inductive LogLine : Type :=
  | LRetrying (status : Z) (attempt retries : nat) (delay : Z)
  | LFetchingTop (limit totalPages : nat)
  | LFetchingPage (page totalPages : nat)
  | LRetrieved (count : option nat) (page : nat)
  | LTotalSoFar (count : nat)
  | LReachedEnd (page : nat)
  | LWaiting
  | LErrorFetching (e : Error)
  | LSkipping (name : string)
  | LChecking (name : string) (version : JsStr)
  | LCheckingPackage (name : string)
  | LErrorChecking (name : string) (e : Error)
  | LCheckingAll (count : nat)
  | LReportTitle
  | LRule
  | LTotalChecked (total : nat)
  | LWithAttestations (count : nat) (percentage : string)
  | LSaved
  | LSlsaHeader
  | LNoAttestationHeader
  | LRanked (rank : nat) (package : JsStr)
  | LFailed (e : Error).

Section Effects.

Context {B : Type}.

Record Response : Type := mkResponse {
  ok : bool;
  status : Z;
  json : option B;
}.

Inductive FetchOutcome : Type :=
  | Rejected
  | Resp (r : Response).

(** What the outside world can observe of a run, in order. *)
Inductive Event : Type :=
  | EFetch (url : string) (o : FetchOutcome)
  | ESleep (ms : Z)
  | ELog (l : LogLine).

(** The upstream answers a request knowing everything that happened
    before it. *)
Definition Upstream : Type := list Event → string → FetchOutcome.

Inductive Prog (A : Type) : Type :=
  | Ret (a : A)
  | Throw (e : Error)
  | Fetch (url : string) (k : FetchOutcome → Prog A)
  | Sleep (ms : Z) (k : Prog A)
  | Log (l : LogLine) (k : Prog A).

End Effects.

Arguments Response : clear implicits.
Arguments FetchOutcome : clear implicits.
Arguments Event : clear implicits.
Arguments Upstream : clear implicits.
Arguments Prog : clear implicits.
Arguments Ret {B A} a.
Arguments Throw {B A} e.
Arguments Fetch {B A} url k.
Arguments Sleep {B A} ms k.
Arguments Log {B A} l k.
Arguments Rejected {B}.

Section Semantics.

Context {B : Type}.

(** [await p; k] *)
Fixpoint bind {A C} (p : Prog B A) (f : A → Prog B C) : Prog B C :=
  match p with
  | Ret a => f a
  | Throw e => Throw e
  | Fetch url k => Fetch url (λ o, bind (k o) f)
  | Sleep ms k => Sleep ms (bind k f)
  | Log l k => Log l (bind k f)
  end.

(** [try { p } catch (error) { h error }] *)
Fixpoint catch {A} (p : Prog B A) (h : Error → Prog B A) : Prog B A :=
  match p with
  | Ret a => Ret a
  | Throw e => h e
  | Fetch url k => Fetch url (λ o, catch (k o) h)
  | Sleep ms k => Sleep ms (catch k h)
  | Log l k => Log l (catch k h)
  end.

(** [await fetch(url)] *)
Definition fetch (url : string) : Prog B (Response B) :=
  Fetch url (λ o, match o with
                  | Rejected => Throw NetworkError
                  | Resp r => Ret r
                  end).

(** [await response.json()] *)
Definition response_json (response : Response B) : Prog B B :=
  match json response with
  | Some body => Ret body
  | None => Throw SyntaxError
  end.

Variable upstream : Upstream B.

(** A program run to completion on its own, extending the trace. *)
Fixpoint run {A} (p : Prog B A) (tr : list (Event B)) : Result A * list (Event B) :=
  match p with
  | Ret a => (Ok a, tr)
  | Throw e => (Err e, tr)
  | Fetch url k =>
      let o := upstream tr url in run (k o) (tr ++ [EFetch url o])
  | Sleep ms k => run k (tr ++ [ESleep ms])
  | Log l k => run k (tr ++ [ELog l])
  end.

(** *** [Promise.all]: tasks advance one event at a time, interleaved *)

(** One event of a pending task. *)
Definition step {A} (p : Prog B A) (tr : list (Event B)) : Prog B A * list (Event B) :=
  match p with
  | Fetch url k =>
      let o := upstream tr url in (k o, tr ++ [EFetch url o])
  | Sleep ms k => (k, tr ++ [ESleep ms])
  | Log l k => (k, tr ++ [ELog l])
  | _ => (p, tr)
  end.

Definition pending {A} (p : Prog B A) : bool :=
  match p with
  | Ret _ | Throw _ => false
  | _ => true
  end.

(** Indices of the tasks that have not settled. *)
Definition pending_indices {A} (pool : list (Prog B A)) : list nat :=
  filter (λ i, from_option pending false (pool !! i)) (seq 0 (length pool)).

(** The first rejected task, if any. *)
Fixpoint rejection {A} (pool : list (Prog B A)) : option Error :=
  match pool with
  | [] => None
  | Throw e :: _ => Some e
  | _ :: pool' => rejection pool'
  end.

(** The values of the settled tasks, in the order of the tasks. *)
Fixpoint fulfilled {A} (pool : list (Prog B A)) : list A :=
  match pool with
  | [] => []
  | Ret a :: pool' => a :: fulfilled pool'
  | _ :: pool' => fulfilled pool'
  end.

(** When the scheduler has no more choices to make, the remaining tasks
    finish one after the other. *)
Fixpoint finish_in_order {A} (pool : list (Prog B A)) (tr : list (Event B))
  : Result (list A) * list (Event B) :=
  match pool with
  | [] => (Ok [], tr)
  | p :: pool' =>
      match run p tr with
      | (Err e, tr') => (Err e, tr')
      | (Ok a, tr') =>
          match finish_in_order pool' tr' with
          | (Ok rest, tr'') => (Ok (a :: rest), tr'')
          | (Err e, tr'') => (Err e, tr'')
          end
      end
  end.

(** The next event of task [i] happens. *)
Definition advance {A} (i : nat) (pool : list (Prog B A)) (tr : list (Event B))
  : list (Prog B A) * list (Event B) :=
  match pool !! i with
  | Some p => let '(p', tr') := step p tr in (<[i := p']> pool, tr')
  | None => (pool, tr)
  end.

(** [await Promise.all(pool)].  [sched] lists the scheduler's choices:
    each one picks, among the pending tasks, the one whose next event
    happens.  The promise rejects as soon as a task has rejected, and
    fulfils with the values in task order once every task has settled. *)
Fixpoint promise_all {A} (sched : list nat) (pool : list (Prog B A))
    (tr : list (Event B)) : Result (list A) * list (Event B) * list nat :=
  match rejection pool with
  | Some e => (Err e, tr, sched)
  | None =>
      match pending_indices pool with
      | [] => (Ok (fulfilled pool), tr, sched)
      | i0 :: rest =>
          match sched with
          | [] => (finish_in_order pool tr, sched)
          | c :: sched' =>
              let i := nth (c mod S (length rest)) (i0 :: rest) i0 in
              let '(pool', tr') := advance i pool tr in
              promise_all sched' pool' tr'
          end
      end
  end.

End Semantics.

(** ** Timers

    [setTimeout(resolve, delay)] on Node waits [delay] ms when
    [1 <= delay <= 2^31 - 1] and 1 ms otherwise (also for [NaN] and
    [Infinity]).  [delay] is given as the exact value of the delay
    expression.  For an integer [baseDelay], the binary64 value of
    [baseDelay * 2 ** (attempt - 1)] is the exact product whenever that
    lies in the range of the timer (both factors and the product are then
    integers below 2^53), and it is out of the range (or [NaN], for
    [0 * Infinity]) whenever the exact product is: rounding is monotone and
    the bounds are doubles. *)

Definition TIMEOUT_MAX : Z := 2 ^ 31 - 1.

(** The time a timer set with [delay] waits, in ms. *)
Definition timer (delay : Z) : Z :=
  if (1 <=? delay) && (delay <=? TIMEOUT_MAX) then delay else 1.

(** ** [fetchWithRetry] *)

Section FetchWithRetry.

Context {B : Type}.

(** The [for (let attempt = 1; attempt <= retries; attempt++)] loop, from
    [attempt] on, for an integer [baseDelay].  [fuel] bounds the number of
    iterations; [retries] iterations are enough from [attempt = 1] (see
    [retry_loop_spec]).  The console line carries the exact value of
    [delay], the [ESleep] event the time the timer waits. *)
Fixpoint retry_loop (url : string) (retries : nat) (baseDelay : Z)
    (fuel : nat) (attempt : nat) : Prog B (Response B) :=
  if (attempt <=? retries)%nat then
    match fuel with
    | O => Throw OutOfFuel
    | S fuel' =>
        bind (fetch url) (λ response,
          if ok response then Ret response
          else if ((status response >=? 500) && (attempt <? retries)%nat)%bool then
            let delay := baseDelay * 2 ^ (Z.of_nat attempt - 1) in
            Log (LRetrying (status response) attempt retries delay)
              (Sleep (timer delay)
                 (retry_loop url retries baseDelay fuel' (S attempt)))
          else Throw (HttpError (status response)))
    end
  else Throw Unreachable.

Definition fetchWithRetry_with (url : string) (retries : nat) (baseDelay : Z)
  : Prog B (Response B) :=
  retry_loop url retries baseDelay retries 1.

(** [fetchWithRetry(url)] with the default [retries = 3], [baseDelay = 1000]. *)
Definition fetchWithRetry (url : string) : Prog B (Response B) :=
  fetchWithRetry_with url 3 1000.

End FetchWithRetry.

(** ** The data model *)

(** [interface EcosystemsPackage] (of which [PackageListResponse] keeps the
    name only). *)
Module EcosystemsPackage.
Record t : Type := mk {
  name : string;
  repository_url : JsStr;
  latest_release_number : JsStr;
  latest_release_published_at : JsStr;
}.
End EcosystemsPackage.

(** [interface AttestationResult].  The fields are declared [string]; the
    model lets them range over [string | null | undefined], and
    [lastUploaded], which the full-document checker reads by a computed
    key, over the members of [Object.prototype] as well, so that their
    being strings is a property to prove. *)
Module AttestationResult.
Record t : Type := mk {
  name : JsStr;
  version : JsStr;
  lastUploaded : JsValue;
  attestationsUrl : JsStr;
  trustedPublisherId : JsStr;
  repositoryUrl : JsStr;
}.
End AttestationResult.

(** The metadata of one version: [dist?.attestations?.url] and
    [_npmUser?.trustedPublisher?.id].  An absent or null object is [None]. *)
Module NpmVersionMetadata.
Record Attestations : Type := { url : JsStr }.
Record Dist : Type := { attestations : option Attestations }.
Record TrustedPublisher : Type := { id : JsStr }.
Record NpmUser : Type := { trustedPublisher : option TrustedPublisher }.
Record t : Type := mk {
  dist : option Dist;
  _npmUser : option NpmUser;
}.
(** A document without any of the two objects. *)
Definition blank : t := {| dist := None; _npmUser := None |}.
End NpmVersionMetadata.

(** A parsed JSON body: the ranking API answers with an array of package
    summaries, the registry with a metadata object of type [M]. *)
Inductive Json (M : Type) : Type :=
  | JArray (items : list EcosystemsPackage.t)
  | JObject (m : M).
Arguments JArray {M} items.
Arguments JObject {M} m.

(** ** [fetchTopNpmPackages] *)

Section Lister.

Context {M P : Type}.
(** What of a package summary goes into the list: the whole object
    (version-scoped pipeline) or its name (full-document pipeline). *)
Variable select : EcosystemsPackage.t → P.

Definition perPage : nat := 100.

(** [Math.ceil(limit / perPage)] *)
Definition ceil_div (n d : nat) : nat := ((n + d - 1) / d)%nat.

Definition page_url (page : nat) : string :=
  "https://packages.ecosyste.ms/api/v1" +:+ "/registries/" +:+ "npmjs.org"
    +:+ "/packages?per_page=" +:+ Js.of_nat perPage
    +:+ "&page=" +:+ Js.of_nat page +:+ "&order=desc&sort=downloads".

(** [data.length] *)
Definition data_length (data : Json M) : option nat :=
  match data with
  | JArray items => Some (length items)
  | JObject _ => None
  end.

(** The [for (let page = 1; page <= totalPages; page++)] loop, from [page]
    on, ending at the [break] or when the condition fails.  [fuel] bounds
    the number of iterations; [totalPages] iterations are enough from
    [page = 1] (see [page_loop_spec]). *)
Fixpoint page_loop (totalPages : nat) (fuel : nat) (page : nat)
    (allPackages : list P) : Prog (Json M) (list P) :=
  if (page <=? totalPages)%nat then
    match fuel with
    | O => Throw OutOfFuel
    | S fuel' =>
        Log (LFetchingPage page totalPages)
          (bind (fetchWithRetry (page_url page)) (λ response,
           bind (response_json response) (λ data,
           Log (LRetrieved (data_length data) page)
             match data with
             | JObject _ => Throw TypeError
             | JArray items =>
                 let allPackages := allPackages ++ map select items in
                 Log (LTotalSoFar (length allPackages))
                   (if (length items <? perPage)%nat then
                      Log (LReachedEnd page) (Ret allPackages)
                    else if (page <? totalPages)%nat then
                      Log LWaiting
                        (Sleep 500 (page_loop totalPages fuel' (S page) allPackages))
                    else page_loop totalPages fuel' (S page) allPackages)
             end)))
    end
  else Ret allPackages.

Definition fetchTopNpmPackages (limit : nat) : Prog (Json M) (list P) :=
  catch
    (let totalPages := ceil_div limit perPage in
     Log (LFetchingTop limit totalPages)
       (bind (page_loop totalPages totalPages 1 [])
          (λ allPackages, Ret (Js.slice 0 limit allPackages))))
    (λ error, Log (LErrorFetching error) (Throw error)).

End Lister.

(** ** The report *)

Module Entry.
Record t : Type := mk {
  rank : nat;
  package : JsStr;
  version : JsStr;
  lastUploaded : JsValue;
  attestationsUrl : JsStr;
  trustedPublisherId : JsStr;
  repositoryUrl : JsStr;
  isSupportedPlatform : bool;
}.
End Entry.

Module Summary.
Record t : Type := mk {
  total_packages : nat;
  packages_with_attestations : nat;
  attestation_percentage : Number.t;
}.
End Summary.

Module Report.
Record t : Type := mk {
  generated_at : string;
  summary : Summary.t;
  packages : list Entry.t;
}.
End Report.

(** How a run of [main] ends: [output.json] written with the report (exit
    status 0), or [process.exit(1)] after the error was printed. *)
Inductive Outcome : Type :=
  | Written (report : Report.t)
  | Exit1 (e : Error).

(** [attestationResults.map((result, index) => ({ rank: index + 1, ... }))] *)
Definition to_entry (index : nat) (result : AttestationResult.t) : Entry.t :=
  {| Entry.rank := index + 1;
     Entry.package := AttestationResult.name result;
     Entry.version := AttestationResult.version result;
     Entry.lastUploaded := AttestationResult.lastUploaded result;
     Entry.attestationsUrl := AttestationResult.attestationsUrl result;
     Entry.trustedPublisherId := AttestationResult.trustedPublisherId result;
     Entry.repositoryUrl := AttestationResult.repositoryUrl result;
     Entry.isSupportedPlatform := isSupportedPlatform (AttestationResult.repositoryUrl result);
  |}.

(** [(packagesWithAttestations / totalPackages * 100).toFixed(1)] *)
Definition percentage_string (packagesWithAttestations totalPackages : nat) : string :=
  Number.toFixed1
    (Number.mul
       (Number.div (Number.of_nat packagesWithAttestations) (Number.of_nat totalPackages))
       (Number.of_nat 100)).

Definition has_attestation (pkg : Entry.t) : bool :=
  strict_ne_empty (Entry.attestationsUrl pkg).

(** The report object of [main], from the collected results and the time
    of the run ([new Date().toISOString()]). *)
Definition build_report (now : string) (attestationResults : list AttestationResult.t)
  : Report.t :=
  let packages := imap to_entry attestationResults in
  let totalPackages := length packages in
  let packagesWithAttestations := length (List.filter has_attestation packages) in
  let attestationPercentage := percentage_string packagesWithAttestations totalPackages in
  {| Report.generated_at := now;
     Report.summary :=
       {| Summary.total_packages := totalPackages;
          Summary.packages_with_attestations := packagesWithAttestations;
          Summary.attestation_percentage := Number.parseFloat attestationPercentage |};
     Report.packages := packages |}.

(** What [main] prints after writing the file. *)
Definition display {B} (packages : list Entry.t) : list (Event B) :=
  let totalPackages := length packages in
  let packagesWithAttestations := length (List.filter has_attestation packages) in
  let slsaPackages :=
    List.filter (λ pkg, has_attestation pkg
                        && strict_ne_empty (Entry.trustedPublisherId pkg)) packages in
  let noAttestationPackages :=
    List.filter (λ pkg, negb (has_attestation pkg)) packages in
  let ranked (l : list Entry.t) : list (Event B) :=
    map (λ pkg, ELog (LRanked (Entry.rank pkg) (Entry.package pkg))) (Js.slice 0 10 l) in
  [ELog LReportTitle; ELog LRule; ELog (LTotalChecked totalPackages);
   ELog (LWithAttestations packagesWithAttestations
           (percentage_string packagesWithAttestations totalPackages));
   ELog LSaved]
  ++ (if (0 <? length slsaPackages)%nat then ELog LSlsaHeader :: ranked slsaPackages else [])
  ++ (if (0 <? length noAttestationPackages)%nat
      then ELog LNoAttestationHeader :: ranked noAttestationPackages else []).

(** ** [main], for either attestation checker *)

Section Pipeline.

Context {M P : Type}.
Variable select : EcosystemsPackage.t → P.
Variable checker : P → Prog (Json M) (option AttestationResult.t).
Variable upstream : Upstream (Json M).

Definition batchSize : nat := 10.

(** [batchResults.filter((result) => result !== null)] *)
Definition non_null (batchResults : list (option AttestationResult.t))
  : list AttestationResult.t :=
  omap id batchResults.

(** The [for (let i = 0; i < topPackages.length; i += batchSize)] loop.
    The state is the trace and what is left of the scheduler's choices;
    [fuel] bounds the number of iterations. *)
Fixpoint batch_loop (topPackages : list P) (fuel : nat) (i : nat)
    (attestationResults : list AttestationResult.t)
    (tr : list (Event (Json M))) (sched : list nat)
  : Result (list AttestationResult.t) * list (Event (Json M)) * list nat :=
  if (i <? length topPackages)%nat then
    match fuel with
    | O => (Err OutOfFuel, tr, sched)
    | S fuel' =>
        let batch := Js.slice i (i + batchSize) topPackages in
        let batchPromises := map checker batch in
        match promise_all upstream sched batchPromises tr with
        | (Err e, tr', sched') => (Err e, tr', sched')
        | (Ok batchResults, tr', sched') =>
            let attestationResults := attestationResults ++ non_null batchResults in
            let tr'' :=
              if (i + batchSize <? length topPackages)%nat
              then tr' ++ [ESleep 1000] else tr' in
            batch_loop topPackages fuel' (i + batchSize) attestationResults tr'' sched'
        end
    end
  else (Ok attestationResults, tr, sched).

(** The batches, collected. *)
Definition check_all (topPackages : list P) (tr : list (Event (Json M)))
    (sched : list nat) :=
  batch_loop topPackages (length topPackages) 0 [] tr sched.

Definition main (sched : list nat) (now : string)
  : Outcome * list (Event (Json M)) :=
  match run upstream (fetchTopNpmPackages select 500) [] with
  | (Err e, tr) => (Exit1 e, tr ++ [ELog (LFailed e)])
  | (Ok topPackages, tr) =>
      match check_all topPackages
              (tr ++ [ELog (LCheckingAll (length topPackages))]) sched with
      | (Err e, tr', _) => (Exit1 e, tr' ++ [ELog (LFailed e)])
      | (Ok attestationResults, tr', _) =>
          let report := build_report now attestationResults in
          (Written report, tr' ++ display (Report.packages report))
      end
  end.

End Pipeline.

(** ** [fetchPackageAttestation], version-scoped (one version's document) *)

Module VersionScoped.

Import EcosystemsPackage NpmVersionMetadata.

Definition Body : Type := Json NpmVersionMetadata.t.

(** The registry document read as [NpmVersionMetadata]: an array has
    neither a [dist] nor an [_npmUser] property. *)
Definition as_metadata (body : Body) : NpmVersionMetadata.t :=
  match body with
  | JObject m => m
  | JArray _ => NpmVersionMetadata.blank
  end.

(** [versionData.dist?.attestations?.url] *)
Definition attestations_url (versionData : NpmVersionMetadata.t) : JsStr :=
  from_option url Undefined (dist versionData ≫= attestations).

(** [versionData._npmUser?.trustedPublisher?.id] *)
Definition trusted_publisher_id (versionData : NpmVersionMetadata.t) : JsStr :=
  from_option id Undefined (_npmUser versionData ≫= trustedPublisher).

Definition version_url (pkg : EcosystemsPackage.t) (latestVersion : JsStr) : string :=
  "https://registry.npmjs.org/" +:+ name pkg +:+ "/" +:+ Js.template latestVersion.

Definition fetchPackageAttestation (pkg : EcosystemsPackage.t)
  : Prog Body (option AttestationResult.t) :=
  let latestVersion := latest_release_number pkg in
  if negb (truthy latestVersion) then
    Log (LSkipping (name pkg))
      (Ret (Some {|
         AttestationResult.name := Str (name pkg);
         AttestationResult.version := Str "";
         AttestationResult.lastUploaded := or_empty (latest_release_published_at pkg);
         AttestationResult.attestationsUrl := Str "";
         AttestationResult.trustedPublisherId := Str "";
         AttestationResult.repositoryUrl := or_empty (repository_url pkg);
       |}))
  else
    catch
      (Log (LChecking (name pkg) latestVersion)
         (bind (fetchWithRetry (version_url pkg latestVersion)) (λ response,
          bind (response_json response) (λ body,
          let versionData := as_metadata body in
          let attestationsUrl := or_empty (attestations_url versionData) in
          let trustedPublisher := or_empty (trusted_publisher_id versionData) in
          Ret (Some {|
            AttestationResult.name := Str (name pkg);
            AttestationResult.version := latestVersion;
            AttestationResult.lastUploaded := or_empty (latest_release_published_at pkg);
            AttestationResult.attestationsUrl := attestationsUrl;
            AttestationResult.trustedPublisherId := trustedPublisher;
            AttestationResult.repositoryUrl := or_empty (repository_url pkg);
          |})))))
      (λ error, Log (LErrorChecking (name pkg) error) (Ret None)).

Definition main (upstream : Upstream Body) (sched : list nat) (now : string)
  : Outcome * list (Event Body) :=
  main (λ pkg, pkg) fetchPackageAttestation upstream sched now.

End VersionScoped.

(** ** [fetchPackageAttestation], full document ([src/index.mts]) *)

Module NpmPackageMetadata.
Record DistTags : Type := { latest : JsStr }.
Record Repository : Type := { url : JsStr }.
(** [versions] is declared mandatory; [None] is a document without it. *)
Record t : Type := mk {
  dist_tags : option DistTags;
  time : option (gmap string JsStr);
  repository : option Repository;
  versions : option (gmap string NpmVersionMetadata.t);
}.
Definition blank : t :=
  {| dist_tags := None; time := None; repository := None; versions := None |}.
End NpmPackageMetadata.

Module FullDocument.

Import NpmPackageMetadata.

Definition Body : Type := Json NpmPackageMetadata.t.

Definition as_metadata (body : Body) : NpmPackageMetadata.t :=
  match body with
  | JObject m => m
  | JArray _ => NpmPackageMetadata.blank
  end.

(** [metadata['dist-tags']?.latest] *)
Definition latest_tag (metadata : NpmPackageMetadata.t) : JsStr :=
  from_option latest Undefined (dist_tags metadata).

(** [metadata.time?.[latestVersion]] *)
Definition time_of (metadata : NpmPackageMetadata.t) (latestVersion : JsStr) : JsValue :=
  match time metadata with
  | None => Plain Undefined
  | Some times =>
      match JsObject.get times (Js.template latestVersion) with
      | JsObject.Own v => Plain v
      | JsObject.Proto key => Inherited key
      | JsObject.Absent => Plain Undefined
      end
  end.

(** [entries[latestVersion]] as the function goes on to read it:
    [undefined] is [None]; a member of [Object.prototype] has neither a
    [dist] nor an [_npmUser] property. *)
Definition version_entry (entries : gmap string NpmVersionMetadata.t) (key : string)
  : option NpmVersionMetadata.t :=
  match JsObject.get entries key with
  | JsObject.Own versionData => Some versionData
  | JsObject.Proto _ => Some NpmVersionMetadata.blank
  | JsObject.Absent => None
  end.

(** [metadata.repository?.url] *)
Definition repository_url (metadata : NpmPackageMetadata.t) : JsStr :=
  from_option url Undefined (repository metadata).

Definition package_url (packageName : string) : string :=
  "https://registry.npmjs.org/" +:+ packageName.

(** The part of the function after [await response.json()]. *)
Definition read_metadata (packageName : string) (metadata : NpmPackageMetadata.t)
  : Prog Body (option AttestationResult.t) :=
  let latestVersion := latest_tag metadata in
  if negb (truthy latestVersion) then Ret None
  else
    match versions metadata with
    | None => Throw TypeError
    | Some entries =>
        match version_entry entries (Js.template latestVersion) with
        | None => Ret None
        | Some versionData =>
            let attestations := NpmVersionMetadata.dist versionData
                                  ≫= NpmVersionMetadata.attestations in
            let lastUploaded := value_or_empty (time_of metadata latestVersion) in
            let attestationsUrl :=
              or_empty (from_option NpmVersionMetadata.url Undefined attestations) in
            let trustedPublisher :=
              or_empty (VersionScoped.trusted_publisher_id versionData) in
            let repositoryUrl := or_empty (repository_url metadata) in
            Ret (Some {|
              AttestationResult.name := Str packageName;
              AttestationResult.version := latestVersion;
              AttestationResult.lastUploaded := lastUploaded;
              AttestationResult.attestationsUrl := attestationsUrl;
              AttestationResult.trustedPublisherId := trustedPublisher;
              AttestationResult.repositoryUrl := repositoryUrl;
            |})
        end
    end.

Definition fetchPackageAttestation (packageName : string)
  : Prog Body (option AttestationResult.t) :=
  catch
    (Log (LCheckingPackage packageName)
       (bind (fetchWithRetry (package_url packageName)) (λ response,
        bind (response_json response) (λ body,
        read_metadata packageName (as_metadata body)))))
    (λ error, Log (LErrorChecking packageName error) (Ret None)).

Definition main (upstream : Upstream Body) (sched : list nat) (now : string)
  : Outcome * list (Event Body) :=
  main EcosystemsPackage.name fetchPackageAttestation upstream sched now.

End FullDocument.

(** * The static file server ([server.mjs])

    The request handler reads [req.url] only.  [readFile] calls back with
    the content of the file or with an error that carries a code. *)

(** ** [path.extname], as in Node's POSIX implementation

    [extname] of [node:path] is library code: the model follows
    [posix.extname] of Node's [lib/path.js], with its variable names.  It
    scans the path from its end, marks the end of the last component and its
    last dot, and notes what precedes that dot within the component. *)

Module Path.

Record State : Type := mkState {
  startDot : Z;
  startPart : Z;
  end_ : Z;
  matchedSlash : bool;
  preDotState : Z;
}.

Definition initial : State :=
  {| startDot := -1; startPart := 0; end_ := -1; matchedSlash := true; preDotState := 0 |}.

(** The [for (let i = path.length - 1; i >= 0; --i)] loop: [chars] holds
    the characters at the indices [i], [i - 1], ..., 0. *)
Fixpoint extname_loop (chars : list ascii) (i : Z) (st : State) : State :=
  match chars with
  | [] => st
  | c :: chars' =>
      if Ascii.eqb c "/" then
        if negb (matchedSlash st) then
          {| startDot := startDot st; startPart := i + 1; end_ := end_ st;
             matchedSlash := matchedSlash st; preDotState := preDotState st |}
        else extname_loop chars' (i - 1) st
      else
        let st1 :=
          if end_ st =? -1 then
            {| startDot := startDot st; startPart := startPart st; end_ := i + 1;
               matchedSlash := false; preDotState := preDotState st |}
          else st in
        let st2 :=
          if Ascii.eqb c "." then
            if startDot st1 =? -1 then
              {| startDot := i; startPart := startPart st1; end_ := end_ st1;
                 matchedSlash := matchedSlash st1; preDotState := preDotState st1 |}
            else if negb (preDotState st1 =? 1) then
              {| startDot := startDot st1; startPart := startPart st1; end_ := end_ st1;
                 matchedSlash := matchedSlash st1; preDotState := 1 |}
            else st1
          else if negb (startDot st1 =? -1) then
            {| startDot := startDot st1; startPart := startPart st1; end_ := end_ st1;
               matchedSlash := matchedSlash st1; preDotState := -1 |}
          else st1 in
        extname_loop chars' (i - 1) st2
  end.

Definition extname (path : string) : string :=
  let st := extname_loop (rev (String.list_ascii_of_string path))
              (Z.of_nat (String.length path) - 1) initial in
  if (startDot st =? -1) || (end_ st =? -1) || (preDotState st =? 0)
     || ((preDotState st =? 1) && (startDot st =? end_ st - 1)
         && (startDot st =? startPart st + 1))
  then ""
  else String.substring (Z.to_nat (startDot st)) (Z.to_nat (end_ st - startDot st)) path.

(** The string ends in a character that is not a slash. *)
Definition ends_in_name (s : string) : Prop :=
  ∃ c, last (String.list_ascii_of_string s) = Some c ∧ c ≠ "/"%char.

(** No character of the string is a dot or a slash. *)
Definition plain (s : string) : Prop :=
  Forall (λ c, c ≠ "/"%char ∧ c ≠ "."%char) (String.list_ascii_of_string s).

End Path.

(** ** The request handler *)

Module Server.

(** What [readFile] calls back with. *)
Inductive ReadResult : Type :=
  | Content (content : string)
  | ReadError (code : string).

Definition FileSystem : Type := string → ReadResult.

(** What the handler writes: the status and headers of [res.writeHead]
    and the body of [res.end]. *)
Record Reply : Type := mkReply {
  status : Z;
  headers : list (string * string);
  body : string;
}.

Definition mimeTypes : list (string * string) :=
  [(".html", "text/html");
   (".js", "text/javascript");
   (".css", "text/css");
   (".json", "application/json");
   (".png", "image/png");
   (".jpg", "image/jpg");
   (".gif", "image/gif");
   (".svg", "image/svg+xml");
   (".wav", "audio/wav");
   (".mp4", "video/mp4");
   (".woff", "application/font-woff");
   (".ttf", "application/font-ttf");
   (".eot", "application/vnd.ms-fontobject");
   (".otf", "application/font-otf");
   (".wasm", "application/wasm")].

(** [table[key]] on an object literal with these entries.  The key is a
    lower-cased result of [Path.extname], so the empty string or a string
    that starts with a dot (see [extname_shape]): no property inherited
    from [Object.prototype] has such a name, and the own entries are all a
    lookup can find. *)
Fixpoint get (table : list (string * string)) (key : string) : JsStr :=
  match table with
  | [] => Undefined
  | (k, v) :: table' => if String.eqb k key then Str v else get table' key
  end.

(** [mimeTypes[extname] || "application/octet-stream"] *)
Definition contentType (extname : string) : string :=
  let found := get mimeTypes extname in
  if truthy found then Js.template found else "application/octet-stream".

(** The file the handler reads for a request:
    [let filePath = `.${req.url}`; if (filePath === "./") filePath = "./index.html";] *)
Definition filePath (url : string) : string :=
  let filePath := "." +:+ url in
  if String.eqb filePath "./" then "./index.html" else filePath.

(** The callback of [createServer], with the callback it passes to
    [readFile]: the reply to a request for [url] on the file system [fs]. *)
Definition handler (fs : FileSystem) (url : string) : Reply :=
  let filePath := filePath url in
  let extname := Js.toLowerCase (Path.extname filePath) in
  let contentType := contentType extname in
  match fs filePath with
  | ReadError code =>
      if String.eqb code "ENOENT" then
        {| status := 404; headers := [("Content-Type", "text/html")];
           body := "404 Not Found" |}
      else
        {| status := 500; headers := [];
           body := "Sorry, check with the site admin for error: " +:+ code +:+ " .."
                   +:+ String (Ascii.ascii_of_nat 10) "" |}
  | Content content =>
      {| status := 200;
         headers := [("Content-Type", contentType); ("Access-Control-Allow-Origin", "*")];
         body := content |}
  end.

End Server.

(** * The vocabulary of the properties *)

(** ** Observations on traces *)

Section Traces.

Context {B : Type}.

Definition fetches (tr : list (Event B)) : list (string * FetchOutcome B) :=
  omap (λ ev, match ev with EFetch url o => Some (url, o) | _ => None end) tr.

Definition is_log (ev : Event B) : bool :=
  match ev with ELog _ => true | _ => false end.

(** The trace without the console output. *)
Definition silent (tr : list (Event B)) : list (Event B) :=
  List.filter (λ ev, negb (is_log ev)) tr.

(** Every response recorded in [ev] is the one the upstream gives after
    the events before it. *)
Fixpoint answered_by (upstream : Upstream B) (tr ev : list (Event B)) : Prop :=
  match ev with
  | [] => True
  | e :: ev' =>
      match e with EFetch url o => o = upstream tr url | _ => True end
      ∧ answered_by upstream (tr ++ [e]) ev'
  end.

(** A response that makes [fetchWithRetry] try again when attempts are
    left. *)
Definition transient (o : FetchOutcome B) : Prop :=
  match o with
  | Resp r => ok r = false ∧ 500 ≤ status r
  | Rejected => False
  end.

(** The requests and delays of a retried fetch, from the answers it got:
    after the [k]-th answer that is not the last, a delay of
    [baseDelay * 2^(k-1)] ms. *)
Fixpoint backoff (baseDelay : Z) (url : string) (k : nat)
    (answers : list (FetchOutcome B)) : list (Event B) :=
  match answers with
  | [] => []
  | o :: rest =>
      EFetch url o ::
      match rest with
      | [] => []
      | _ :: _ =>
          ESleep (baseDelay * 2 ^ (Z.of_nat k - 1)) :: backoff baseDelay url (S k) rest
      end
  end.

(** The same with the delays as the timers take them, for any base
    delay. *)
Fixpoint backoff_timers (baseDelay : Z) (url : string) (k : nat)
    (answers : list (FetchOutcome B)) : list (Event B) :=
  match answers with
  | [] => []
  | o :: rest =>
      EFetch url o ::
      match rest with
      | [] => []
      | _ :: _ =>
          ESleep (timer (baseDelay * 2 ^ (Z.of_nat k - 1)))
            :: backoff_timers baseDelay url (S k) rest
      end
  end.

(** What the last answer makes of a retried fetch that received [answers]
    and was allowed [budget] attempts. *)
Definition verdict (budget : nat) (answers : list (FetchOutcome B))
    (res : Result (Response B)) : Prop :=
  match last answers with
  | Some (Resp r) =>
      if ok r then res = Ok r
      else res = Err (HttpError (status r))
           ∧ (status r < 500 ∨ length answers = budget)
  | Some Rejected => res = Err NetworkError
  | None => False
  end.

(** A response by status alone: [ok] is true for the statuses 200-299. *)
Definition http (status : Z) (body : option B) : FetchOutcome B :=
  Resp {| ok := (200 <=? status) && (status <=? 299); status := status; json := body |}.

(** An upstream that answers the [n]-th request with the [n]-th entry of a
    script, whatever the URL. *)
Definition scripted (script : list (FetchOutcome B)) : Upstream B :=
  λ tr _, nth (length (fetches tr)) script Rejected.

End Traces.

Section ListerObservations.

Context {M : Type}.

(** The items a page request ended with: the body of its last answer,
    when that is an ok response carrying an array. *)
Definition round_items (answers : list (FetchOutcome (Json M)))
  : option (list EcosystemsPackage.t) :=
  match last answers with
  | Some (Resp r) =>
      if ok r then
        match json r with
        | Some (JArray items) => Some items
        | _ => None
        end
      else None
  | _ => None
  end.

(** The requests of a run of page requests, the first for page [page]:
    each round is the answers one page request received. *)
Definition page_fetches (page : nat) (rounds : list (list (FetchOutcome (Json M))))
  : list (string * FetchOutcome (Json M)) :=
  concat (imap (λ i answers, (λ o, (page_url (page + i), o)) <$> answers) rounds).

(** The package at position [index] of page [page] of a sample ranking. *)
Definition sample_package (page index : nat) : EcosystemsPackage.t :=
  {| EcosystemsPackage.name := "pkg-" +:+ Js.of_nat page +:+ "-" +:+ Js.of_nat index;
     EcosystemsPackage.repository_url := Null;
     EcosystemsPackage.latest_release_number := Null;
     EcosystemsPackage.latest_release_published_at := Null |}.

(** A ranking whose pages 1 to [full] hold 100 packages each and whose
    page [full + 1] holds [rest]; any other request is answered 404. *)
Definition ranking_source (full rest : nat) : Upstream (Json M) :=
  λ _ url,
    match list_find (λ page, url = page_url page) (seq 1 (S full)) with
    | Some (_, page) =>
        http 200 (Some (JArray (sample_package page <$>
                                  seq 0 (if (page <=? full)%nat then 100%nat else rest))))
    | None => http 404 None
    end.

End ListerObservations.

(** ** What a task can do, whatever the interleaving *)

Section Always.

Context {B : Type}.

(** Along every path the upstream (asked at any moment) can take the
    program, it ends by returning a value that satisfies [Q]; in
    particular it never throws. *)
Fixpoint always_under {A} (upstream : Upstream B) (Q : A → Prop) (p : Prog B A) : Prop :=
  match p with
  | Ret a => Q a
  | Throw _ => False
  | Fetch url k => ∀ tr, always_under upstream Q (k (upstream tr url))
  | Sleep _ k => always_under upstream Q k
  | Log _ k => always_under upstream Q k
  end.

(** The same, whatever the answers. *)
Fixpoint always {A} (Q : A → Prop) (p : Prog B A) : Prop :=
  match p with
  | Ret a => Q a
  | Throw _ => False
  | Fetch url k => ∀ o, always Q (k o)
  | Sleep _ k => always Q k
  | Log _ k => always Q k
  end.

(** The upstream answers a request by its URL alone. *)
Definition stateless (upstream : Upstream B) : Prop :=
  ∀ tr1 tr2 url, upstream tr1 url = upstream tr2 url.

(** The result of a program run from the empty history. *)
Definition eval {A} (upstream : Upstream B) (p : Prog B A) : Result A :=
  (run upstream p []).1.

End Always.

(** ** The batch loop *)

(** The specification's partition: consecutive pieces of [n] elements,
    the last one possibly shorter. *)
Fixpoint chunks_fuel {A} (fuel n : nat) (l : list A) : list (list A) :=
  match fuel, l with
  | S fuel', _ :: _ => take n l :: chunks_fuel fuel' n (drop n l)
  | _, _ => []
  end.

Definition chunks {A} (n : nat) (l : list A) : list (list A) :=
  chunks_fuel (length l) n l.

Section BatchSpec.

Context {M P : Type}.
Variable checker : P → Prog (Json M) (option AttestationResult.t).
Variable upstream : Upstream (Json M).

(** The specification's scheduler: batch after batch, each one awaited as
    a whole, a delay of 1000 ms between two batches, the records of each
    batch appended in order. *)
Fixpoint run_batches (batches : list (list P))
    (attestationResults : list AttestationResult.t)
    (tr : list (Event (Json M))) (sched : list nat)
  : Result (list AttestationResult.t) * list (Event (Json M)) * list nat :=
  match batches with
  | [] => (Ok attestationResults, tr, sched)
  | batch :: rest =>
      match promise_all upstream sched (map checker batch) tr with
      | (Err e, tr', sched') => (Err e, tr', sched')
      | (Ok batchResults, tr', sched') =>
          run_batches rest (attestationResults ++ non_null batchResults)
            (match rest with [] => tr' | _ :: _ => tr' ++ [ESleep 1000] end) sched'
      end
  end.

End BatchSpec.

(** ** Programs and the answers they have seen *)

Section SeenDefs.

Context {B : Type}.

(** [always_seen Q seen p]: whatever the answers, [p] ends by returning a
    value [a] with [Q seen' a], where [seen'] extends [seen] with the
    requests [p] made and the answers it got, in order. *)
Fixpoint always_seen {A} (Q : list (string * FetchOutcome B) → A → Prop)
    (seen : list (string * FetchOutcome B)) (p : Prog B A) : Prop :=
  match p with
  | Ret a => Q seen a
  | Throw _ => False
  | Fetch url k => ∀ o, always_seen Q (seen ++ [(url, o)]) (k o)
  | Sleep _ k => always_seen Q seen k
  | Log _ k => always_seen Q seen k
  end.

(** The same for the values [p] can return, when [p] may also throw. *)
Fixpoint returns_seen {A} (Q : list (string * FetchOutcome B) → A → Prop)
    (seen : list (string * FetchOutcome B)) (p : Prog B A) : Prop :=
  match p with
  | Ret a => Q seen a
  | Throw _ => True
  | Fetch url k => ∀ o, returns_seen Q (seen ++ [(url, o)]) (k o)
  | Sleep _ k => returns_seen Q seen k
  | Log _ k => returns_seen Q seen k
  end.

End SeenDefs.

(** ** The attestation checkers *)

(** Every field of the record is a string. *)
Definition well_formed (r : AttestationResult.t) : Prop :=
  is_string (AttestationResult.name r)
  ∧ is_string (AttestationResult.version r)
  ∧ is_string_value (AttestationResult.lastUploaded r)
  ∧ is_string (AttestationResult.attestationsUrl r)
  ∧ is_string (AttestationResult.trustedPublisherId r)
  ∧ is_string (AttestationResult.repositoryUrl r).

(** Every field of the record but [lastUploaded] is a string. *)
Definition well_formed_but_time (r : AttestationResult.t) : Prop :=
  is_string (AttestationResult.name r)
  ∧ is_string (AttestationResult.version r)
  ∧ is_string (AttestationResult.attestationsUrl r)
  ∧ is_string (AttestationResult.trustedPublisherId r)
  ∧ is_string (AttestationResult.repositoryUrl r).



(** What the version-scoped checker resolves to, from the package summary
    and the answers it has seen: with no known version, a partial record
    and no request; otherwise null, or the record read from the body of the
    last answer, an ok response. *)
Definition version_scoped_post (pkg : EcosystemsPackage.t)
    (seen : list (string * FetchOutcome VersionScoped.Body))
    (o : option AttestationResult.t) : Prop :=
  let latestVersion := EcosystemsPackage.latest_release_number pkg in
  match o with
  | None => truthy latestVersion = true
  | Some r =>
      AttestationResult.name r = Str (EcosystemsPackage.name pkg)
      ∧ AttestationResult.lastUploaded r
        = or_empty (EcosystemsPackage.latest_release_published_at pkg)
      ∧ AttestationResult.repositoryUrl r = or_empty (EcosystemsPackage.repository_url pkg)
      ∧ ((truthy latestVersion = false
          ∧ seen = []
          ∧ AttestationResult.version r = Str ""
          ∧ AttestationResult.attestationsUrl r = Str ""
          ∧ AttestationResult.trustedPublisherId r = Str "")
         ∨ (truthy latestVersion = true
            ∧ AttestationResult.version r = latestVersion
            ∧ ∃ resp body,
                last seen = Some (VersionScoped.version_url pkg latestVersion, Resp resp)
                ∧ ok resp = true
                ∧ json resp = Some body
                ∧ AttestationResult.attestationsUrl r
                  = or_empty (VersionScoped.attestations_url (VersionScoped.as_metadata body))
                ∧ AttestationResult.trustedPublisherId r
                  = or_empty (VersionScoped.trusted_publisher_id
                                (VersionScoped.as_metadata body))))
  end.

(** What the full-document checker resolves to: null, or the record read
    from the document of the last answer, an ok response whose document
    names a latest version that the lookup in its version map finds. *)
Definition full_document_post (packageName : string)
    (seen : list (string * FetchOutcome FullDocument.Body))
    (o : option AttestationResult.t) : Prop :=
  match o with
  | None => True
  | Some r =>
      ∃ resp body v entries versionData,
        last seen = Some (FullDocument.package_url packageName, Resp resp)
        ∧ ok resp = true
        ∧ json resp = Some body
        ∧ FullDocument.latest_tag (FullDocument.as_metadata body) = Str v
        ∧ v ≠ ""
        ∧ NpmPackageMetadata.versions (FullDocument.as_metadata body) = Some entries
        ∧ FullDocument.version_entry entries v = Some versionData
        ∧ r = {| AttestationResult.name := Str packageName;
                 AttestationResult.version := Str v;
                 AttestationResult.lastUploaded :=
                   value_or_empty
                     (FullDocument.time_of (FullDocument.as_metadata body) (Str v));
                 AttestationResult.attestationsUrl :=
                   or_empty (VersionScoped.attestations_url versionData);
                 AttestationResult.trustedPublisherId :=
                   or_empty (VersionScoped.trusted_publisher_id versionData);
                 AttestationResult.repositoryUrl :=
                   or_empty (FullDocument.repository_url (FullDocument.as_metadata body)) |}
  end.

(** A document whose latest tag is the name of a member of
    [Object.prototype] and whose version map is empty,
    [{"dist-tags": {"latest": "constructor"}, "versions": {}}], with or
    without a [time] map, and a registry that serves it. *)
Definition constructor_document (time : option (gmap string JsStr))
  : NpmPackageMetadata.t :=
  {| NpmPackageMetadata.dist_tags :=
       Some {| NpmPackageMetadata.latest := Str "constructor" |};
     NpmPackageMetadata.time := time;
     NpmPackageMetadata.repository := None;
     NpmPackageMetadata.versions := Some ∅ |}.

Definition constructor_registry (time : option (gmap string JsStr))
  : Upstream FullDocument.Body :=
  λ _ _, http 200 (Some (JObject (constructor_document time))).

(** ** Ranks *)

(** The reading of the rank invariant as the specification states it: the
    package at the position [rank] (counted from 1) of the input list is
    the package of the entry. *)
Definition rank_is_input_position {P} (pname : P → string) (topPackages : list P)
    (report : Report.t) : Prop :=
  ∀ e, e ∈ Report.packages report →
       ∃ pkg, topPackages !! (Entry.rank e - 1)%nat = Some pkg
              ∧ Entry.package e = Str (pname pkg).

(** Two packages with a known version; the registry knows the second one
    only. *)
Definition first_package : EcosystemsPackage.t :=
  {| EcosystemsPackage.name := "first";
     EcosystemsPackage.repository_url := Str "https://github.com/example/first";
     EcosystemsPackage.latest_release_number := Str "1.0.0";
     EcosystemsPackage.latest_release_published_at := Str "2024-01-01T00:00:00.000Z" |}.

Definition second_package : EcosystemsPackage.t :=
  {| EcosystemsPackage.name := "second";
     EcosystemsPackage.repository_url := Null;
     EcosystemsPackage.latest_release_number := Str "2.0.0";
     EcosystemsPackage.latest_release_published_at := Null |}.

Definition second_metadata : NpmVersionMetadata.t :=
  {| NpmVersionMetadata.dist :=
       Some {| NpmVersionMetadata.attestations :=
                 Some {| NpmVersionMetadata.url :=
                           Str "https://registry.npmjs.org/-/npm/v1/attestations/second@2.0.0" |} |};
     NpmVersionMetadata._npmUser := None |}.

Definition second_only_source : Upstream VersionScoped.Body :=
  λ _ url,
    if String.eqb url (page_url 1) then
      http 200 (Some (JArray [first_package; second_package]))
    else if String.eqb url (VersionScoped.version_url second_package (Str "2.0.0")) then
      http 200 (Some (JObject second_metadata))
    else http 404 None.

(** ** The batch scheduler on 25 packages *)

Definition versioned_package (index : nat) : EcosystemsPackage.t :=
  {| EcosystemsPackage.name := "pkg-" +:+ Js.of_nat index;
     EcosystemsPackage.repository_url := Null;
     EcosystemsPackage.latest_release_number := Str "1.0.0";
     EcosystemsPackage.latest_release_published_at := Null |}.

(** A registry that knows every package but [missing]. *)
Definition registry_without (missing : EcosystemsPackage.t) : Upstream VersionScoped.Body :=
  λ _ url,
    if String.eqb url (VersionScoped.version_url missing
                         (EcosystemsPackage.latest_release_number missing))
    then http 404 None
    else http 200 (Some (JObject NpmVersionMetadata.blank)).

(** The trace cut at its delays of 1000 ms: in a run in which no request
    is retried, the pauses between batches. *)
Fixpoint split_at_pauses {B} (tr : list (Event B)) : list (list (Event B)) :=
  match tr with
  | [] => [[]]
  | ESleep 1000 :: tr' => [] :: split_at_pauses tr'
  | ev :: tr' =>
      match split_at_pauses tr' with
      | seg :: segs => (ev :: seg) :: segs
      | [] => [[ev]]
      end
  end.

(** The packages whose lookup starts in a piece of trace. *)
Definition lookups_started {B} (tr : list (Event B)) : list string :=
  omap (λ ev, match ev with
              | ELog (LChecking name _) | ELog (LSkipping name)
              | ELog (LCheckingPackage name) => Some name
              | _ => None
              end) tr.

Definition started_once {B} (names : list string) (tr : list (Event B)) : bool :=
  forallb (λ name, length (List.filter (String.eqb name) (lookups_started tr)) =? 1)%nat names.

(** ** Determinism *)

(** Two runs end the same way, with reports that agree on everything but
    the time of generation. *)
Definition same_but_time (o1 o2 : Outcome) : Prop :=
  match o1, o2 with
  | Written r1, Written r2 =>
      Report.summary r1 = Report.summary r2 ∧ Report.packages r1 = Report.packages r2
  | Exit1 e1, Exit1 e2 => e1 = e2
  | _, _ => False
  end.

(** A registry serving one full document, for a package with one
    version. *)
Definition second_document : NpmPackageMetadata.t :=
  {| NpmPackageMetadata.dist_tags := Some {| NpmPackageMetadata.latest := Str "2.0.0" |};
     NpmPackageMetadata.time := Some {[ "2.0.0" := Str "2024-02-02T00:00:00.000Z" ]};
     NpmPackageMetadata.repository :=
       Some {| NpmPackageMetadata.url := Str "git+https://github.com/example/second.git" |};
     NpmPackageMetadata.versions := Some {[ "2.0.0" := second_metadata ]} |}.

Definition second_only_documents : Upstream FullDocument.Body :=
  λ _ url,
    if String.eqb url (page_url 1) then
      http 200 (Some (JArray [first_package; second_package]))
    else if String.eqb url (FullDocument.package_url "second") then
      http 200 (Some (JObject second_document))
    else http 404 None.

(** ** The summary of the report *)

(** [k / n * 100] rounded to one decimal place, in tenths: the nearest
    tenth, the upper one when two are as near. *)
Definition round_half_up_tenths (k n : Z) : Z := (2000 * k + n) / (2 * n).

(** The percentage as the specification words it: the exact quotient
    rounded to one decimal place, as a number. *)
Definition spec_percentage (k n : nat) : Number.t :=
  Number.parseFloat (Number.decimal1 (round_half_up_tenths (Z.of_nat k) (Z.of_nat n))).

(** [t / 10] is a one-decimal value nearest to [100 * k / n]: the half-up
    rounding, or its lower neighbour when the quotient is exactly halfway. *)
Definition nearest_tenth (k n t : Z) : Prop :=
  2 * Z.abs (t * n - 1000 * k) ≤ n
  ∧ (t = round_half_up_tenths k n
     ∨ ((2000 * k) mod (2 * n) = n ∧ t = round_half_up_tenths k n - 1)).

(** [Number.tenths] with shifts for the power of two and the division. *)
Definition tenths_by_shift (m : positive) (e : Z) : Z :=
  if 0 <=? e then 10 * Z.pos m * 2 ^ e
  else Z.shiftr (20 * Z.pos m + Z.shiftl 1 (- e)) (- e + 1).

(** The double-precision percentage of [k] out of [n], as [toFixed(1)]
    rounds it, checked to be within 0.05 of the exact quotient. *)
Definition percentage_check (k n : Z) : bool :=
  match Prim2SF (Number.mul (Number.div (Number.of_Z k) (Number.of_Z n))
                   (Number.of_Z 100)) with
  | S754_zero _ => 2000 * k <=? n
  | S754_finite false m e => 2 * Z.abs (tenths_by_shift m e * n - 1000 * k) <=? n
  | _ => false
  end.

(** [f] holds of the [count] integers from [from] on. *)
Fixpoint forall_range (f : Z → bool) (from : Z) (count : nat) : bool :=
  match count with
  | O => true
  | S count' => f from && forall_range f (from + 1) count'
  end.

Definition summary_ok (report : Report.t) : Prop :=
  let packages := Report.packages report in
  let n := length packages in
  let k := length (List.filter (λ pkg, truthy (Entry.attestationsUrl pkg)) packages) in
  Summary.total_packages (Report.summary report) = n
  ∧ Summary.packages_with_attestations (Report.summary report) = k
  ∧ ∃ t : Z,
      Summary.attestation_percentage (Report.summary report)
      = Number.parseFloat (Number.decimal1 t)
      ∧ nearest_tenth (Z.of_nat k) (Z.of_nat n) t.

(** [total] records, the first [attested] of them with an attestation. *)
Definition sample_results (attested total : nat) : list AttestationResult.t :=
  (λ i, {| AttestationResult.name := Str ("pkg-" +:+ Js.of_nat i);
           AttestationResult.version := Str "1.0.0";
           AttestationResult.lastUploaded := Str "";
           AttestationResult.attestationsUrl :=
             if (i <? attested)%nat then Str "https://registry.npmjs.org/-/npm/v1/attestations"
             else Str "";
           AttestationResult.trustedPublisherId := Str "";
           AttestationResult.repositoryUrl := Str "" |}) <$> seq 0 total.

(** ** The empty report *)

(** The ranking has no package at all. *)
Definition empty_ranking {M} : Upstream (Json M) :=
  λ _ _, http 200 (Some (JArray [])).

(** The ranking has one package, which the registry does not know. *)
Definition unknown_package_source {M} : Upstream (Json M) :=
  λ _ url,
    if String.eqb url (page_url 1) then http 200 (Some (JArray [first_package]))
    else http 404 None.

Definition empty_report (now : string) : Report.t :=
  {| Report.generated_at := now;
     Report.summary :=
       {| Summary.total_packages := 0;
          Summary.packages_with_attestations := 0;
          Summary.attestation_percentage := Number.NaN |};
     Report.packages := [] |}.

(** ** Time spent waiting *)

Section Waiting.

Context {B : Type}.

(** The time a trace spends in delays, in ms. *)
Definition total_sleep (tr : list (Event B)) : Z :=
  foldr (λ ev acc, match ev with ESleep ms => ms + acc | _ => acc end) 0 tr.

(** The number of delays of exactly [ms] ms. *)
Definition pauses (ms : Z) (tr : list (Event B)) : nat :=
  length (List.filter (λ ev, match ev with ESleep d => d =? ms | _ => false end) tr).

End Waiting.

(** ** The shape of a listing *)

Section ListerShape.

Context {M : Type}.

(** The requests and delays of a run of page requests, the first one for
    page [page]: each round is a retried fetch, and a pause of 500 ms
    separates two rounds. *)
Fixpoint page_trace (page : nat) (rounds : list (list (FetchOutcome (Json M))))
  : list (Event (Json M)) :=
  match rounds with
  | [] => []
  | answers :: rest =>
      backoff 1000 (page_url page) 1 answers
      ++ match rest with
         | [] => []
         | _ :: _ => ESleep 500 :: page_trace (S page) rest
         end
  end.

(** The error an answer to a page request ends the listing with, if it
    does: a rejected fetch, a non-ok status, a body that does not parse or
    a body that is not an array. *)
Definition page_failure (o : FetchOutcome (Json M)) : option Error :=
  match o with
  | Rejected => Some NetworkError
  | Resp r =>
      if ok r then
        match json r with
        | None => Some SyntaxError
        | Some (JObject _) => Some TypeError
        | Some (JArray _) => None
        end
      else Some (HttpError (status r))
  end.

End ListerShape.

(** ** What a lookup reads *)

(** The body a caller of [fetchWithRetry] gets to read from an answer:
    that of an ok response, when it parses. *)
Definition usable_body {B} (o : FetchOutcome B) : option B :=
  match o with
  | Resp r => if ok r then json r else None
  | Rejected => None
  end.

(** The document has a latest version and an entry for it. *)
Definition has_latest_entry (metadata : NpmPackageMetadata.t) : Prop :=
  truthy (FullDocument.latest_tag metadata) = true
  ∧ ∃ entries,
      NpmPackageMetadata.versions metadata = Some entries
      ∧ is_Some (entries !! Js.template (FullDocument.latest_tag metadata)).

(** The document has a latest version that the lookup in its version map
    finds: an entry of the map or, under a name such as [constructor], a
    member of [Object.prototype]. *)
Definition finds_latest_entry (metadata : NpmPackageMetadata.t) : Prop :=
  truthy (FullDocument.latest_tag metadata) = true
  ∧ ∃ entries,
      NpmPackageMetadata.versions metadata = Some entries
      ∧ (is_Some (entries !! Js.template (FullDocument.latest_tag metadata))
         ∨ Js.template (FullDocument.latest_tag metadata) ∈ JsObject.prototype).

(** The package of [second_document] as the ranking lists it when the two
    sources agree. *)
Definition listed_package : EcosystemsPackage.t :=
  {| EcosystemsPackage.name := "second";
     EcosystemsPackage.repository_url := Str "git+https://github.com/example/second.git";
     EcosystemsPackage.latest_release_number := Str "2.0.0";
     EcosystemsPackage.latest_release_published_at := Str "2024-02-02T00:00:00.000Z" |}.

(** ** Where requests go *)

Section Asks.

Context {B : Type}.

(** Every request the program can make goes to a URL in [U]. *)
Fixpoint asks_only {A} (U : string → Prop) (p : Prog B A) : Prop :=
  match p with
  | Ret _ | Throw _ => True
  | Fetch url k => U url ∧ ∀ o, asks_only U (k o)
  | Sleep _ k | Log _ k => asks_only U k
  end.

(** Every request of the trace went to a URL in [U]. *)
Definition asked_only (U : string → Prop) (tr : list (Event B)) : Prop :=
  Forall (λ f, U f.1) (fetches tr).

End Asks.

(** The packages [main] looks up: what the listing returned, none when it
    failed. *)
Definition ranked {M P} (select : EcosystemsPackage.t → P) (upstream : Upstream (Json M))
  : list P :=
  match run upstream (fetchTopNpmPackages select 500) [] with
  | (Ok topPackages, _) => topPackages
  | (Err _, _) => []
  end.

(** ** Overlaps of a needle with the end of a string *)

(** No non-empty end of [needle] is a beginning of [t]: an occurrence of
    [needle] in [s +:+ t] cannot start in [s] and end in [t]. *)
Fixpoint no_overlap (needle t : string) : bool :=
  match needle with
  | EmptyString => true
  | String _ needle' => negb (Js.startsWith needle t) && no_overlap needle' t
  end.

(** ** A registry that serves every package *)

(** A ranking of two packages, one of them without a known version, and a
    registry that serves a document for every version. *)
Definition unversioned_package : EcosystemsPackage.t :=
  {| EcosystemsPackage.name := "unversioned";
     EcosystemsPackage.repository_url := Str "https://gitlab.com/example/unversioned";
     EcosystemsPackage.latest_release_number := Null;
     EcosystemsPackage.latest_release_published_at := Null |}.

Definition healthy_source : Upstream VersionScoped.Body :=
  λ _ url,
    if String.eqb url (page_url 1) then
      http 200 (Some (JArray [unversioned_package; second_package]))
    else http 200 (Some (JObject second_metadata)).

(** ** How many requests *)

(** On every path the program makes at most [n] requests. *)
Fixpoint at_most {B A} (n : nat) (p : Prog B A) : Prop :=
  match p with
  | Ret _ | Throw _ => True
  | Fetch _ k =>
      match n with
      | O => False
      | S n' => ∀ o, at_most n' (k o)
      end
  | Sleep _ k | Log _ k => at_most n k
  end.

(** The number of requests of a trace. *)
Definition requests {B} (tr : list (Event B)) : nat := length (fetches tr).

(** * Properties *)

(** ** Strings *)

Lemma startsWith_spec (p s : string) :
  Js.startsWith p s = true ↔ ∃ post, s = p +:+ post.
Proof.
  revert s. induction p as [|a p IH]; intros s; simpl.
  - split; [intros _; by exists s | done].
  - destruct s as [|b s]; simpl.
    + split; [done | intros [post H]; discriminate].
    + rewrite andb_true_iff, IH. split.
      * intros [Hab [post ->]]. apply Ascii.eqb_eq in Hab as ->. by exists post.
      * intros [post H]. injection H as -> ->. split; [apply Ascii.eqb_refl | by exists post].
Qed.

Lemma includes_spec (needle s : string) :
  Js.includes needle s = true ↔ occurs_in needle s.
Proof.
  split.
  - induction s as [|c s IH]; simpl; rewrite orb_true_iff; intros [H|H].
    + apply startsWith_spec in H as [post ->]. by exists "", post.
    + done.
    + apply startsWith_spec in H as [post ->]. by exists "", post.
    + destruct (IH H) as (pre & post & ->). by exists (String c pre), post.
  - intros (pre & post & ->). induction pre as [|c pre IH].
    + destruct (needle +:+ post) eqn:E; simpl; rewrite <- ?E;
        apply orb_true_iff; left; apply startsWith_spec; by exists post.
    + simpl. apply orb_true_iff. right. exact IH.
Qed.

Lemma spec_supported_includes (u : string) :
  spec_supported u ↔
  (Js.includes "github.com" (Js.strip_suffix ".git" (Js.strip_prefix "git+" u))
   || Js.includes "gitlab.com" (Js.strip_suffix ".git" (Js.strip_prefix "git+" u))) = true.
Proof.
  unfold spec_supported. cbv zeta. rewrite orb_true_iff, !includes_spec. tauto.
Qed.

(** C7, as stated, fails: the code lower-cases the URL before it strips and
    searches, so a URL whose host is spelled with capitals is supported
    although, taken as it is, it contains neither host name. *)
Lemma isSupportedPlatform_case_counterexample :
  ¬ (isSupportedPlatform (Str "https://GitHub.com/foo/bar") = true
     ↔ spec_supported "https://GitHub.com/foo/bar").
Proof.
  rewrite spec_supported_includes. vm_compute. intros [H _].
  specialize (H eq_refl). discriminate.
Qed.

(** C7, amended: [isSupportedPlatform] answers true exactly when the
    lower-cased URL, stripped of a leading "git+" and a trailing ".git",
    contains "github.com" or "gitlab.com"; [null], [undefined] and the empty
    string are unsupported; the three examples of the specification hold. *)
Theorem isSupportedPlatform_spec :
  (∀ u : string,
      isSupportedPlatform (Str u) = true ↔ spec_supported (Js.toLowerCase u))
  ∧ isSupportedPlatform Undefined = false
  ∧ isSupportedPlatform Null = false
  ∧ isSupportedPlatform (Str "git+https://github.com/foo/bar.git") = true
  ∧ isSupportedPlatform (Str "") = false
  ∧ isSupportedPlatform (Str "https://example.com/foo") = false.
Proof.
  split; [|by repeat split].
  intros u. rewrite spec_supported_includes.
  unfold isSupportedPlatform, truthy.
  destruct (String.eqb_spec u "") as [->|Hne]; simpl; [|done].
  split; intros H; [done | vm_compute in H; done].
Qed.

(** ** Running programs *)

Section RunLemmas.

Context {B : Type}.
Variable upstream : Upstream B.

Lemma run_bind {A C} (p : Prog B A) (f : A → Prog B C) tr :
  run upstream (bind p f) tr =
  match run upstream p tr with
  | (Ok a, tr') => run upstream (f a) tr'
  | (Err e, tr') => (Err e, tr')
  end.
Proof. revert tr. induction p; intros tr; simpl; auto. Qed.

Lemma run_catch {A} (p : Prog B A) (h : Error → Prog B A) tr :
  run upstream (catch p h) tr =
  match run upstream p tr with
  | (Ok a, tr') => (Ok a, tr')
  | (Err e, tr') => run upstream (h e) tr'
  end.
Proof. revert tr. induction p; intros tr; simpl; auto. Qed.

Lemma answered_by_app tr ev1 ev2 :
  answered_by upstream tr (ev1 ++ ev2) ↔
  answered_by upstream tr ev1 ∧ answered_by upstream (tr ++ ev1) ev2.
Proof.
  revert tr. induction ev1 as [|e ev1 IH]; intros tr; simpl.
  - rewrite app_nil_r. tauto.
  - rewrite IH, <- app_assoc. simpl. tauto.
Qed.

(** A run only extends the trace, and with answers of the upstream. *)
Lemma run_extends {A} (p : Prog B A) tr :
  ∃ ev, (run upstream p tr).2 = tr ++ ev ∧ answered_by upstream tr ev.
Proof.
  revert tr. induction p as [a|e|url k IH|ms k IH|l k IH]; intros tr; simpl.
  - exists []. by rewrite app_nil_r.
  - exists []. by rewrite app_nil_r.
  - destruct (IH (upstream tr url) (tr ++ [EFetch url (upstream tr url)])) as (ev & -> & Hev).
    exists (EFetch url (upstream tr url) :: ev). by rewrite <- app_assoc.
  - destruct (IH (tr ++ [ESleep ms])) as (ev & -> & Hev).
    exists (ESleep ms :: ev). by rewrite <- app_assoc.
  - destruct (IH (tr ++ [ELog l])) as (ev & -> & Hev).
    exists (ELog l :: ev). by rewrite <- app_assoc.
Qed.

End RunLemmas.

(** ** The retrying fetch *)

Section RetryLemmas.

Context {B : Type}.
Variable upstream : Upstream B.

Lemma retry_loop_spec (url : string) (retries : nat) (baseDelay : Z)
    (remaining attempt : nat) (tr : list (Event B)) :
  (attempt + remaining = S retries)%nat → (1 ≤ remaining)%nat →
  ∃ res answers ev,
    run upstream (retry_loop url retries baseDelay remaining attempt) tr
    = (res, tr ++ ev)
    ∧ answered_by upstream tr ev
    ∧ silent ev = backoff_timers baseDelay url attempt answers
    ∧ (1 ≤ length answers ≤ remaining)%nat
    ∧ (∀ k o, (S k < length answers)%nat → answers !! k = Some o → transient o)
    ∧ verdict remaining answers res.
Proof.
  revert attempt tr.
  induction remaining as [|remaining IH]; intros attempt tr Hsum Hpos; [lia|].
  cbn [retry_loop]. replace (attempt <=? retries)%nat with true
    by (symmetry; apply Nat.leb_le; lia).
  simpl. destruct (upstream tr url) as [|r] eqn:Eo; simpl.
  { exists (Err NetworkError), [Rejected], [EFetch url Rejected].
    unfold verdict. repeat split; simpl; auto; try lia; intros; lia. }
  destruct (ok r) eqn:Hok; simpl.
  { exists (Ok r), [Resp r], [EFetch url (Resp r)].
    unfold verdict. repeat split; simpl; rewrite ?Hok; auto; try lia; intros; lia. }
  destruct (status r >=? 500) eqn:Hst; simpl; rewrite Z.geb_leb in Hst; cycle 1.
  { apply Z.leb_gt in Hst.
    exists (Err (HttpError (status r))), [Resp r], [EFetch url (Resp r)].
    unfold verdict. repeat split; simpl; rewrite ?Hok; repeat split;
      auto; try lia; intros; lia. }
  apply Z.leb_le in Hst.
  destruct (attempt <? retries)%nat eqn:Hat; simpl; cycle 1.
  { apply Nat.ltb_ge in Hat.
    exists (Err (HttpError (status r))), [Resp r], [EFetch url (Resp r)].
    unfold verdict. repeat split; simpl; rewrite ?Hok; repeat split;
      auto; try lia; intros; lia. }
  apply Nat.ltb_lt in Hat.
  set (d := baseDelay * 2 ^ (Z.of_nat attempt - 1)).
  set (l := LRetrying (status r) attempt retries d).
  destruct (IH (S attempt)
              (((tr ++ [EFetch url (Resp r)]) ++ [ELog l]) ++ [ESleep (timer d)]))
    as (res & answers & ev & Hrun & Hans & Hsil & Hlen & Htrans & Hver); [lia..|].
  exists res, (Resp r :: answers), (EFetch url (Resp r) :: ELog l :: ESleep (timer d) :: ev).
  split; [by rewrite Hrun, <- !app_assoc|].
  split.
  { simpl. by rewrite Eo. }
  split.
  { unfold silent in *. simpl. rewrite Hsil. destruct answers; [simpl in Hlen; lia|done]. }
  split; [simpl; lia|]. split.
  { intros [|k] o Hk; simpl.
    - intros [= <-]. split; [done | lia].
    - apply Htrans. simpl in Hk. lia. }
  unfold verdict in *. destruct answers as [|a answers]; [simpl in Hlen; lia|].
  change (last (Resp r :: a :: answers)) with (last (a :: answers)).
  destruct (last (a :: answers)) as [[|r']|]; [done| |done].
  destruct (ok r'); [done|]. destruct Hver as [-> Hver].
  split; [done|]. simpl in *. lia.
Qed.

(** Delays within the range of the timers are waited as they are. *)
Lemma backoff_timers_in_range (baseDelay : Z) (url : string) (k : nat)
    (answers : list (FetchOutcome B)) :
  (∀ j, (k ≤ j)%nat → (S j < k + length answers)%nat →
        1 ≤ baseDelay * 2 ^ (Z.of_nat j - 1) ≤ TIMEOUT_MAX) →
  backoff_timers baseDelay url k answers = backoff baseDelay url k answers.
Proof.
  revert k. induction answers as [|o [|o' rest] IH]; intros k Hrange; try done.
  change (backoff_timers baseDelay url k (o :: o' :: rest))
    with (EFetch url o :: ESleep (timer (baseDelay * 2 ^ (Z.of_nat k - 1)))
            :: backoff_timers baseDelay url (S k) (o' :: rest)).
  change (backoff baseDelay url k (o :: o' :: rest))
    with (EFetch url o :: ESleep (baseDelay * 2 ^ (Z.of_nat k - 1))
            :: backoff baseDelay url (S k) (o' :: rest)).
  rewrite IH.
  - do 3 f_equal. unfold timer.
    destruct (Hrange k) as [Hlo Hhi]; [lia|simpl; lia|].
    apply Z.leb_le in Hlo, Hhi. by rewrite Hlo, Hhi.
  - intros j Hj Hlt. apply Hrange; [lia|]. simpl in *. lia.
Qed.

Lemma fetchWithRetry_run (url : string) (tr : list (Event B)) :
  ∃ res answers ev,
    run upstream (fetchWithRetry url) tr = (res, tr ++ ev)
    ∧ answered_by upstream tr ev
    ∧ silent ev = backoff 1000 url 1 answers
    ∧ (1 ≤ length answers ≤ 3)%nat
    ∧ (∀ k o, (S k < length answers)%nat → answers !! k = Some o → transient o)
    ∧ verdict 3 answers res.
Proof.
  destruct (retry_loop_spec url 3 1000 3 1 tr)
    as (res & answers & ev & Hrun & Hans & Hsil & Hlen & Htrans & Hver); [lia..|].
  exists res, answers, ev. rewrite <- backoff_timers_in_range; [done|].
  intros j Hj Hlt. assert (j = 1 ∨ j = 2)%nat as [-> | ->] by lia; by vm_compute.
Qed.

(** C1. For every URL, upstream and history, [fetchWithRetry] (3 attempts,
    base delay 1000 ms) makes between one and three requests to the URL;
    every answer but the last is a non-ok response with status >= 500 and
    is followed by a delay of 1000 * 2^(k-1) ms (1 s after the first, 2 s
    after the second) and the next request; the last answer decides: an ok
    response is returned, a non-ok response raises the error carrying its
    status, and it has status < 500 or is the third answer; nothing is
    requested after it.  A source answering 503, 503, 200 succeeds after
    delays of 1000 and 2000 ms, a source answering 404 raises at once. *)
Theorem fetchWithRetry_policy (url : string) (tr0 : list (Event B)) :
  (∃ res answers ev,
      run upstream (fetchWithRetry url) tr0 = (res, tr0 ++ ev)
      ∧ answered_by upstream tr0 ev
      ∧ silent ev = backoff 1000 url 1 answers
      ∧ (1 ≤ length answers ≤ 3)%nat
      ∧ (∀ k o, (S k < length answers)%nat → answers !! k = Some o → transient o)
      ∧ verdict 3 answers res)
  ∧ (∀ body,
        run (scripted [http 503 None; http 503 None; http 200 body])
          (fetchWithRetry (B:=B) url) []
        = (Ok {| ok := true; status := 200; json := body |},
           [EFetch url (http 503 None); ELog (LRetrying 503 1 3 1000); ESleep 1000;
            EFetch url (http 503 None); ELog (LRetrying 503 2 3 2000); ESleep 2000;
            EFetch url (http 200 body)]))
  ∧ run (scripted [http 404 None]) (fetchWithRetry (B:=B) url) []
    = (Err (HttpError 404), [EFetch url (http 404 None)]).
Proof.
  split; [|split; [intros body|]; reflexivity]. apply fetchWithRetry_run.
Qed.

End RetryLemmas.

(** A first answer that is ok ends the retried fetch. *)
Lemma retry_loop_first_ok {B} (upstream : Upstream B) (url : string)
    (retries : nat) (baseDelay : Z) (fuel attempt : nat) (tr : list (Event B)) r :
  (attempt ≤ retries)%nat → upstream tr url = Resp r → ok r = true →
  run upstream (retry_loop url retries baseDelay (S fuel) attempt) tr
  = (Ok r, tr ++ [EFetch url (Resp r)]).
Proof.
  intros Hle Hr Hok. cbn [retry_loop].
  replace (attempt <=? retries)%nat with true by (symmetry; apply Nat.leb_le; lia).
  rewrite run_bind. cbn [fetch run]. rewrite Hr. cbn [run]. by rewrite Hok.
Qed.

(** ** The ranked package lister *)

Section TraceLemmas.

Context {B : Type}.

Lemma fetches_app (tr1 tr2 : list (Event B)) :
  fetches (tr1 ++ tr2) = fetches tr1 ++ fetches tr2.
Proof. unfold fetches. apply omap_app. Qed.

Lemma fetches_silent (tr : list (Event B)) : fetches (silent tr) = fetches tr.
Proof.
  induction tr as [|[]]; simpl; auto. unfold fetches in *. simpl. by f_equal.
Qed.

Lemma fetches_backoff (d : Z) (url : string) (k : nat) (answers : list (FetchOutcome B)) :
  fetches (backoff d url k answers) = (λ o, (url, o)) <$> answers.
Proof.
  revert k. induction answers as [|o [|o' rest] IH]; intros k; try done.
  change (fetches (backoff d url k (o :: o' :: rest)))
    with ((url, o) :: fetches (backoff d url (S k) (o' :: rest))).
  by rewrite IH.
Qed.

Lemma fetches_backoff_timers (d : Z) (url : string) (k : nat)
    (answers : list (FetchOutcome B)) :
  fetches (backoff_timers d url k answers) = (λ o, (url, o)) <$> answers.
Proof.
  revert k. induction answers as [|o [|o' rest] IH]; intros k; try done.
  change (fetches (backoff_timers d url k (o :: o' :: rest)))
    with ((url, o) :: fetches (backoff_timers d url (S k) (o' :: rest))).
  by rewrite IH.
Qed.

End TraceLemmas.

Section ListerLemmas.

Context {M P : Type}.
Variable select : EcosystemsPackage.t → P.
Variable upstream : Upstream (Json M).

Lemma verdict_ok (budget : nat) (answers : list (FetchOutcome (Json M))) r :
  verdict budget answers (Ok r) → last answers = Some (Resp r) ∧ ok r = true.
Proof.
  unfold verdict. destruct (last answers) as [[|r']|]; try done.
  destruct (ok r') eqn:Hok; [by intros [= ->] | by intros [? _]].
Qed.

Lemma page_fetches_cons (page : nat) answers (rounds : list (list (FetchOutcome (Json M)))) :
  page_fetches page (answers :: rounds)
  = ((λ o, (page_url page, o)) <$> answers) ++ page_fetches (S page) rounds.
Proof.
  unfold page_fetches. simpl. rewrite Nat.add_0_r. do 2 f_equal.
  apply imap_ext. intros i x _. simpl. by rewrite Nat.add_succ_r.
Qed.

Lemma page_loop_spec (totalPages remaining page : nat) (acc : list P)
    (tr : list (Event (Json M))) :
  (page + remaining = S totalPages)%nat →
  ∃ res ev rounds,
    run upstream (page_loop select totalPages remaining page acc) tr = (res, tr ++ ev)
    ∧ answered_by upstream tr ev
    ∧ (length rounds ≤ remaining)%nat
    ∧ fetches ev = page_fetches page rounds
    ∧ Forall (λ answers, 1 ≤ length answers ≤ 3)%nat rounds
    ∧ (∀ i answers, (S i < length rounds)%nat → rounds !! i = Some answers →
         ∃ items, round_items answers = Some items ∧ (100 ≤ length items)%nat)
    ∧ (∀ all, res = Ok all →
         ∃ pages, Forall2 (λ answers items, round_items answers = Some items) rounds pages
                  ∧ all = acc ++ map select (concat pages)
                  ∧ (length rounds = remaining
                     ∨ ∃ items, last pages = Some items ∧ (length items < 100)%nat))
    ∧ (∀ e, res = Err e →
         ∃ answers o, last rounds = Some answers ∧ last answers = Some o
                      ∧ page_failure o = Some e).
Proof.
  revert page acc tr. induction remaining as [|remaining IH]; intros page acc tr Hsum.
  { exists (Ok acc), [], []. cbn [page_loop].
    replace (page <=? totalPages)%nat with false by (symmetry; apply Nat.leb_gt; lia).
    simpl. rewrite !app_nil_r.
    split; [done|]. split; [done|]. split; [lia|]. split; [done|].
    split; [constructor|]. split; [intros i a Hi; simpl in Hi; lia|].
    split; [|intros e [=]].
    intros all [= <-]. exists []. simpl. rewrite app_nil_r. repeat split; auto. }
  cbn [page_loop]. replace (page <=? totalPages)%nat with true
    by (symmetry; apply Nat.leb_le; lia).
  cbn [run]. rewrite run_bind.
  set (tr1 := tr ++ [ELog (LFetchingPage page totalPages)]).
  destruct (fetchWithRetry_run upstream (page_url page) tr1)
    as (res1 & answers & ev1 & Hrun1 & Hans1 & Hsil1 & Hlen1 & _ & Hver1).
  rewrite Hrun1.
  assert (Hf1 : fetches ev1 = (λ o, (page_url page, o)) <$> answers).
  { by rewrite <- fetches_silent, Hsil1, fetches_backoff. }
  assert (Hone : ∀ (e : Error) (ev2 : list (Event (Json M))),
             (∃ o, last answers = Some o ∧ page_failure o = Some e) →
             fetches ev2 = [] →
             answered_by upstream (tr1 ++ ev1) ev2 →
             ∃ res' ev rounds,
               (Err e, (tr1 ++ ev1) ++ ev2) = (res', tr ++ ev)
               ∧ answered_by upstream tr ev
               ∧ (length rounds ≤ S remaining)%nat
               ∧ fetches ev = page_fetches page rounds
               ∧ Forall (λ answers, 1 ≤ length answers ≤ 3)%nat rounds
               ∧ (∀ i answers, (S i < length rounds)%nat → rounds !! i = Some answers →
                    ∃ items, round_items answers = Some items ∧ (100 ≤ length items)%nat)
               ∧ (∀ all, res' = Ok all →
                    ∃ pages, Forall2 (λ answers items, round_items answers = Some items)
                               rounds pages
                             ∧ all = acc ++ map select (concat pages)
                             ∧ (length rounds = S remaining
                                ∨ ∃ items, last pages = Some items
                                           ∧ (length items < 100)%nat))
               ∧ (∀ e', res' = Err e' →
                    ∃ answers' o, last rounds = Some answers' ∧ last answers' = Some o
                                  ∧ page_failure o = Some e')).
  { intros e ev2 (o & Hlast & Hfail) Hf2 Hans2.
    exists (Err e), (ELog (LFetchingPage page totalPages) :: ev1 ++ ev2), [answers].
    split; [subst tr1; by rewrite <- !app_assoc|].
    split; [simpl; split; [done|]; by apply answered_by_app|].
    split; [simpl; lia|].
    split.
    { rewrite page_fetches_cons. unfold page_fetches. simpl. rewrite app_nil_r.
      change (fetches (ELog (LFetchingPage page totalPages) :: ev1 ++ ev2))
        with (fetches (ev1 ++ ev2)).
      by rewrite fetches_app, Hf1, Hf2, app_nil_r. }
    split; [by constructor|].
    split; [intros i a Hi; simpl in Hi; lia|].
    split; [intros all [=]|].
    intros e' [= <-]. by exists answers, o. }
  destruct res1 as [response|e].
  2:{ rewrite <- (app_nil_r (tr1 ++ ev1)). apply Hone; try done.
      unfold verdict in Hver1. destruct (last answers) as [[|r]|]; [| |done].
      - injection Hver1 as ->. by exists Rejected.
      - destruct (ok r) eqn:Hok; [done|]. destruct Hver1 as [[= ->] _].
        exists (Resp r). split; [done|]. simpl. by rewrite Hok. }
  apply verdict_ok in Hver1 as [Hlast Hok].
  rewrite run_bind. unfold response_json.
  destruct (json response) as [data|] eqn:Hjson; simpl.
  2:{ rewrite <- (app_nil_r (tr1 ++ ev1)). apply Hone; try done.
      exists (Resp response). split; [done|]. simpl. by rewrite Hok, Hjson. }
  destruct data as [items|m]; simpl.
  2:{ apply Hone; try done.
      exists (Resp response). split; [done|]. simpl. by rewrite Hok, Hjson. }
  assert (Hitems : round_items answers = Some items).
  { unfold round_items. by rewrite Hlast, Hok, Hjson. }
  set (acc' := acc ++ map select items).
  set (l1 := ELog (LRetrieved (Some (length items)) page)).
  set (l2 := ELog (LTotalSoFar (length acc'))).
  destruct (length items <? perPage)%nat eqn:Hshort; simpl.
  { apply Nat.ltb_lt in Hshort.
    exists (Ok acc'), (ELog (LFetchingPage page totalPages)
                        :: ev1 ++ [l1; l2; ELog (LReachedEnd page)]), [answers].
    split; [subst tr1; by rewrite <- !app_assoc|].
    split; [simpl; split; [done|]; apply answered_by_app; by simpl|].
    split; [simpl; lia|].
    split.
    { rewrite page_fetches_cons. unfold page_fetches. simpl. rewrite app_nil_r.
      change (fetches (ELog (LFetchingPage page totalPages)
                         :: ev1 ++ [l1; l2; ELog (LReachedEnd page)]))
        with (fetches (ev1 ++ [l1; l2; ELog (LReachedEnd page)])).
      by rewrite fetches_app, Hf1, app_nil_r. }
    split; [by constructor|].
    split; [intros i a Hi; simpl in Hi; lia|].
    split; [|intros e [=]].
    intros all [= <-]. exists [items]. simpl. rewrite app_nil_r.
    repeat split; [by repeat constructor|]. right. by exists items. }
  apply Nat.ltb_ge in Hshort.
  set (between := if (page <? totalPages)%nat
                  then [l1; l2; ELog LWaiting; ESleep 500] else [l1; l2]).
  destruct (IH (S page) acc' ((tr1 ++ ev1) ++ between))
    as (res & ev & rounds & Hrun & Hans & Hlen & Hf & Hall & Hfull & Hres & Herr); [lia|].
  exists res, (ELog (LFetchingPage page totalPages) :: ev1 ++ between ++ ev),
    (answers :: rounds).
  split.
  { subst between tr1. destruct (page <? totalPages)%nat; simpl;
      rewrite <- !app_assoc in *; simpl in *; exact Hrun. }
  split.
  { simpl. split; [done|]. apply answered_by_app. split; [done|].
    apply answered_by_app. split; [|done].
    subst between. by destruct (page <? totalPages)%nat. }
  split; [simpl; lia|].
  split.
  { rewrite page_fetches_cons, <- Hf, <- Hf1.
    change (fetches (ELog (LFetchingPage page totalPages) :: ev1 ++ between ++ ev))
      with (fetches (ev1 ++ between ++ ev)).
    rewrite !fetches_app. f_equal.
    subst between. by destruct (page <? totalPages)%nat. }
  split; [by constructor|].
  split.
  { intros [|i] a Hi; simpl.
    - intros [= <-]. exists items. split; [done | unfold perPage in Hshort; lia].
    - apply Hfull. simpl in Hi. lia. }
  split.
  { intros all Hok'. destruct (Hres all Hok') as (pages & Hpages & -> & Hend).
    exists (items :: pages). split; [by constructor|]. split.
    { subst acc'. simpl. by rewrite map_app, <- app_assoc. }
    destruct Hend as [<-|(last_items & Hl & Hlt)]; [by left|].
    right. exists last_items. split; [|done].
    destruct pages; [done|]. exact Hl. }
  intros e He. destruct (Herr e He) as (answers' & o & Hl & Hlast' & Hfail).
  exists answers', o. split; [|done]. destruct rounds; [done|]. exact Hl.
Qed.

Lemma fetchTopNpmPackages_length (limit : nat) (tr : list (Event (Json M))) :
  match run upstream (fetchTopNpmPackages select limit) tr with
  | (Ok result, _) => (length result ≤ limit)%nat
  | (Err _, _) => True
  end.
Proof.
  unfold fetchTopNpmPackages. rewrite run_catch. cbn [run]. rewrite run_bind.
  destruct (run upstream (page_loop select _ _ 1 []) _) as [[all|e] tr']; cbn [run].
  - unfold Js.slice. rewrite length_take. lia.
  - done.
Qed.

(** C3. For every target count [limit] (in particular every N >= 1), every
    upstream and history, [fetchTopNpmPackages] issues at most
    ceil(limit/100) page requests, for the pages 1, 2, ... in this order
    (each a retried fetch of one to three attempts); a page request that
    is not the last one issued received at least 100 items, so nothing is
    requested after a page of fewer than 100 items; a successful run
    returns the first [limit] of the received items, in the order
    received, and it requested all ceil(limit/100) pages unless the last
    page was short.  The run fails only with the error of its last page
    request (a rejected fetch, a non-ok status, a body that does not parse
    or is not an array): when every page request issued ended with an
    array, the list is returned.  With 100 items on each of the pages 1-4
    and 42 on page 5, a request for 500 returns 442 items and fetches
    exactly the pages 1 to 5. *)
Theorem fetchTopNpmPackages_pagination (limit : nat) (tr0 : list (Event (Json M))) :
  (∃ res ev rounds,
      run upstream (fetchTopNpmPackages select limit) tr0 = (res, tr0 ++ ev)
      ∧ answered_by upstream tr0 ev
      ∧ (length rounds ≤ ceil_div limit 100)%nat
      ∧ fetches ev = page_fetches 1 rounds
      ∧ Forall (λ answers, 1 ≤ length answers ≤ 3)%nat rounds
      ∧ (∀ i answers, (S i < length rounds)%nat → rounds !! i = Some answers →
           ∃ items, round_items answers = Some items ∧ (100 ≤ length items)%nat)
      ∧ (∀ result, res = Ok result →
           ∃ pages, Forall2 (λ answers items, round_items answers = Some items) rounds pages
                    ∧ result = take limit (map select (concat pages))
                    ∧ (length result ≤ limit)%nat
                    ∧ (length rounds = ceil_div limit 100
                       ∨ ∃ items, last pages = Some items ∧ (length items < 100)%nat))
      ∧ (∀ e, res = Err e →
           ∃ answers o, last rounds = Some answers ∧ last answers = Some o
                        ∧ page_failure o = Some e)
      ∧ (Forall (λ answers, is_Some (round_items answers)) rounds →
         ∃ result, res = Ok result))
  ∧ (∃ result tr,
        run (ranking_source 4 42) (fetchTopNpmPackages (M:=M) select 500) [] = (Ok result, tr)
        ∧ length result = 442%nat
        ∧ (fetches tr).*1 = page_url <$> [1; 2; 3; 4; 5]%nat).
Proof.
  split; [|eexists _, _; split; [vm_compute; reflexivity|split; vm_compute; reflexivity]].
  unfold fetchTopNpmPackages. rewrite run_catch. cbn [run]. rewrite run_bind.
  set (tr1 := tr0 ++ [ELog (LFetchingTop limit (ceil_div limit perPage))]).
  destruct (page_loop_spec (ceil_div limit perPage)
              (ceil_div limit perPage) 1 [] tr1)
    as (res & ev & rounds & Hrun & Hans & Hlen & Hf & Hall & Hfull & Hres & Herr); [lia|].
  rewrite Hrun. destruct res as [all|e]; cbn [run].
  - exists (Ok (Js.slice 0 limit all)),
      (ELog (LFetchingTop limit (ceil_div limit perPage)) :: ev), rounds.
    split; [subst tr1; by rewrite <- app_assoc|].
    split; [by split|]. split; [done|]. split; [done|]. split; [done|].
    split; [done|].
    split; [|split; [intros e [=] | intros _; by eexists]].
    intros result [= <-]. destruct (Hres all eq_refl) as (pages & Hpages & -> & Hend).
    exists pages. unfold Js.slice. rewrite Nat.sub_0_r. simpl.
    repeat split; auto. rewrite length_take. lia.
  - exists (Err e),
      (ELog (LFetchingTop limit (ceil_div limit perPage)) :: ev ++ [ELog (LErrorFetching e)]),
      rounds.
    split; [subst tr1; by rewrite <- !app_assoc|].
    split; [split; [done|]; apply answered_by_app; by split|].
    split; [done|].
    split.
    { rewrite <- Hf.
      change (fetches (ELog (LFetchingTop limit (ceil_div limit perPage))
                         :: ev ++ [ELog (LErrorFetching e)]))
        with (fetches (ev ++ [ELog (LErrorFetching e)])).
      rewrite fetches_app. apply app_nil_r. }
    split; [done|]. split; [done|]. split; [intros result [=]|].
    destruct (Herr e eq_refl) as (answers & o & Hl & Hlast & Hfail).
    split; [intros e' [= <-]; by exists answers, o|].
    intros Hok. exfalso.
    apply last_Some_elem_of in Hl. rewrite Forall_forall in Hok.
    destruct (Hok answers Hl) as [items Hitems].
    unfold round_items in Hitems. rewrite Hlast in Hitems.
    destruct o as [|r]; [done|]. simpl in Hfail.
    destruct (ok r); [|done]. by destruct (json r) as [[]|].
Qed.

End ListerLemmas.

(** ** What a task can do, whatever the interleaving *)

Section AlwaysLemmas.

Context {B : Type}.
Variable upstream : Upstream B.

Lemma always_under_of_always {A} (Q : A → Prop) (p : Prog B A) :
  always Q p → always_under upstream Q p.
Proof. induction p; simpl; auto. Qed.

Lemma always_under_mono {A} (Q Q' : A → Prop) (p : Prog B A) :
  (∀ a, Q a → Q' a) → always_under upstream Q p → always_under upstream Q' p.
Proof. intros HQ. induction p; simpl; auto. Qed.

Lemma always_mono {A} (Q Q' : A → Prop) (p : Prog B A) :
  (∀ a, Q a → Q' a) → always Q p → always Q' p.
Proof. intros HQ. induction p; simpl; auto. Qed.

Lemma run_always_under {A} (Q : A → Prop) (p : Prog B A) tr :
  always_under upstream Q p →
  ∃ a ev, run upstream p tr = (Ok a, tr ++ ev) ∧ answered_by upstream tr ev ∧ Q a.
Proof.
  revert tr. induction p as [a|e|url k IH|ms k IH|l k IH]; intros tr Hp; simpl in *.
  - exists a, []. by rewrite app_nil_r.
  - done.
  - destruct (IH _ (tr ++ [EFetch url (upstream tr url)]) (Hp tr)) as (a & ev & -> & Hev & Ha).
    exists a, (EFetch url (upstream tr url) :: ev). by rewrite <- app_assoc.
  - destruct (IH (tr ++ [ESleep ms]) Hp) as (a & ev & -> & Hev & Ha).
    exists a, (ESleep ms :: ev). by rewrite <- app_assoc.
  - destruct (IH (tr ++ [ELog l]) Hp) as (a & ev & -> & Hev & Ha).
    exists a, (ELog l :: ev). by rewrite <- app_assoc.
Qed.

(** Under a stateless upstream the result of a run does not depend on the
    history it starts from. *)
Lemma run_stateless {A} (p : Prog B A) tr :
  stateless upstream → (run upstream p tr).1 = eval upstream p.
Proof.
  intros Hs. unfold eval. generalize (@nil (Event B)). revert tr.
  induction p as [a|e|url k IH|ms k IH|l k IH]; intros tr tr'; simpl; auto.
  rewrite (Hs tr tr' url). apply IH.
Qed.

Lemma always_under_eval {A} (Q : A → Prop) (p : Prog B A) :
  stateless upstream → always_under upstream Q p →
  always_under upstream (λ a, eval upstream p = Ok a) p.
Proof.
  intros Hs. induction p as [a|e|url k IH|ms k IH|l k IH]; simpl; auto.
  - intros Hp tr. specialize (IH _ (Hp tr)).
    eapply always_under_mono; [|exact IH]. intros a <-.
    unfold eval at 1. simpl. rewrite (Hs [] tr url). apply run_stateless, Hs.
  - intros Hp. eapply always_under_mono; [|exact (IH Hp)]. intros a <-.
    unfold eval at 1. simpl. apply run_stateless, Hs.
  - intros Hp. eapply always_under_mono; [|exact (IH Hp)]. intros a <-.
    unfold eval at 1. simpl. apply run_stateless, Hs.
Qed.

End AlwaysLemmas.

(** ** [Promise.all] over tasks that never throw *)

Section PoolLemmas.

Context {B A : Type}.
Variable upstream : Upstream B.

Lemma rejection_always (Qs : list (A → Prop)) (pool : list (Prog B A)) :
  Forall2 (always_under upstream) Qs pool → rejection pool = None.
Proof.
  induction 1 as [|Q p Qs pool Hp _ IH]; [done|]. by destruct p.
Qed.

Lemma step_always (Q : A → Prop) (p : Prog B A) tr :
  always_under upstream Q p → always_under upstream Q (step upstream p tr).1.
Proof. destruct p; simpl; auto. Qed.

Lemma step_extends (p : Prog B A) tr :
  ∃ ev, (step upstream p tr).2 = tr ++ ev ∧ answered_by upstream tr ev.
Proof.
  destruct p; simpl; try (by exists []; rewrite app_nil_r); by eexists [_].
Qed.

Lemma advance_always (Qs : list (A → Prop)) (i : nat) (pool : list (Prog B A)) tr :
  Forall2 (always_under upstream) Qs pool →
  Forall2 (always_under upstream) Qs (advance upstream i pool tr).1
  ∧ ∃ ev, (advance upstream i pool tr).2 = tr ++ ev ∧ answered_by upstream tr ev.
Proof.
  intros Hpool. unfold advance. destruct (pool !! i) as [p|] eqn:Hi.
  - destruct (Forall2_lookup_r _ _ _ _ _ Hpool Hi) as (Q & HQ & Hp).
    pose proof (step_always Q p tr Hp) as Hp'.
    pose proof (step_extends p tr) as Hev.
    destruct (step upstream p tr) as [p' tr']. simpl in *. split; [|done].
    rewrite <- (list_insert_id Qs i Q HQ). by apply Forall2_insert.
  - split; [done|]. exists []. by rewrite app_nil_r.
Qed.

Lemma pending_indices_nil (pool : list (Prog B A)) :
  pending_indices pool = [] → Forall (λ p, pending p = false) pool.
Proof.
  intros Hnil. apply Forall_lookup. intros i p Hi.
  destruct (pending p) eqn:Hp; [|done]. exfalso.
  eapply (filter_nil_not_elem_of _ _ i Hnil).
  - rewrite Hi. simpl. by rewrite Hp.
  - apply elem_of_seq. apply lookup_lt_Some in Hi. lia.
Qed.

Lemma fulfilled_always (Qs : list (A → Prop)) (pool : list (Prog B A)) :
  Forall2 (always_under upstream) Qs pool →
  Forall (λ p, pending p = false) pool →
  Forall2 (λ Q a, Q a) Qs (fulfilled pool).
Proof.
  induction 1 as [|Q p Qs pool Hp _ IH]; intros Hs; [constructor|].
  apply Forall_cons in Hs as [Hp' Hs]. destruct p; try done.
  simpl. constructor; auto.
Qed.

Lemma finish_in_order_always (Qs : list (A → Prop)) (pool : list (Prog B A)) tr :
  Forall2 (always_under upstream) Qs pool →
  ∃ results ev,
    finish_in_order upstream pool tr = (Ok results, tr ++ ev)
    ∧ answered_by upstream tr ev
    ∧ Forall2 (λ Q a, Q a) Qs results.
Proof.
  intros Hpool. revert tr. induction Hpool as [|Q p Qs pool Hp _ IH]; intros tr; simpl.
  - exists [], []. by rewrite app_nil_r.
  - destruct (run_always_under upstream Q p tr Hp) as (a & ev & -> & Hev & Ha).
    destruct (IH (tr ++ ev)) as (results & ev' & -> & Hev' & Hres).
    exists (a :: results), (ev ++ ev'). rewrite <- app_assoc.
    split; [done|]. split; [by apply answered_by_app|]. by constructor.
Qed.

(** Whatever the scheduler chooses, a pool of tasks that never throw
    settles, and the value of each task satisfies what the task
    guarantees. *)
Lemma promise_all_always (Qs : list (A → Prop)) (sched : list nat)
    (pool : list (Prog B A)) tr :
  Forall2 (always_under upstream) Qs pool →
  ∃ results ev sched',
    promise_all upstream sched pool tr = (Ok results, tr ++ ev, sched')
    ∧ answered_by upstream tr ev
    ∧ Forall2 (λ Q a, Q a) Qs results.
Proof.
  revert pool tr. induction sched as [|c sched IH]; intros pool tr Hpool;
    cbn [promise_all]; rewrite (rejection_always Qs pool Hpool);
    destruct (pending_indices pool) as [|i0 pend] eqn:Hpend.
  - exists (fulfilled pool), [], []. rewrite app_nil_r. split; [done|]. split; [done|].
    apply fulfilled_always; [done|]. by apply pending_indices_nil.
  - destruct (finish_in_order_always Qs pool tr Hpool) as (results & ev & -> & Hev & Hres).
    by exists results, ev, [].
  - exists (fulfilled pool), [], (c :: sched). rewrite app_nil_r. split; [done|].
    split; [done|]. apply fulfilled_always; [done|]. by apply pending_indices_nil.
  - generalize (nth (c mod S (length pend)) (i0 :: pend) i0). intros i.
    destruct (advance_always Qs i pool tr Hpool) as (Hpool' & ev1 & Htr & Hev1).
    destruct (advance upstream i pool tr) as [pool' tr']. cbn [fst snd] in *. subst tr'.
    destruct (IH pool' (tr ++ ev1) Hpool') as (results & ev & sched' & -> & Hev & Hres).
    exists results, (ev1 ++ ev), sched'. rewrite <- app_assoc.
    split; [done|]. split; [by apply answered_by_app|done].
Qed.

End PoolLemmas.

(** ** The batch loop *)

Section ChunkLemmas.

Context {A : Type}.

Lemma chunks_fuel_nil (fuel n : nat) : chunks_fuel fuel n (@nil A) = [].
Proof. by destruct fuel. Qed.

Lemma chunks_fuel_enough (fuel n : nat) (l : list A) :
  (1 ≤ n)%nat → (length l ≤ fuel)%nat → chunks_fuel fuel n l = chunks n l.
Proof.
  unfold chunks. intros Hn. remember (length l) as len eqn:Hlen.
  revert fuel l Hlen. induction len as [len IH] using lt_wf_ind. intros fuel l -> Hfuel.
  destruct l as [|x l]; [apply chunks_fuel_nil|].
  destruct fuel as [|fuel]; [simpl in Hfuel; lia|].
  cbn [chunks_fuel length]. f_equal.
  assert (Hd : (length (drop n (x :: l)) ≤ length l)%nat).
  { rewrite length_drop. simpl. lia. }
  rewrite (IH (length (drop n (x :: l)))); [|simpl; lia|done|simpl in Hfuel; lia].
  symmetry. apply (IH (length (drop n (x :: l)))); [simpl; lia|done|done].
Qed.

Lemma chunks_cons (n : nat) (x : A) (l : list A) :
  (1 ≤ n)%nat → chunks n (x :: l) = take n (x :: l) :: chunks n (drop n (x :: l)).
Proof.
  intros Hn. unfold chunks at 1. cbn [length chunks_fuel]. f_equal.
  apply chunks_fuel_enough; [done|]. rewrite length_drop. simpl. lia.
Qed.

(** The batches are consecutive and cover the list in order; each has
    between 1 and [n] elements, and each but the last exactly [n]. *)
Lemma chunks_partition (n : nat) (l : list A) :
  (1 ≤ n)%nat →
  concat (chunks n l) = l
  ∧ Forall (λ b, 1 ≤ length b ≤ n)%nat (chunks n l)
  ∧ (∀ i b, (S i < length (chunks n l))%nat → chunks n l !! i = Some b → length b = n).
Proof.
  intros Hn. remember (length l) as len eqn:Hlen. revert l Hlen.
  induction len as [len IH] using lt_wf_ind. intros l ->.
  destruct l as [|x l]; [by repeat split; [constructor | intros i b Hi; simpl in Hi; lia]|].
  rewrite chunks_cons by done.
  destruct (IH (length (drop n (x :: l)))) with (l := drop n (x :: l))
    as (Hc & Hall & Hfull); [rewrite length_drop; simpl; lia|done|].
  split; [simpl; rewrite Hc; apply take_drop|].
  split.
  { constructor; [|done]. rewrite length_take. simpl. lia. }
  intros [|i] b Hi; simpl.
  - intros [= <-]. rewrite length_take.
    destruct (chunks n (drop n (x :: l))) as [|b' bs] eqn:Hrest; [simpl in Hi; lia|].
    destruct (drop n (x :: l)) as [|y rest] eqn:Hdrop; [done|].
    assert (length (drop n (x :: l)) ≠ 0)%nat by (rewrite Hdrop; simpl; lia).
    rewrite length_drop in *. lia.
  - apply Hfull. simpl in Hi. lia.
Qed.

End ChunkLemmas.

Section BatchLemmas.

Context {M P : Type}.
Variable checker : P → Prog (Json M) (option AttestationResult.t).
Variable upstream : Upstream (Json M).

Lemma chunks_nil_iff {A} (n : nat) (l : list A) :
  (1 ≤ n)%nat → chunks n l = [] ↔ l = [].
Proof.
  intros Hn. destruct l as [|x l]; [done|]. by rewrite chunks_cons.
Qed.

(** The index loop of [main] is the specification's scheduler run on the
    partition of the packages that are left. *)
Lemma batch_loop_refines (topPackages : list P) (fuel i : nat)
    (acc : list AttestationResult.t) (tr : list (Event (Json M))) (sched : list nat) :
  (length topPackages - i ≤ fuel)%nat →
  batch_loop checker upstream topPackages fuel i acc tr sched
  = run_batches checker upstream (chunks batchSize (drop i topPackages)) acc tr sched.
Proof.
  revert i acc tr sched. induction fuel as [|fuel IH]; intros i acc tr sched Hfuel.
  - cbn [batch_loop]. destruct (i <? length topPackages)%nat eqn:Hi.
    { apply Nat.ltb_lt in Hi. lia. }
    rewrite drop_ge by lia. done.
  - cbn [batch_loop]. destruct (i <? length topPackages)%nat eqn:Hi; cycle 1.
    { apply Nat.ltb_ge in Hi. rewrite drop_ge by lia. done. }
    apply Nat.ltb_lt in Hi.
    destruct (drop i topPackages) as [|x rest] eqn:Hdrop.
    { apply (f_equal length) in Hdrop. rewrite length_drop in Hdrop. simpl in Hdrop. lia. }
    rewrite chunks_cons by (unfold batchSize; lia). cbn [run_batches].
    unfold Js.slice. replace (i + batchSize - i)%nat with batchSize by lia.
    rewrite Hdrop.
    destruct (promise_all upstream sched (map checker (take batchSize (x :: rest))) tr)
      as [[[batchResults|e] tr'] sched']; [|done].
    rewrite IH by (unfold batchSize; lia).
    rewrite <- Hdrop, drop_drop. f_equal.
    destruct (i + batchSize <? length topPackages)%nat eqn:Hnext.
    + apply Nat.ltb_lt in Hnext.
      destruct (chunks batchSize (drop (i + batchSize) topPackages)) eqn:Hc; [|done].
      apply chunks_nil_iff in Hc; [|unfold batchSize; lia].
      apply (f_equal length) in Hc. rewrite length_drop in Hc. simpl in Hc. lia.
    + apply Nat.ltb_ge in Hnext. rewrite drop_ge by lia. done.
Qed.

(** With a checker that never throws, every batch settles and the loop
    returns, in the order of the packages, the records of the lookups that
    produced one. *)
Lemma run_batches_always (Q : P → option AttestationResult.t → Prop)
    (batches : list (list P)) (acc : list AttestationResult.t)
    (tr : list (Event (Json M))) (sched : list nat) :
  (∀ pkg, always_under upstream (Q pkg) (checker pkg)) →
  ∃ outcomes ev sched',
    run_batches checker upstream batches acc tr sched
    = (Ok (acc ++ non_null outcomes), tr ++ ev, sched')
    ∧ answered_by upstream tr ev
    ∧ Forall2 Q (concat batches) outcomes.
Proof.
  intros Hchk. revert acc tr sched.
  induction batches as [|batch rest IH]; intros acc tr sched; cbn [run_batches].
  - exists [], [], sched. unfold non_null. simpl. rewrite !app_nil_r. by repeat split.
  - destruct (promise_all_always upstream (Q <$> batch) sched (map checker batch) tr)
      as (results & ev1 & sched1 & -> & Hev1 & Hres).
    { apply Forall2_fmap, Forall_Forall2_diag, Forall_forall. intros pkg _. apply Hchk. }
    apply Forall2_fmap_l in Hres.
    set (pause := match rest with [] => [] | _ :: _ => [ESleep 1000] end
                  : list (Event (Json M))).
    destruct (IH (acc ++ non_null results) ((tr ++ ev1) ++ pause) sched1)
      as (outcomes & ev2 & sched2 & Hrun & Hev2 & Hout).
    exists (results ++ outcomes), (ev1 ++ pause ++ ev2), sched2.
    split.
    { replace (match rest with [] => tr ++ ev1 | _ :: _ => (tr ++ ev1) ++ [ESleep 1000] end)
        with ((tr ++ ev1) ++ pause) by (subst pause; destruct rest; by rewrite ?app_nil_r).
      rewrite Hrun. unfold non_null. rewrite omap_app, <- !app_assoc. done. }
    split.
    { apply answered_by_app. split; [done|]. apply answered_by_app. split; [|done].
      subst pause. by destruct rest. }
    simpl. by apply Forall2_app.
Qed.

Lemma check_all_always (Q : P → option AttestationResult.t → Prop)
    (topPackages : list P) (tr : list (Event (Json M))) (sched : list nat) :
  (∀ pkg, always_under upstream (Q pkg) (checker pkg)) →
  ∃ outcomes ev sched',
    check_all checker upstream topPackages tr sched
    = (Ok (non_null outcomes), tr ++ ev, sched')
    ∧ answered_by upstream tr ev
    ∧ Forall2 Q topPackages outcomes.
Proof.
  intros Hchk. unfold check_all. rewrite batch_loop_refines by lia.
  destruct (run_batches_always Q (chunks batchSize (drop 0 topPackages)) [] tr sched Hchk)
    as (outcomes & ev & sched' & Hrun & Hev & Hout).
  exists outcomes, ev, sched'. split; [done|]. split; [done|].
  rewrite drop_0 in Hout.
  by rewrite (proj1 (chunks_partition batchSize topPackages ltac:(unfold batchSize; lia))) in Hout.
Qed.

End BatchLemmas.

(** ** Programs and the answers they have seen *)

Section Seen.

Context {B : Type}.

Lemma always_seen_mono {A} (Q Q' : list (string * FetchOutcome B) → A → Prop) seen
    (p : Prog B A) :
  (∀ seen' a, Q seen' a → Q' seen' a) → always_seen Q seen p → always_seen Q' seen p.
Proof. intros HQ. revert seen. induction p; simpl; auto. Qed.

Lemma returns_seen_bind {A C} (R : list (string * FetchOutcome B) → A → Prop)
    (Q : list (string * FetchOutcome B) → C → Prop) seen (p : Prog B A) (f : A → Prog B C) :
  returns_seen R seen p → (∀ seen' a, R seen' a → returns_seen Q seen' (f a)) →
  returns_seen Q seen (bind p f).
Proof. intros Hp Hf. revert seen Hp. induction p; simpl in *; auto. Qed.

Lemma always_seen_catch {A} (Q : list (string * FetchOutcome B) → A → Prop) seen
    (p : Prog B A) (h : Error → Prog B A) :
  returns_seen Q seen p → (∀ seen' e, always_seen Q seen' (h e)) →
  always_seen Q seen (catch p h).
Proof. intros Hp Hh. revert seen Hp. induction p; simpl in *; auto. Qed.

Lemma always_of_seen {A} (Q : list (string * FetchOutcome B) → A → Prop) seen
    (p : Prog B A) :
  always_seen Q seen p → always (λ a, ∃ seen', Q seen' a) p.
Proof. revert seen. induction p; simpl; eauto. Qed.

(** A response returned by the retrying fetch is ok, and it is the last
    answer seen. *)
Lemma retry_loop_seen (url : string) (retries : nat) (baseDelay : Z)
    (remaining attempt : nat) seen :
  returns_seen (λ seen' r, last seen' = Some (url, Resp r) ∧ ok r = true) seen
    (retry_loop (B:=B) url retries baseDelay remaining attempt).
Proof.
  revert attempt seen. induction remaining as [|remaining IH]; intros attempt seen;
    cbn [retry_loop]; destruct (attempt <=? retries)%nat; try done.
  simpl. intros [|r]; simpl; [done|].
  destruct (ok r) eqn:Hok; simpl.
  { split; [|done]. by rewrite last_snoc. }
  destruct ((status r >=? 500) && (attempt <? retries)%nat); simpl; [|done].
  apply IH.
Qed.

Lemma response_json_seen (response : Response B) seen :
  returns_seen (λ seen' body, seen' = seen ∧ json response = Some body) seen
    (response_json response).
Proof. unfold response_json. by destruct (json response). Qed.

End Seen.

Lemma truthy_is_string (v : JsStr) : truthy v = true → is_string v.
Proof. by destruct v. Qed.

Lemma truthy_Str (v : JsStr) :
  truthy v = true → ∃ s, v = Str s ∧ s ≠ "" ∧ Js.template v = s.
Proof.
  destruct v as [| |s]; try done. simpl. intros H. exists s. split; [done|].
  split; [|done]. intros ->. done.
Qed.

Lemma or_empty_is_string (v : JsStr) : is_string (or_empty v).
Proof. unfold or_empty. destruct (truthy v) eqn:H; [by apply truthy_is_string | done]. Qed.

Lemma or_empty_Str (s : string) : or_empty (Str s) = Str s.
Proof.
  unfold or_empty, truthy. destruct (String.eqb_spec s "") as [->|]; done.
Qed.


(** ** The attestation checkers *)

Lemma version_scoped_checker_post (pkg : EcosystemsPackage.t) :
  always_seen (version_scoped_post pkg) [] (VersionScoped.fetchPackageAttestation pkg).
Proof.
  unfold VersionScoped.fetchPackageAttestation.
  destruct (truthy (EcosystemsPackage.latest_release_number pkg)) eqn:Hv; cbn [negb].
  - apply always_seen_catch; [|by intros].
    cbn [returns_seen]. eapply returns_seen_bind; [apply retry_loop_seen|].
    intros seen response [Hlast Hok].
    eapply returns_seen_bind; [apply response_json_seen|].
    intros ? body [-> Hjson]. cbn [returns_seen]. unfold version_scoped_post. rewrite Hv.
    repeat split; try done. right. repeat split; try done. by exists response, body.
  - unfold version_scoped_post. rewrite Hv. simpl. repeat split; try done. by left.
Qed.

Lemma full_document_checker_post (packageName : string) :
  always_seen (full_document_post packageName) []
    (FullDocument.fetchPackageAttestation packageName).
Proof.
  unfold FullDocument.fetchPackageAttestation. apply always_seen_catch; [|by intros].
  cbn [returns_seen]. eapply returns_seen_bind; [apply retry_loop_seen|].
  intros seen response [Hlast Hok].
  eapply returns_seen_bind; [apply response_json_seen|].
  intros ? body [-> Hjson]. unfold FullDocument.read_metadata.
  destruct (truthy (FullDocument.latest_tag (FullDocument.as_metadata body))) eqn:Hv;
    cbn [negb]; [|done].
  destruct (truthy_Str _ Hv) as (v & Htag & Hne & Hkey). rewrite Hkey.
  destruct (NpmPackageMetadata.versions (FullDocument.as_metadata body))
    as [entries|] eqn:Hvs; [|done].
  destruct (FullDocument.version_entry entries v) as [versionData|] eqn:He; [|done].
  cbn [returns_seen full_document_post].
  exists response, body, v, entries, versionData. rewrite Htag.
  repeat split; try done.
Qed.

Lemma version_scoped_post_well_formed pkg seen r :
  version_scoped_post pkg seen (Some r) →
  well_formed r ∧ AttestationResult.name r = Str (EcosystemsPackage.name pkg).
Proof.
  intros (Hname & Hup & Hrepo & Hcase). split; [|done]. unfold well_formed.
  rewrite Hname, Hup, Hrepo. cbn [is_string_value].
  destruct Hcase as [(_ & _ & -> & -> & ->)|(Hv & -> & resp & body & _ & _ & _ & -> & ->)];
    repeat split; auto using or_empty_is_string, truthy_is_string.
Qed.

Lemma full_document_post_well_formed packageName seen r :
  full_document_post packageName seen (Some r) →
  well_formed_but_time r ∧ AttestationResult.name r = Str packageName.
Proof.
  intros (resp & body & v & entries & versionData & _ & _ & _ & _ & _ & _ & _ & ->).
  split; [|done]. unfold well_formed_but_time. simpl.
  repeat split; auto using or_empty_is_string.
Qed.

(** ** [main] *)

Section MainLemmas.

Context {M P : Type}.
Variable select : EcosystemsPackage.t → P.
Variable checker : P → Prog (Json M) (option AttestationResult.t).
Variable upstream : Upstream (Json M).

(** With a checker that never throws, [main] fails exactly when the ranked
    list cannot be fetched; otherwise it writes the report built from the
    records of the lookups that produced one, in the order of the list. *)
Lemma main_cases (Q : P → option AttestationResult.t → Prop) (sched : list nat)
    (now : string) :
  (∀ pkg, always_under upstream (Q pkg) (checker pkg)) →
  (∃ e tr, run upstream (fetchTopNpmPackages select 500) [] = (Err e, tr)
           ∧ main select checker upstream sched now = (Exit1 e, tr ++ [ELog (LFailed e)]))
  ∨ (∃ topPackages outcomes tr ev,
        run upstream (fetchTopNpmPackages select 500) [] = (Ok topPackages, tr)
        ∧ (length topPackages ≤ 500)%nat
        ∧ Forall2 Q topPackages outcomes
        ∧ main select checker upstream sched now
          = (Written (build_report now (non_null outcomes)), tr ++ ev)).
Proof.
  intros Hchk. unfold main.
  pose proof (fetchTopNpmPackages_length select upstream 500 []) as Hlen.
  destruct (run upstream (fetchTopNpmPackages select 500) []) as [[topPackages|e] tr].
  2:{ left. by exists e, tr. }
  right.
  destruct (check_all_always checker upstream Q topPackages
              (tr ++ [ELog (LCheckingAll (length topPackages))]) sched Hchk)
    as (outcomes & ev & sched' & -> & _ & Hout).
  exists topPackages, outcomes, tr,
    (ELog (LCheckingAll (length topPackages)) :: ev
       ++ display (Report.packages (build_report now (non_null outcomes)))).
  repeat split; try done. by rewrite <- !app_assoc.
Qed.

End MainLemmas.


Lemma version_scoped_always (upstream : Upstream VersionScoped.Body)
    (pkg : EcosystemsPackage.t) :
  always_under upstream
    (λ o, ∀ r, o = Some r →
               well_formed r ∧ AttestationResult.name r = Str (EcosystemsPackage.name pkg))
    (VersionScoped.fetchPackageAttestation pkg).
Proof.
  apply always_under_of_always.
  eapply always_mono; [|exact (always_of_seen _ _ _ (version_scoped_checker_post pkg))].
  intros o [seen Hpost] r ->. by eapply version_scoped_post_well_formed.
Qed.

Lemma full_document_always (upstream : Upstream FullDocument.Body) (packageName : string) :
  always_under upstream
    (λ o, ∀ r, o = Some r →
               well_formed_but_time r ∧ AttestationResult.name r = Str packageName)
    (FullDocument.fetchPackageAttestation packageName).
Proof.
  apply always_under_of_always.
  eapply always_mono; [|exact (always_of_seen _ _ _ (full_document_checker_post packageName))].
  intros o [seen Hpost] r ->. by eapply full_document_post_well_formed.
Qed.

Lemma non_null_Forall {A} (Q : A → option AttestationResult.t → Prop)
    (R : AttestationResult.t → Prop) (l : list A) (outcomes : list (option AttestationResult.t)) :
  (∀ a o r, Q a o → o = Some r → R r) →
  Forall2 Q l outcomes → Forall R (non_null outcomes).
Proof.
  intros HQ. induction 1 as [|a o l outcomes Ho _ IH]; [constructor|].
  unfold non_null in *. destruct o as [r|]; simpl; [|done].
  constructor; [by eapply HQ|done].
Qed.

Lemma imap_Forall {A C} (f : nat → A → C) (R : A → Prop) (R' : C → Prop) (l : list A) :
  (∀ i a, R a → R' (f i a)) → Forall R l → Forall R' (imap f l).
Proof.
  intros Hf Hl. revert f Hf. induction Hl as [|a l Ha _ IH]; intros f Hf; simpl.
  - constructor.
  - constructor; [by apply Hf|]. apply IH. intros i b. apply Hf.
Qed.

(** C4.  The full-document checker does not resolve to null for every
    document whose version map has no entry for the latest tag: the lookup
    [metadata.versions[latestVersion]] also finds the members of
    [Object.prototype].  For the document
    [{"dist-tags": {"latest": "constructor"}, "versions": {}}] the version
    map has no entry at all, and the checker resolves to a record of
    version "constructor" after one request, for every package name and
    history. *)
Theorem full_document_inherited_version (packageName : string)
    (tr : list (Event FullDocument.Body)) :
  FullDocument.latest_tag (constructor_document None) = Str "constructor"
  ∧ NpmPackageMetadata.versions (constructor_document None) = Some ∅
  ∧ run (constructor_registry None) (FullDocument.fetchPackageAttestation packageName) tr
    = (Ok (Some {|
         AttestationResult.name := Str packageName;
         AttestationResult.version := Str "constructor";
         AttestationResult.lastUploaded := Str "";
         AttestationResult.attestationsUrl := Str "";
         AttestationResult.trustedPublisherId := Str "";
         AttestationResult.repositoryUrl := Str "" |}),
       tr ++ [ELog (LCheckingPackage packageName);
              EFetch (FullDocument.package_url packageName)
                (http 200 (Some (JObject (constructor_document None))))]).
Proof.
  split; [done|]. split; [done|].
  unfold FullDocument.fetchPackageAttestation. rewrite run_catch. cbn [run].
  rewrite run_bind. unfold fetchWithRetry, fetchWithRetry_with.
  rewrite (retry_loop_first_ok _ _ _ _ _ _ _
             {| ok := true; status := 200;
                json := Some (JObject (constructor_document None)) |})
    by (done || lia).
  rewrite <- app_assoc. reflexivity.
Qed.


(** C8.  Not every record of the full-document checker has all its fields
    as strings: [metadata.time?.[latestVersion] || ""] keeps a member of
    [Object.prototype] that the lookup finds.  For the document
    [{"dist-tags": {"latest": "constructor"}, "time": {}, "versions": {}}]
    the checker resolves to a record whose [lastUploaded] is the function
    [Object.prototype.constructor], for every package name. *)
Theorem full_document_inherited_time (packageName : string) :
  ∃ r, eval (constructor_registry (Some ∅))
         (FullDocument.fetchPackageAttestation packageName) = Ok (Some r)
       ∧ AttestationResult.lastUploaded r = Inherited "constructor"
       ∧ ¬ is_string_value (AttestationResult.lastUploaded r)
       ∧ ¬ well_formed r.
Proof.
  eexists. split.
  - unfold eval, FullDocument.fetchPackageAttestation. rewrite run_catch. cbn [run].
    rewrite run_bind. unfold fetchWithRetry, fetchWithRetry_with.
    rewrite (retry_loop_first_ok _ _ _ _ _ _ _
               {| ok := true; status := 200;
                  json := Some (JObject (constructor_document (Some ∅))) |})
      by (done || lia).
    reflexivity.
  - split; [done|]. split; [by intros []|]. by intros (_ & _ & [] & _).
Qed.

(** ** Ranks *)

Section RankLemmas.

Context {P : Type}.
Variable pname : P → string.

Lemma packages_of_report (now : string) (results : list AttestationResult.t) :
  Entry.package <$> Report.packages (build_report now results)
  = AttestationResult.name <$> results.
Proof.
  cbn [build_report Report.packages]. apply list_eq. intros i.
  rewrite !list_lookup_fmap, list_lookup_imap. by destruct (results !! i).
Qed.

Lemma rank_of_entry (now : string) (results : list AttestationResult.t) (i : nat) e :
  Report.packages (build_report now results) !! i = Some e → Entry.rank e = (i + 1)%nat.
Proof.
  cbn [build_report Report.packages]. rewrite list_lookup_imap.
  destruct (results !! i); simpl; [|done]. by intros [= <-].
Qed.

Lemma names_sublist (l : list P) (outcomes : list (option AttestationResult.t)) :
  Forall2 (λ pkg o, ∀ r, o = Some r → AttestationResult.name r = Str (pname pkg)) l outcomes →
  sublist (AttestationResult.name <$> non_null outcomes) ((λ pkg, Str (pname pkg)) <$> l).
Proof.
  induction 1 as [|pkg o l outcomes Ho _ IH]; [constructor|].
  unfold non_null in *. destruct o as [r|]; simpl.
  - rewrite (Ho r eq_refl). by constructor.
  - by constructor.
Qed.

Lemma length_non_null (outcomes : list (option AttestationResult.t)) :
  (length (non_null outcomes) ≤ length outcomes)%nat.
Proof.
  unfold non_null. induction outcomes as [|[r|] outcomes IH]; cbn in *; lia.
Qed.

Lemma none_dropped (l : list P) (outcomes : list (option AttestationResult.t)) :
  Forall2 (λ pkg o, ∀ r, o = Some r → AttestationResult.name r = Str (pname pkg)) l outcomes →
  length (non_null outcomes) = length l →
  AttestationResult.name <$> non_null outcomes = (λ pkg, Str (pname pkg)) <$> l.
Proof.
  induction 1 as [|pkg o l outcomes Ho Hall IH]; [done|].
  unfold non_null in *. destruct o as [r|]; cbn.
  - intros [= Hlen]. rewrite (Ho r eq_refl). f_equal. by apply IH.
  - intros Hlen. pose proof (length_non_null outcomes) as Hle. unfold non_null in Hle.
    apply Forall2_length in Hall. lia.
Qed.

End RankLemmas.

Section RankTheorem.

Context {M P : Type}.
Variable select : EcosystemsPackage.t → P.
Variable pname : P → string.
Variable checker : P → Prog (Json M) (option AttestationResult.t).
Variable upstream : Upstream (Json M).
Variable R : AttestationResult.t → Prop.

Lemma main_ranks (sched : list nat) (now : string) :
  (∀ pkg, always_under upstream
            (λ o, ∀ r, o = Some r → R r ∧ AttestationResult.name r = Str (pname pkg))
            (checker pkg)) →
  match main select checker upstream sched now with
  | (Written report, _) =>
      ∃ topPackages tr,
        run upstream (fetchTopNpmPackages select 500) [] = (Ok topPackages, tr)
        ∧ (∀ i e, Report.packages report !! i = Some e → Entry.rank e = (i + 1)%nat)
        ∧ sublist (Entry.package <$> Report.packages report)
            ((λ pkg, Str (pname pkg)) <$> topPackages)
        ∧ (length (Report.packages report) = length topPackages →
           rank_is_input_position pname topPackages report)
  | (Exit1 _, _) => True
  end.
Proof.
  intros Hchk.
  destruct (main_cases select checker upstream _ sched now Hchk)
    as [(e & tr & _ & ->)|(topPackages & outcomes & tr & ev & Hrun & _ & Hout & ->)]; [done|].
  assert (Hnames : Forall2 (λ pkg o, ∀ r, o = Some r →
                                     AttestationResult.name r = Str (pname pkg))
                     topPackages outcomes).
  { eapply Forall2_impl; [exact Hout|]. intros pkg o Ho r Hr. by apply Ho. }
  exists topPackages, tr. split; [done|]. split; [apply rank_of_entry|].
  rewrite packages_of_report. split; [by apply names_sublist|].
  intros Hlen e He.
  apply list_elem_of_lookup in He as [i Hi].
  rewrite (rank_of_entry _ _ _ _ Hi). replace (i + 1 - 1)%nat with i by lia.
  assert (Heq : Entry.package <$> Report.packages (build_report now (non_null outcomes))
                = (λ pkg, Str (pname pkg)) <$> topPackages).
  { rewrite packages_of_report. apply none_dropped; [done|].
    rewrite <- Hlen. cbn [build_report Report.packages]. by rewrite length_imap. }
  apply (f_equal (λ l, l !! i)) in Heq. rewrite !list_lookup_fmap, Hi in Heq.
  destruct (topPackages !! i) as [pkg|]; [|done].
  exists pkg. split; [done|]. by injection Heq.
Qed.

End RankTheorem.

(** C6, as stated, fails: when the lookup of an earlier package produces
    no record, the later entries move up.  Here the registry answers 404
    for the first of two packages; the report's only entry has rank 1 and
    is the second package of the input list. *)
Lemma rank_counterexample :
  ∃ report tr tr',
    run second_only_source (fetchTopNpmPackages (λ pkg, pkg) 500) []
    = (Ok [first_package; second_package], tr)
    ∧ VersionScoped.main second_only_source [] "2026-01-01T00:00:00.000Z"
      = (Written report, tr')
    ∧ ¬ rank_is_input_position EcosystemsPackage.name
          [first_package; second_package] report.
Proof.
  eexists _, _, _. split; [vm_compute; reflexivity|]. split; [vm_compute; reflexivity|].
  intros H. destruct (H _ (list_elem_of_here _ _)) as (pkg & Hpkg & Hname).
  cbn in Hpkg. injection Hpkg as <-. discriminate Hname.
Qed.

(** C6, amended.  In every report that [main] writes (either checker,
    every upstream, every interleaving), the rank of an entry is its
    1-based position in the report's packages array; the entries are the
    records of the lookups that produced one, in the order of the input
    list (their names form a subsequence of the input names); and when no
    lookup was dropped, the rank is the 1-based position of the package in
    the input list. *)
Theorem report_ranks :
  (∀ upstream sched now,
      match VersionScoped.main upstream sched now with
      | (Written report, _) =>
          ∃ topPackages tr,
            run upstream (fetchTopNpmPackages (λ pkg, pkg) 500) [] = (Ok topPackages, tr)
            ∧ (∀ i e, Report.packages report !! i = Some e → Entry.rank e = (i + 1)%nat)
            ∧ sublist (Entry.package <$> Report.packages report)
                ((λ pkg, Str (EcosystemsPackage.name pkg)) <$> topPackages)
            ∧ (length (Report.packages report) = length topPackages →
               rank_is_input_position EcosystemsPackage.name topPackages report)
      | (Exit1 _, _) => True
      end)
  ∧ (∀ upstream sched now,
        match FullDocument.main upstream sched now with
        | (Written report, _) =>
            ∃ topPackages tr,
              run upstream (fetchTopNpmPackages EcosystemsPackage.name 500) []
              = (Ok topPackages, tr)
              ∧ (∀ i e, Report.packages report !! i = Some e → Entry.rank e = (i + 1)%nat)
              ∧ sublist (Entry.package <$> Report.packages report) (Str <$> topPackages)
              ∧ (length (Report.packages report) = length topPackages →
                 rank_is_input_position (λ packageName, packageName) topPackages report)
        | (Exit1 _, _) => True
        end).
Proof.
  split; intros upstream sched now.
  - apply (main_ranks (λ pkg, pkg) EcosystemsPackage.name
             VersionScoped.fetchPackageAttestation upstream well_formed sched now).
    apply version_scoped_always.
  - apply (main_ranks EcosystemsPackage.name (λ packageName, packageName)
             FullDocument.fetchPackageAttestation upstream well_formed_but_time sched now).
    apply full_document_always.
Qed.

(** ** The batch scheduler on 25 packages *)

(** C2. The batch loop of [main] is the scheduler of the specification run
    on the partition of the package list into consecutive batches of 10
    (the last one of 1 to 10): each batch is one [Promise.all] over one
    checker call per member, awaited as a whole before the next batch
    starts, with a pause of 1000 ms between two batches; over all batches
    the calls are one per package, in order.  With either checker every
    batch settles whatever the interleaving, null members included, and the
    loop returns the records of the lookups that produced one, in the order
    of the input list.  25 packages make the batches 10, 10, 5; in a run on
    25 packages, one of them unknown to the registry, each lookup starts
    exactly once, 10, 10 and 5 of them between the pauses, and 24 records
    come back. *)
Theorem batch_scheduling :
  (∀ (M P : Type) (checker : P → Prog (Json M) (option AttestationResult.t))
     (upstream : Upstream (Json M)) (topPackages : list P) tr sched,
      check_all checker upstream topPackages tr sched
      = run_batches checker upstream (chunks batchSize topPackages) [] tr sched
      ∧ concat (chunks batchSize topPackages) = topPackages
      ∧ Forall (λ batch, 1 ≤ length batch ≤ 10)%nat (chunks batchSize topPackages)
      ∧ (∀ i batch, (S i < length (chunks batchSize topPackages))%nat →
                    chunks batchSize topPackages !! i = Some batch → length batch = 10%nat)
      ∧ concat (map (map checker) (chunks batchSize topPackages)) = map checker topPackages)
  ∧ (∀ upstream topPackages tr sched,
        ∃ outcomes ev sched',
          check_all VersionScoped.fetchPackageAttestation upstream topPackages tr sched
          = (Ok (non_null outcomes), tr ++ ev, sched')
          ∧ Forall2 (λ pkg o, ∀ r, o = Some r →
                        AttestationResult.name r = Str (EcosystemsPackage.name pkg))
              topPackages outcomes)
  ∧ (∀ upstream topPackages tr sched,
        ∃ outcomes ev sched',
          check_all FullDocument.fetchPackageAttestation upstream topPackages tr sched
          = (Ok (non_null outcomes), tr ++ ev, sched')
          ∧ Forall2 (λ packageName o, ∀ r, o = Some r →
                        AttestationResult.name r = Str packageName)
              topPackages outcomes)
  ∧ (∀ (A : Type) (ref : nat → A),
        chunks batchSize (ref <$> seq 0 25)
        = [ref <$> seq 0 10; ref <$> seq 10 10; ref <$> seq 20 5])
  ∧ (∃ results tr,
        check_all VersionScoped.fetchPackageAttestation
          (registry_without (versioned_package 3)) (versioned_package <$> seq 0 25) []
          [3; 1; 4; 1; 5; 9; 2; 6; 5; 3; 5; 8; 9; 7; 9; 3; 2; 3; 8; 4; 6; 2; 6; 4; 3]%nat
        = (Ok results, tr, [])
        ∧ length results = 24%nat
        ∧ started_once (EcosystemsPackage.name ∘ versioned_package <$> seq 0 25) tr = true
        ∧ (length ∘ lookups_started) <$> split_at_pauses tr = [10; 10; 5]%nat).
Proof.
  split; [|split; [|split; [|split]]].
  - intros M P checker upstream topPackages tr sched.
    assert (Hn : (1 ≤ batchSize)%nat) by (unfold batchSize; lia).
    destruct (chunks_partition batchSize topPackages Hn) as (Hc & Hall & Hfull).
    split.
    { unfold check_all. rewrite batch_loop_refines by lia. by rewrite drop_0. }
    split; [done|]. split; [done|]. split; [done|].
    by rewrite <- concat_map, Hc.
  - intros upstream topPackages tr sched.
    destruct (check_all_always VersionScoped.fetchPackageAttestation upstream _
                topPackages tr sched (version_scoped_always upstream))
      as (outcomes & ev & sched' & Hrun & _ & Hout).
    exists outcomes, ev, sched'. split; [done|].
    eapply Forall2_impl; [exact Hout|]. intros pkg o Ho r Hr. by apply Ho.
  - intros upstream topPackages tr sched.
    destruct (check_all_always FullDocument.fetchPackageAttestation upstream _
                topPackages tr sched (full_document_always upstream))
      as (outcomes & ev & sched' & Hrun & _ & Hout).
    exists outcomes, ev, sched'. split; [done|].
    eapply Forall2_impl; [exact Hout|]. intros pkg o Ho r Hr. by apply Ho.
  - intros A ref. reflexivity.
  - eexists _, _. split; [vm_compute; reflexivity|]. by vm_compute.
Qed.

(** ** Determinism *)

Section Determinism.

Context {M P : Type}.
Variable select : EcosystemsPackage.t → P.
Variable checker : P → Prog (Json M) (option AttestationResult.t).
Variable upstream : Upstream (Json M).

Lemma outcomes_determined (l : list P) (o1 o2 : list (option AttestationResult.t)) :
  Forall2 (λ pkg o, eval upstream (checker pkg) = Ok o) l o1 →
  Forall2 (λ pkg o, eval upstream (checker pkg) = Ok o) l o2 →
  o1 = o2.
Proof.
  intros H1. revert o2. induction H1 as [|pkg o l o1 Ho _ IH]; intros o2 H2.
  - by apply Forall2_nil_inv_l in H2.
  - apply Forall2_cons_inv_l in H2 as (o' & o2' & Ho' & H2 & ->).
    rewrite Ho in Ho'. injection Ho' as <-. f_equal. by apply IH.
Qed.

Lemma main_deterministic (Q : P → option AttestationResult.t → Prop)
    (sched1 sched2 : list nat) (now1 now2 : string) :
  stateless upstream →
  (∀ pkg, always_under upstream (Q pkg) (checker pkg)) →
  same_but_time (main select checker upstream sched1 now1).1
                (main select checker upstream sched2 now2).1.
Proof.
  intros Hs Hchk.
  assert (Hev : ∀ pkg, always_under upstream (λ o, eval upstream (checker pkg) = Ok o)
                         (checker pkg)).
  { intros pkg. by eapply always_under_eval. }
  destruct (main_cases select checker upstream _ sched1 now1 Hev)
    as [(e1 & tr1 & Hrun1 & ->)|(l1 & o1 & tr1 & ev1 & Hrun1 & _ & Hout1 & ->)];
    destruct (main_cases select checker upstream _ sched2 now2 Hev)
      as [(e2 & tr2 & Hrun2 & ->)|(l2 & o2 & tr2 & ev2 & Hrun2 & _ & Hout2 & ->)];
    rewrite Hrun1 in Hrun2; try discriminate; injection Hrun2 as <- <-; cbn [fst same_but_time].
  - done.
  - by rewrite (outcomes_determined l1 o1 o2 Hout1 Hout2).
Qed.

Lemma main_generated_at (sched : list nat) (now : string) report tr :
  main select checker upstream sched now = (Written report, tr) →
  Report.generated_at report = now.
Proof.
  unfold main.
  destruct (run upstream (fetchTopNpmPackages select 500) []) as [[l|e] tr0]; [|done].
  destruct (check_all checker upstream l _ sched) as [[[rs|e] tr1] s1]; [|done].
  by intros [= <- _].
Qed.

End Determinism.

(** C9. When the upstream answers every request by its URL alone (the
    data set does not change), two runs of the pipeline, whatever the time
    and however the lookups of a batch interleave, end the same way: both
    fail with the same error, or both write reports with the same summary
    and the same packages array, differing at most in [generated_at], which
    is the time of the run. *)
Theorem report_deterministic
    (registry : Upstream VersionScoped.Body) (documents : Upstream FullDocument.Body)
    (sched1 sched2 : list nat) (now1 now2 : string) :
  stateless registry → stateless documents →
  same_but_time (VersionScoped.main registry sched1 now1).1
                (VersionScoped.main registry sched2 now2).1
  ∧ same_but_time (FullDocument.main documents sched1 now1).1
                  (FullDocument.main documents sched2 now2).1
  ∧ (∀ report tr, VersionScoped.main registry sched1 now1 = (Written report, tr) →
                  Report.generated_at report = now1)
  ∧ (∀ report tr, FullDocument.main documents sched1 now1 = (Written report, tr) →
                  Report.generated_at report = now1).
Proof.
  intros Hr Hd. split; [|split; [|split]].
  - eapply main_deterministic; [done|]. apply version_scoped_always.
  - eapply main_deterministic; [done|]. apply full_document_always.
  - intros report tr. apply main_generated_at.
  - intros report tr. apply main_generated_at.
Qed.

(** Two runs against the same registry, with different interleavings and
    clocks. *)
Lemma report_deterministic_witness :
  stateless second_only_source ∧ stateless second_only_documents
  ∧ same_but_time
      (VersionScoped.main second_only_source [] "2026-01-01T00:00:00.000Z").1
      (VersionScoped.main second_only_source [1; 0; 1; 1]%nat "2026-01-02T00:00:00.000Z").1
  ∧ same_but_time
      (FullDocument.main second_only_documents [] "2026-01-01T00:00:00.000Z").1
      (FullDocument.main second_only_documents [1; 0; 1; 1]%nat "2026-01-02T00:00:00.000Z").1.
Proof.
  assert (H1 : stateless second_only_source) by (intros ? ? ?; reflexivity).
  assert (H2 : stateless second_only_documents) by (intros ? ? ?; reflexivity).
  split; [exact H1|]. split; [exact H2|].
  pose proof (report_deterministic second_only_source second_only_documents
                [] [1; 0; 1; 1]%nat "2026-01-01T00:00:00.000Z" "2026-01-02T00:00:00.000Z"
                H1 H2) as (Hv & Hf & _).
  split; [exact Hv | exact Hf].
Defined.

(** ** The summary of the report *)

Lemma tenths_by_shift_eq (m : positive) (e : Z) :
  tenths_by_shift m e = Number.tenths m e.
Proof.
  unfold tenths_by_shift, Number.tenths. destruct (0 <=? e) eqn:He; [done|].
  apply Z.leb_gt in He.
  rewrite Z.shiftr_div_pow2, Z.shiftl_mul_pow2 by lia. f_equal. lia.
Qed.

(** A tenth within 0.05 of the exact percentage is its half-up rounding,
    or the lower neighbour of an exact tie. *)
Lemma nearest_tenth_of_abs (k n t : Z) :
  0 < n → 2 * Z.abs (t * n - 1000 * k) ≤ n → nearest_tenth k n t.
Proof.
  intros Hn Habs. split; [done|]. unfold round_half_up_tenths.
  assert (Hlo : 2 * n * t ≤ 2000 * k + n) by lia.
  assert (Hhi : 2000 * k + n ≤ 2 * n * (t + 1)) by lia.
  destruct (decide (2000 * k + n = 2 * n * (t + 1))) as [Heq|Hne].
  - right. split.
    + symmetry. apply (Z.mod_unique _ _ t); lia.
    + assert ((2000 * k + n) / (2 * n) = t + 1); [|lia].
      symmetry. apply (Z.div_unique _ _ _ 0); lia.
  - left. apply (Z.div_unique _ _ _ (2000 * k + n - 2 * n * t)); lia.
Qed.

Lemma percentage_check_sound (k n : nat) :
  (0 < n)%nat →
  percentage_check (Z.of_nat k) (Z.of_nat n) = true →
  ∃ t, percentage_string k n = Number.decimal1 t
       ∧ nearest_tenth (Z.of_nat k) (Z.of_nat n) t.
Proof.
  intros Hn. unfold percentage_check, percentage_string, Number.toFixed1, Number.of_nat.
  destruct (Prim2SF _) as [s|s| |[|] m e]; try done; intros H%Z.leb_le.
  - exists 0. split; [done|]. apply nearest_tenth_of_abs; lia.
  - exists (Number.tenths m e). split; [done|].
    rewrite tenths_by_shift_eq in H. apply nearest_tenth_of_abs; lia.
Qed.

Lemma forall_range_spec (f : Z → bool) (from : Z) (count : nat) (z : Z) :
  forall_range f from count = true → from ≤ z < from + Z.of_nat count → f z = true.
Proof.
  revert from. induction count as [|count IH]; intros from; simpl; [lia|].
  rewrite andb_true_iff. intros [Hf Hrest] Hz.
  destruct (decide (z = from)) as [->|Hne]; [done|]. apply (IH (from + 1)); [done|lia].
Qed.

Lemma percentage_checked_all :
  forall_range (λ n, forall_range (λ k, percentage_check k n) 0 (S (Z.to_nat n))) 1 500
  = true.
Proof. vm_compute. reflexivity. Qed.

Lemma percentage_checked (k n : nat) :
  (1 ≤ n ≤ 500)%nat → (k ≤ n)%nat →
  percentage_check (Z.of_nat k) (Z.of_nat n) = true.
Proof.
  intros Hn Hk.
  pose proof (forall_range_spec _ 1 500 (Z.of_nat n) percentage_checked_all) as H.
  cbv beta in H.
  apply (forall_range_spec (λ k, percentage_check k (Z.of_nat n)) 0
           (S (Z.to_nat (Z.of_nat n))) (Z.of_nat k)); [apply H|]; lia.
Qed.

Lemma has_attestation_truthy (e : Entry.t) :
  is_string (Entry.attestationsUrl e) →
  has_attestation e = truthy (Entry.attestationsUrl e).
Proof. unfold has_attestation. by destruct (Entry.attestationsUrl e). Qed.

Lemma build_report_summary_of (now : string) (results : list AttestationResult.t) :
  Forall (λ r, is_string (AttestationResult.attestationsUrl r)) results →
  (1 ≤ length results ≤ 500)%nat →
  summary_ok (build_report now results).
Proof.
  intros Hwf Hlen. unfold summary_ok.
  cbn [build_report Report.packages Report.summary Summary.total_packages
       Summary.packages_with_attestations Summary.attestation_percentage].
  set (packages := imap to_entry results).
  assert (Hfilter : List.filter has_attestation packages
                    = List.filter (λ pkg, truthy (Entry.attestationsUrl pkg)) packages).
  { apply List.filter_ext_in. intros e He. apply has_attestation_truthy.
    assert (Hall : Forall (λ e, is_string (Entry.attestationsUrl e)) packages).
    { subst packages. eapply imap_Forall; [|exact Hwf]. by intros i r. }
    rewrite Forall_forall in Hall. apply list_elem_of_In in He. by apply Hall. }
  rewrite Hfilter. split; [done|]. split; [done|].
  set (k := length (List.filter _ packages)).
  assert (Hn : length packages = length results) by (subst packages; apply length_imap).
  assert (Hk : (k ≤ length packages)%nat) by apply List.filter_length_le.
  destruct (percentage_check_sound k (length packages)) as (t & Hstr & Ht).
  { lia. }
  { apply percentage_checked; lia. }
  exists t. by rewrite Hstr.
Qed.

Lemma build_report_summary (now : string) (results : list AttestationResult.t) :
  Forall well_formed results → (1 ≤ length results ≤ 500)%nat →
  summary_ok (build_report now results).
Proof.
  intros Hwf. apply build_report_summary_of.
  eapply Forall_impl; [exact Hwf|]. by intros r (_ & _ & _ & H & _).
Qed.

Section SummaryLemmas.

Context {M P : Type}.
Variable select : EcosystemsPackage.t → P.
Variable checker : P → Prog (Json M) (option AttestationResult.t).
Variable upstream : Upstream (Json M).

Lemma main_summary (Q : P → option AttestationResult.t → Prop) (sched : list nat)
    (now : string) :
  (∀ pkg, always_under upstream (Q pkg) (checker pkg)) →
  (∀ pkg o r, Q pkg o → o = Some r → is_string (AttestationResult.attestationsUrl r)) →
  match main select checker upstream sched now with
  | (Written report, _) =>
      (Report.packages report ≠ [] → summary_ok report)
      ∧ (Report.packages report = [] → report = build_report now [])
  | (Exit1 e, _) => (run upstream (fetchTopNpmPackages select 500) []).1 = Err e
  end.
Proof.
  intros Hchk HQ.
  destruct (main_cases select checker upstream Q sched now Hchk)
    as [(e & tr & Hrun & ->)|(topPackages & outcomes & tr & ev & _ & Hlen & Hout & ->)].
  { by rewrite Hrun. }
  split.
  - intros Hne. apply build_report_summary_of; [by eapply non_null_Forall|].
    pose proof (length_non_null outcomes). apply Forall2_length in Hout.
    split; [|lia].
    destruct (non_null outcomes); [done|simpl; lia].
  - cbn [build_report Report.packages]. intros Hnil.
    apply (f_equal length) in Hnil. rewrite length_imap in Hnil.
    by destruct (non_null outcomes).
Qed.

End SummaryLemmas.

(** C5, as stated, fails on exact ties: for 23 attestations out of 80
    packages the exact percentage is 28.75, which rounds to 28.8, but the
    double-precision product is just below 28.75 and [toFixed(1)] yields
    28.7. *)
Lemma percentage_rounding_counterexample :
  Summary.total_packages (Report.summary (build_report "" (sample_results 23 80))) = 80%nat
  ∧ Summary.packages_with_attestations
      (Report.summary (build_report "" (sample_results 23 80))) = 23%nat
  ∧ spec_percentage 23 80 = Number.parseFloat "28.8"
  ∧ Summary.attestation_percentage
      (Report.summary (build_report "" (sample_results 23 80))) = Number.parseFloat "28.7"
  ∧ Summary.attestation_percentage
      (Report.summary (build_report "" (sample_results 23 80))) ≠ spec_percentage 23 80.
Proof.
  split; [by vm_compute|]. split; [by vm_compute|]. split; [by vm_compute|].
  split; [by vm_compute|].
  intros H. apply (f_equal Prim2SF) in H. vm_compute in H. discriminate H.
Qed.

(** C5, amended.  For every list of 1 to 500 well-formed records (and so
    for every non-empty report [main] writes, which holds at most 500),
    total_packages is the number of records, packages_with_attestations
    the number of records whose attestationsUrl is a non-empty string, and
    attestation_percentage is the number of a one-decimal numeral t/10
    nearest to the exact percentage: its half-up rounding, or the lower
    neighbour when the exact percentage lies halfway between two
    one-decimal values.  3 attestations out of 7 give "42.9", that is the
    double 42.9 (6037638250443571 * 2^-47). *)
Theorem report_summary :
  (∀ now results,
      Forall well_formed results → (1 ≤ length results ≤ 500)%nat →
      summary_ok (build_report now results))
  ∧ (∀ upstream sched now,
        match VersionScoped.main upstream sched now with
        | (Written report, _) => Report.packages report ≠ [] → summary_ok report
        | (Exit1 _, _) => True
        end)
  ∧ (∀ upstream sched now,
        match FullDocument.main upstream sched now with
        | (Written report, _) => Report.packages report ≠ [] → summary_ok report
        | (Exit1 _, _) => True
        end)
  ∧ percentage_string 3 7 = "42.9"
  ∧ Report.summary (build_report "" (sample_results 3 7))
    = {| Summary.total_packages := 7;
         Summary.packages_with_attestations := 3;
         Summary.attestation_percentage := Number.parseFloat "42.9" |}
  ∧ Prim2SF (Number.parseFloat "42.9") = S754_finite false 6037638250443571 (-47).
Proof.
  split; [apply build_report_summary|]. split; [|split; [|repeat split; by vm_compute]].
  - intros upstream sched now. unfold VersionScoped.main.
    pose proof (main_summary (λ pkg, pkg) VersionScoped.fetchPackageAttestation upstream
                  _ sched now (version_scoped_always upstream)) as H.
    destruct (main _ _ _ _ _) as [[report|e] tr]; [|done].
    apply H. intros pkg o r Ho ->. by destruct (Ho r eq_refl) as [(_ & _ & _ & ? & _) _].
  - intros upstream sched now. unfold FullDocument.main.
    pose proof (main_summary EcosystemsPackage.name FullDocument.fetchPackageAttestation
                  upstream _ sched now (full_document_always upstream)) as H.
    destruct (main _ _ _ _ _) as [[report|e] tr]; [|done].
    apply H. intros pkg o r Ho ->. by destruct (Ho r eq_refl) as [(_ & _ & ? & _) _].
Qed.

(** The summary of seven records, three of them attested. *)
Lemma report_summary_witness :
  Forall well_formed (sample_results 3 7)
  ∧ (1 ≤ length (sample_results 3 7) ≤ 500)%nat
  ∧ summary_ok (build_report "2026-01-01T00:00:00.000Z" (sample_results 3 7)).
Proof.
  assert (H1 : Forall well_formed (sample_results 3 7)).
  { apply Forall_fmap, Forall_forall. intros i _. unfold well_formed. simpl.
    by destruct (i <? 3)%nat. }
  assert (H2 : (1 ≤ length (sample_results 3 7) ≤ 500)%nat) by (vm_compute; lia).
  split; [exact H1|]. split; [exact H2|].
  exact (proj1 report_summary "2026-01-01T00:00:00.000Z" (sample_results 3 7) H1 H2).
Defined.

(** ** The empty report *)

(** C10. With no record collected, the report is still built and
    written: total_packages = 0, packages_with_attestations = 0, an empty
    packages array and the attestation_percentage NaN, the unguarded
    quotient 0 / 0.  [main] (either checker) writes a report whenever the
    ranked list could be fetched, and this report whenever it has no entry:
    so when the ranking is empty, and when every lookup fails. *)
Theorem empty_report_has_nan_percentage :
  (∀ now, build_report now [] = empty_report now)
  ∧ Number.div (Number.of_nat 0) (Number.of_nat 0) = Number.NaN
  ∧ percentage_string 0 0 = "NaN"
  ∧ (∀ upstream sched now,
        match VersionScoped.main upstream sched now with
        | (Written report, _) => Report.packages report = [] → report = empty_report now
        | (Exit1 e, _) =>
            (run upstream (fetchTopNpmPackages (λ pkg, pkg) 500) []).1 = Err e
        end)
  ∧ (∀ upstream sched now,
        match FullDocument.main upstream sched now with
        | (Written report, _) => Report.packages report = [] → report = empty_report now
        | (Exit1 e, _) =>
            (run upstream (fetchTopNpmPackages EcosystemsPackage.name 500) []).1 = Err e
        end)
  ∧ (∀ sched now,
        (VersionScoped.main empty_ranking sched now).1 = Written (empty_report now)
        ∧ (FullDocument.main empty_ranking sched now).1 = Written (empty_report now)
        ∧ (VersionScoped.main unknown_package_source [] now).1 = Written (empty_report now)
        ∧ (FullDocument.main unknown_package_source [] now).1 = Written (empty_report now)).
Proof.
  assert (Hempty : ∀ now, build_report now [] = empty_report now) by (intros; by vm_compute).
  split; [done|]. split; [by vm_compute|]. split; [by vm_compute|].
  split; [|split].
  - intros upstream sched now. unfold VersionScoped.main.
    pose proof (main_summary (λ pkg, pkg) VersionScoped.fetchPackageAttestation upstream
                  _ sched now (version_scoped_always upstream)) as H.
    destruct (main _ _ _ _ _) as [[report|e] tr].
    + rewrite <- Hempty. apply H. intros pkg o r Ho ->.
      by destruct (Ho r eq_refl) as [(_ & _ & _ & ? & _) _].
    + apply H. intros pkg o r Ho ->. by destruct (Ho r eq_refl) as [(_ & _ & _ & ? & _) _].
  - intros upstream sched now. unfold FullDocument.main.
    pose proof (main_summary EcosystemsPackage.name FullDocument.fetchPackageAttestation
                  upstream _ sched now (full_document_always upstream)) as H.
    destruct (main _ _ _ _ _) as [[report|e] tr].
    + rewrite <- Hempty. apply H. intros pkg o r Ho ->.
      by destruct (Ho r eq_refl) as [(_ & _ & ? & _) _].
    + apply H. intros pkg o r Ho ->. by destruct (Ho r eq_refl) as [(_ & _ & ? & _) _].
  - intros sched now. rewrite <- Hempty. repeat split.
Qed.

(** * Further properties *)

(** ** The retrying fetch, for any budget *)

Section RetryBudget.

Context {B : Type}.
Variable upstream : Upstream B.

Lemma total_sleep_app (tr1 tr2 : list (Event B)) :
  total_sleep (tr1 ++ tr2) = total_sleep tr1 + total_sleep tr2.
Proof. induction tr1 as [|[] tr1 IH]; simpl; lia. Qed.

Lemma total_sleep_silent (tr : list (Event B)) : total_sleep (silent tr) = total_sleep tr.
Proof. unfold silent. induction tr as [|[] tr IH]; simpl; rewrite ?IH; done. Qed.

Lemma total_sleep_backoff (d : Z) (url : string) (k : nat) (answers : list (FetchOutcome B)) :
  (1 ≤ k)%nat → answers ≠ [] →
  total_sleep (backoff d url k answers)
  = d * 2 ^ (Z.of_nat k - 1) * (2 ^ (Z.of_nat (length answers) - 1) - 1).
Proof.
  intros Hk. revert k Hk. induction answers as [|o [|o' rest] IH]; intros k Hk Hne.
  - done.
  - simpl. lia.
  - change (total_sleep (backoff d url k (o :: o' :: rest)))
      with (d * 2 ^ (Z.of_nat k - 1) + total_sleep (backoff d url (S k) (o' :: rest))).
    rewrite IH by (try lia; done).
    replace (Z.of_nat (S k) - 1) with (Z.succ (Z.of_nat k - 1)) by lia.
    replace (Z.of_nat (length (o :: o' :: rest)) - 1)
      with (Z.succ (Z.of_nat (length (o' :: rest)) - 1)) by (simpl length; lia).
    rewrite (Z.pow_succ_r 2 (Z.of_nat k - 1)) by lia.
    rewrite (Z.pow_succ_r 2 (Z.of_nat (length (o' :: rest)) - 1)) by (simpl length; lia).
    ring.
Qed.

(** X1. The retry budget decides how often [fetchWithRetry] asks.  With a
    budget of 0 the loop body never runs: no request is made and the error
    "Unreachable" is thrown.  With a budget of at least 1 it makes between
    one request and the budget, all to the URL, and the outcome is read off
    the last answer alone: an ok response is returned, a non-ok one raises
    the HTTP error of its status, a rejected fetch propagates; "Unreachable"
    is never thrown then. *)
Theorem fetchWithRetry_budget (url : string) (baseDelay : Z) (tr : list (Event B)) :
  run upstream (fetchWithRetry_with url 0 baseDelay) tr = (Err Unreachable, tr)
  ∧ ∀ retries, (1 ≤ retries)%nat →
      ∃ res answers ev,
        run upstream (fetchWithRetry_with url retries baseDelay) tr = (res, tr ++ ev)
        ∧ fetches ev = (λ o, (url, o)) <$> answers
        ∧ (1 ≤ length answers ≤ retries)%nat
        ∧ match res with
          | Ok r => last answers = Some (Resp r) ∧ ok r = true
          | Err e =>
              (last answers = Some Rejected ∧ e = NetworkError)
              ∨ ∃ r, last answers = Some (Resp r) ∧ ok r = false ∧ e = HttpError (status r)
          end.
Proof.
  split; [reflexivity|]. intros retries Hpos.
  destruct (retry_loop_spec upstream url retries baseDelay retries 1 tr)
    as (res & answers & ev & Hrun & _ & Hsil & Hlen & _ & Hver); [lia..|].
  exists res, answers, ev. split; [exact Hrun|].
  split; [by rewrite <- fetches_silent, Hsil, fetches_backoff_timers|].
  split; [done|].
  unfold verdict in Hver. destruct (last answers) as [[|r]|]; [| |done].
  - subst res. by left.
  - destruct (ok r) eqn:Hok; [by subst res|].
    destruct Hver as [-> _]. right. by exists r.
Qed.

Lemma timer_range (delay : Z) : 1 ≤ timer delay ≤ TIMEOUT_MAX.
Proof.
  unfold timer. destruct (1 <=? delay) eqn:Hlo; simpl; [|by vm_compute].
  destruct (delay <=? TIMEOUT_MAX) eqn:Hhi; [|by vm_compute].
  apply Z.leb_le in Hlo, Hhi. lia.
Qed.

Lemma backoff_timers_delays (baseDelay : Z) (url : string) (k : nat)
    (answers : list (FetchOutcome B)) :
  Forall (λ ev, match ev with ESleep ms => 1 ≤ ms ≤ TIMEOUT_MAX | _ => True end)
    (backoff_timers baseDelay url k answers).
Proof.
  revert k. induction answers as [|o [|o' rest] IH]; intros k.
  - constructor.
  - by repeat constructor.
  - change (backoff_timers baseDelay url k (o :: o' :: rest))
      with (EFetch url o :: ESleep (timer (baseDelay * 2 ^ (Z.of_nat k - 1)))
              :: backoff_timers baseDelay url (S k) (o' :: rest)).
    constructor; [done|]. constructor; [apply timer_range | apply IH].
Qed.

Lemma Forall_silent (R : Event B → Prop) (tr : list (Event B)) :
  (∀ l, R (ELog l)) → Forall R (silent tr) → Forall R tr.
Proof.
  intros Hlog. unfold silent. induction tr as [|[] tr IH]; simpl; intros H;
    try (inversion H; subst); constructor; auto.
Qed.

(** X2. The time a call spends waiting.  Whatever the budget and the
    (integer) base delay, every delay of a call is between 1 ms and
    2^31 - 1 ms, the range of a timer.  When the base delay is at least
    1 ms and the largest delay the budget allows,
    [baseDelay * 2^(retries-2)], is within that range, the waiting is
    fixed by the number of requests the call made: [n] requests cost
    [baseDelay * (2^(n-1) - 1)] ms of delay, each retry doubling the
    previous delay.  With the defaults (3 attempts, 1000 ms) a call waits
    0, 1000 or 3000 ms in all. *)
Theorem fetchWithRetry_waiting (url : string) (tr : list (Event B)) :
  (∀ retries baseDelay, (1 ≤ retries)%nat →
     ∃ res ev,
       run upstream (fetchWithRetry_with url retries baseDelay) tr = (res, tr ++ ev)
       ∧ (1 ≤ length (fetches ev) ≤ retries)%nat
       ∧ Forall (λ ev, match ev with ESleep ms => 1 ≤ ms ≤ TIMEOUT_MAX | _ => True end) ev
       ∧ (1 ≤ baseDelay → baseDelay * 2 ^ (Z.of_nat retries - 2) ≤ TIMEOUT_MAX →
          total_sleep ev = baseDelay * (2 ^ (Z.of_nat (length (fetches ev)) - 1) - 1)))
  ∧ ∃ res ev,
      run upstream (fetchWithRetry url) tr = (res, tr ++ ev)
      ∧ (total_sleep ev = 0 ∨ total_sleep ev = 1000 ∨ total_sleep ev = 3000).
Proof.
  assert (Hgen : ∀ retries baseDelay, (1 ≤ retries)%nat →
     ∃ res ev,
       run upstream (fetchWithRetry_with url retries baseDelay) tr = (res, tr ++ ev)
       ∧ (1 ≤ length (fetches ev) ≤ retries)%nat
       ∧ Forall (λ ev, match ev with ESleep ms => 1 ≤ ms ≤ TIMEOUT_MAX | _ => True end) ev
       ∧ (1 ≤ baseDelay → baseDelay * 2 ^ (Z.of_nat retries - 2) ≤ TIMEOUT_MAX →
          total_sleep ev = baseDelay * (2 ^ (Z.of_nat (length (fetches ev)) - 1) - 1))).
  { intros retries baseDelay Hpos.
    destruct (retry_loop_spec upstream url retries baseDelay retries 1 tr)
      as (res & answers & ev & Hrun & _ & Hsil & Hlen & _ & _); [lia..|].
    exists res, ev. split; [exact Hrun|].
    assert (Hf : length (fetches ev) = length answers).
    { by rewrite <- fetches_silent, Hsil, fetches_backoff_timers, length_fmap. }
    rewrite Hf. split; [done|]. split.
    { apply Forall_silent; [done|]. rewrite Hsil. apply backoff_timers_delays. }
    intros Hbase Hmax.
    rewrite <- total_sleep_silent, Hsil, backoff_timers_in_range, total_sleep_backoff;
      [|lia| |].
    - change (Z.of_nat 1 - 1) with 0. rewrite Z.pow_0_r. lia.
    - intros ->. simpl in Hlen. lia.
    - intros j Hj Hlt.
      assert (Hpow : 1 ≤ 2 ^ (Z.of_nat j - 1)) by (apply Z.pow_le_mono_r with (b := 0); lia).
      assert (Hle : 2 ^ (Z.of_nat j - 1) ≤ 2 ^ (Z.of_nat retries - 2))
        by (apply Z.pow_le_mono_r; lia).
      nia. }
  split; [exact Hgen|].
  destruct (Hgen 3%nat 1000 ltac:(lia)) as (res & ev & Hrun & Hlen & _ & Hsleep).
  exists res, ev. split; [exact Hrun|]. rewrite Hsleep by (by vm_compute).
  destruct (length (fetches ev)) as [|[|[|[|n]]]]; simpl in Hlen; lia.
Qed.

End RetryBudget.

(** A budget of two attempts, the first answered 503. *)
Lemma fetchWithRetry_budget_witness :
  (1 ≤ 2)%nat
  ∧ ∃ res answers ev,
      run (scripted [http 503 None; http 200 None])
        (fetchWithRetry_with (B:=unit) "u" 2 100) []
      = (res, [] ++ ev)
      ∧ fetches ev = (λ o, ("u", o)) <$> answers
      ∧ (1 ≤ length answers ≤ 2)%nat
      ∧ match res with
        | Ok r => last answers = Some (Resp r) ∧ ok r = true
        | Err e =>
            (last answers = Some Rejected ∧ e = NetworkError)
            ∨ ∃ r, last answers = Some (Resp r) ∧ ok r = false ∧ e = HttpError (status r)
        end.
Proof.
  split; [lia|].
  exact (proj2 (fetchWithRetry_budget (scripted [http 503 None; http 200 None]) "u" 100 [])
           2%nat ltac:(lia)).
Defined.

(** Four attempts from a base delay of 100 ms, the first two answered 503. *)
Lemma fetchWithRetry_waiting_witness :
  (1 ≤ 4)%nat
  ∧ ∃ res ev,
      run (scripted [http 503 None; http 502 None; http 200 None])
        (fetchWithRetry_with (B:=unit) "u" 4 100) []
      = (res, [] ++ ev)
      ∧ (1 ≤ length (fetches ev) ≤ 4)%nat
      ∧ Forall (λ ev, match ev with ESleep ms => 1 ≤ ms ≤ TIMEOUT_MAX | _ => True end) ev
      ∧ total_sleep ev = 100 * (2 ^ (Z.of_nat (length (fetches ev)) - 1) - 1).
Proof.
  split; [lia|].
  destruct (proj1 (fetchWithRetry_waiting (B:=unit)
                     (scripted [http 503 None; http 502 None; http 200 None]) "u" [])
              4%nat 100 ltac:(lia))
    as (res & ev & Hrun & Hlen & Hrange & Hsleep).
  exists res, ev. split; [exact Hrun|]. split; [exact Hlen|]. split; [exact Hrange|].
  apply Hsleep; [lia | by vm_compute].
Defined.

(** ** The shape of a listing *)

Section ListerShapeLemmas.

Context {M P : Type}.
Variable select : EcosystemsPackage.t → P.
Variable upstream : Upstream (Json M).

Lemma silent_app {B} (tr1 tr2 : list (Event B)) :
  silent (tr1 ++ tr2) = silent tr1 ++ silent tr2.
Proof. unfold silent. induction tr1 as [|[] tr1 IH]; simpl; by rewrite ?IH. Qed.

Lemma verdict_err {B} (budget : nat) (answers : list (FetchOutcome B)) e :
  verdict budget answers (Err e) →
  (last answers = Some Rejected ∧ e = NetworkError)
  ∨ ∃ r, last answers = Some (Resp r) ∧ ok r = false ∧ e = HttpError (status r).
Proof.
  unfold verdict. destruct (last answers) as [[|r]|]; [| |done].
  - intros [= ->]. by left.
  - destruct (ok r) eqn:Hok; [done|]. intros [[= ->] _]. right. by exists r.
Qed.

Lemma page_loop_shape (totalPages remaining page : nat) (acc : list P)
    (tr : list (Event (Json M))) :
  (page + remaining = S totalPages)%nat →
  ∃ res ev rounds,
    run upstream (page_loop select totalPages remaining page acc) tr = (res, tr ++ ev)
    ∧ silent ev = page_trace page rounds
    ∧ Forall (λ answers, 1 ≤ length answers ≤ 3)%nat rounds
    ∧ (length rounds ≤ remaining)%nat
    ∧ (1 ≤ remaining → 1 ≤ length rounds)%nat
    ∧ match res with
      | Ok _ =>
          ∀ answers o, last rounds = Some answers → last answers = Some o →
                       page_failure o = None
      | Err e =>
          ∃ answers o, last rounds = Some answers ∧ last answers = Some o
                       ∧ page_failure o = Some e
      end.
Proof.
  revert page acc tr. induction remaining as [|remaining IH]; intros page acc tr Hsum.
  { exists (Ok acc), [], []. cbn [page_loop].
    replace (page <=? totalPages)%nat with false by (symmetry; apply Nat.leb_gt; lia).
    simpl. rewrite app_nil_r. repeat split; auto; try lia. intros ? ? [=]. }
  cbn [page_loop]. replace (page <=? totalPages)%nat with true
    by (symmetry; apply Nat.leb_le; lia).
  cbn [run]. rewrite run_bind.
  set (l0 := ELog (LFetchingPage page totalPages)).
  set (tr1 := tr ++ [l0]).
  destruct (fetchWithRetry_run upstream (page_url page) tr1)
    as (res1 & answers & ev1 & Hrun1 & _ & Hsil1 & Hlen1 & _ & Hver1).
  rewrite Hrun1.
  assert (Hone : ∀ (res : Result (list P)) (ev2 : list (Event (Json M))),
             silent ev2 = [] →
             match res with
             | Ok _ => ∀ o, last answers = Some o → page_failure o = None
             | Err e => ∃ o, last answers = Some o ∧ page_failure o = Some e
             end →
             ∃ res' ev rounds,
               (res, (tr1 ++ ev1) ++ ev2) = (res', tr ++ ev)
               ∧ silent ev = page_trace page rounds
               ∧ Forall (λ answers, 1 ≤ length answers ≤ 3)%nat rounds
               ∧ (length rounds ≤ S remaining)%nat
               ∧ (1 ≤ S remaining → 1 ≤ length rounds)%nat
               ∧ match res' with
                 | Ok _ =>
                     ∀ answers o, last rounds = Some answers → last answers = Some o →
                                  page_failure o = None
                 | Err e =>
                     ∃ answers o, last rounds = Some answers ∧ last answers = Some o
                                  ∧ page_failure o = Some e
                 end).
  { intros res ev2 Hsil2 Hres. exists res, (l0 :: ev1 ++ ev2), [answers].
    split; [subst tr1; by rewrite <- !app_assoc|].
    split.
    { change (silent (l0 :: ev1 ++ ev2)) with (silent (ev1 ++ ev2)).
      rewrite silent_app, Hsil1, Hsil2. done. }
    split; [by constructor|]. split; [simpl; lia|]. split; [simpl; lia|].
    destruct res as [all|e].
    - intros ? o [= <-]. apply Hres.
    - destruct Hres as (o & Hl & Hf). by exists answers, o. }
  destruct res1 as [response|e].
  2:{ rewrite <- (app_nil_r (tr1 ++ ev1)). apply Hone; [done|].
      destruct (verdict_err _ _ _ Hver1) as [[Hl ->]|(r & Hl & Hok & ->)].
      - by exists Rejected.
      - exists (Resp r). split; [done|]. simpl. by rewrite Hok. }
  apply verdict_ok in Hver1 as [Hlast Hok].
  rewrite run_bind. unfold response_json.
  destruct (json response) as [data|] eqn:Hjson; simpl.
  2:{ rewrite <- (app_nil_r (tr1 ++ ev1)). apply Hone; [done|].
      exists (Resp response). split; [done|]. simpl. by rewrite Hok, Hjson. }
  destruct data as [items|m]; simpl.
  2:{ apply Hone; [done|].
      exists (Resp response). split; [done|]. simpl. by rewrite Hok, Hjson. }
  assert (Hfine : page_failure (Resp response) = None).
  { simpl. by rewrite Hok, Hjson. }
  set (acc' := acc ++ map select items).
  set (l1 := ELog (LRetrieved (Some (length items)) page)).
  set (l2 := ELog (LTotalSoFar (length acc'))).
  destruct (length items <? perPage)%nat eqn:Hshort; simpl.
  { replace ((((tr1 ++ ev1) ++ [l1]) ++ [l2]) ++ [ELog (LReachedEnd page)])
      with ((tr1 ++ ev1) ++ [l1; l2; ELog (LReachedEnd page)])
      by (by rewrite <- !app_assoc).
    apply (Hone (Ok acc')); [done|]. intros o Ho. rewrite Hlast in Ho. by injection Ho as <-. }
  set (between := if (page <? totalPages)%nat
                  then [l1; l2; ELog LWaiting; ESleep 500] else [l1; l2]).
  destruct (IH (S page) acc' ((tr1 ++ ev1) ++ between))
    as (res & ev & rounds & Hrun & Hsil & Hall & Hlen & Hpos & Hres); [lia|].
  exists res, (l0 :: ev1 ++ between ++ ev), (answers :: rounds).
  split.
  { subst between tr1. destruct (page <? totalPages)%nat; simpl;
      rewrite <- !app_assoc in *; simpl in *; exact Hrun. }
  split.
  { change (silent (l0 :: ev1 ++ between ++ ev)) with (silent (ev1 ++ between ++ ev)).
    rewrite !silent_app, Hsil1, Hsil. cbn [page_trace]. f_equal.
    subst between. destruct (page <? totalPages)%nat eqn:Hlt.
    - apply Nat.ltb_lt in Hlt. destruct rounds as [|a rounds]; [simpl in Hpos; lia|done].
    - apply Nat.ltb_ge in Hlt. destruct rounds as [|a rounds]; [done|simpl in Hlen; lia]. }
  split; [by constructor|]. split; [simpl; lia|]. split; [simpl; lia|].
  destruct rounds as [|a rounds].
  - simpl in Hsil. destruct res as [all|e].
    + intros ? o [= <-] Ho. rewrite Hlast in Ho. by injection Ho as <-.
    + by destruct Hres as (? & ? & [=] & _).
  - exact Hres.
Qed.

Lemma pauses_app {B} (ms : Z) (tr1 tr2 : list (Event B)) :
  pauses ms (tr1 ++ tr2) = (pauses ms tr1 + pauses ms tr2)%nat.
Proof. unfold pauses. by rewrite List.filter_app, length_app. Qed.

Lemma pauses_silent {B} (ms : Z) (tr : list (Event B)) : pauses ms (silent tr) = pauses ms tr.
Proof.
  unfold pauses, silent. induction tr as [|[] tr IH]; simpl; auto.
  destruct (ms0 =? ms); simpl; by rewrite IH.
Qed.

Lemma pauses_backoff {B} (url : string) (k : nat) (answers : list (FetchOutcome B)) :
  (1 ≤ k)%nat → pauses 500 (backoff 1000 url k answers) = 0%nat.
Proof.
  revert k. induction answers as [|o [|o' rest] IH]; intros k Hk; try done.
  change (backoff 1000 url k (o :: o' :: rest))
    with (EFetch url o :: ESleep (1000 * 2 ^ (Z.of_nat k - 1))
            :: backoff 1000 url (S k) (o' :: rest)).
  unfold pauses in *. cbn [List.filter].
  assert (Hpow : 0 < 2 ^ (Z.of_nat k - 1)) by (apply Z.pow_pos_nonneg; lia).
  replace (1000 * 2 ^ (Z.of_nat k - 1) =? 500) with false by (symmetry; apply Z.eqb_neq; lia).
  apply IH. lia.
Qed.

Lemma pauses_page_trace (page : nat) (rounds : list (list (FetchOutcome (Json M)))) :
  pauses 500 (page_trace page rounds) = (length rounds - 1)%nat.
Proof.
  revert page. induction rounds as [|answers [|next rest] IH]; intros page; [done| |].
  - cbn [page_trace]. rewrite app_nil_r. by apply pauses_backoff.
  - change (page_trace page (answers :: next :: rest))
      with (backoff 1000 (page_url page) 1 answers
              ++ ESleep 500 :: page_trace (S page) (next :: rest)).
    rewrite pauses_app, pauses_backoff by done.
    change (pauses 500 (ESleep 500 :: page_trace (S page) (next :: rest)))
      with (S (pauses 500 (page_trace (S page) (next :: rest)))).
    rewrite IH. simpl. lia.
Qed.

Lemma last_fetches_page_trace (page : nat) (rounds : list (list (FetchOutcome (Json M)))) :
  Forall (λ answers, 1 ≤ length answers ≤ 3)%nat rounds →
  snd <$> last (fetches (page_trace page rounds)) = last rounds ≫= last.
Proof.
  revert page. induction rounds as [|answers [|next rest] IH]; intros page Hall; [done| |].
  - cbn [page_trace]. rewrite app_nil_r, fetches_backoff. simpl.
    rewrite fmap_last. by destruct (last answers).
  - change (page_trace page (answers :: next :: rest))
      with (backoff 1000 (page_url page) 1 answers
              ++ ESleep 500 :: page_trace (S page) (next :: rest)).
    rewrite fetches_app.
    change (fetches (ESleep 500 :: page_trace (S page) (next :: rest)))
      with (fetches (page_trace (S page) (next :: rest))).
    rewrite last_app. inversion Hall as [|? ? _ Hrest]; subst.
    specialize (IH (S page) Hrest). rewrite last_cons_cons.
    destruct (last (fetches (page_trace (S page) (next :: rest)))) as [f|]; [exact IH|].
    exfalso. simpl in IH. symmetry in IH.
    destruct (last (next :: rest)) as [a|] eqn:Hl; [|by apply last_None in Hl].
    simpl in IH. apply last_None in IH. subst a.
    apply last_Some in Hl as [l' Hl]. rewrite Forall_forall in Hrest.
    assert (Hin : [] ∈ next :: rest) by (rewrite Hl; apply elem_of_app; right; constructor).
    specialize (Hrest [] Hin). simpl in Hrest. lia.
Qed.

(** X3. Every run of [fetchTopNpmPackages] is a sequence of page requests, each
    a retried fetch of one to three attempts, with a pause of 500 ms between
    two consecutive page requests and none after the last: apart from the
    console output, the requests and delays of a run are exactly these.  A
    run that asked for [k] pages paused for 500 ms [k - 1] times; a positive
    limit makes it ask for at least one page. *)
Theorem fetchTopNpmPackages_pacing (limit : nat) (tr : list (Event (Json M))) :
  ∃ res ev rounds,
    run upstream (fetchTopNpmPackages select limit) tr = (res, tr ++ ev)
    ∧ silent ev = page_trace 1 rounds
    ∧ Forall (λ answers, 1 ≤ length answers ≤ 3)%nat rounds
    ∧ (length rounds ≤ ceil_div limit 100)%nat
    ∧ (limit = 0%nat ∨ 1 ≤ length rounds)%nat
    ∧ pauses 500 ev = (length rounds - 1)%nat.
Proof.
  unfold fetchTopNpmPackages. rewrite run_catch. cbn [run]. rewrite run_bind.
  set (l0 := ELog (LFetchingTop limit (ceil_div limit perPage))).
  destruct (page_loop_shape (ceil_div limit perPage) (ceil_div limit perPage) 1 []
              (tr ++ [l0]))
    as (res & ev & rounds & Hrun & Hsil & Hall & Hlen & Hpos & _); [lia|].
  rewrite Hrun.
  assert (Hone : limit = 0%nat ∨ (1 ≤ length rounds)%nat).
  { destruct limit as [|limit]; [by left|]. right. apply Hpos.
    unfold ceil_div, perPage. apply Nat.div_str_pos. lia. }
  destruct res as [all|e]; cbn [run].
  - exists (Ok (Js.slice 0 limit all)), (l0 :: ev), rounds.
    split; [by rewrite <- app_assoc|]. split; [exact Hsil|].
    split; [done|]. split; [done|]. split; [done|].
    change (pauses 500 (l0 :: ev)) with (pauses 500 ev).
    by rewrite <- pauses_silent, Hsil, pauses_page_trace.
  - exists (Err e), (l0 :: ev ++ [ELog (LErrorFetching e)]), rounds.
    split; [by rewrite <- !app_assoc|].
    assert (Hsil' : silent (l0 :: ev ++ [ELog (LErrorFetching e)]) = page_trace 1 rounds).
    { change (silent (l0 :: ev ++ [ELog (LErrorFetching e)]))
        with (silent (ev ++ [ELog (LErrorFetching e)])).
      rewrite silent_app, Hsil. apply app_nil_r. }
    split; [exact Hsil'|]. split; [done|]. split; [done|]. split; [done|].
    by rewrite <- pauses_silent, Hsil', pauses_page_trace.
Qed.

Lemma listing_ends (limit : nat) (tr : list (Event (Json M))) :
  ∃ res ev,
    run upstream (fetchTopNpmPackages select limit) tr = (res, tr ++ ev)
    ∧ match res with
      | Ok _ => ∀ url o, last (fetches ev) = Some (url, o) → page_failure o = None
      | Err e =>
          (∃ url o, last (fetches ev) = Some (url, o) ∧ page_failure o = Some e)
          ∧ last ev = Some (ELog (LErrorFetching e))
      end.
Proof.
  unfold fetchTopNpmPackages. rewrite run_catch. cbn [run]. rewrite run_bind.
  set (l0 := ELog (LFetchingTop limit (ceil_div limit perPage))).
  destruct (page_loop_shape (ceil_div limit perPage) (ceil_div limit perPage) 1 []
              (tr ++ [l0]))
    as (res & ev & rounds & Hrun & Hsil & Hall & _ & _ & Hres); [lia|].
  rewrite Hrun.
  pose proof (last_fetches_page_trace 1 rounds Hall) as Hlast.
  rewrite <- Hsil, fetches_silent in Hlast.
  destruct res as [all|e]; cbn [run].
  - exists (Ok (Js.slice 0 limit all)), (l0 :: ev).
    split; [by rewrite <- app_assoc|].
    change (fetches (l0 :: ev)) with (fetches ev). intros url o Hl.
    rewrite Hl in Hlast. simpl in Hlast.
    destruct (last rounds) as [answers|] eqn:Hr; [|done]. simpl in Hlast.
    by apply (Hres answers o).
  - exists (Err e), (l0 :: ev ++ [ELog (LErrorFetching e)]).
    split; [by rewrite <- !app_assoc|]. split.
    + change (fetches (l0 :: ev ++ [ELog (LErrorFetching e)]))
        with (fetches (ev ++ [ELog (LErrorFetching e)])).
      rewrite fetches_app. change (fetches [ELog (LErrorFetching e)]) with (@nil (string * FetchOutcome (Json M))).
      rewrite app_nil_r.
      destruct Hres as (answers & o & Hr & Ho & Hf).
      rewrite Hr in Hlast. simpl in Hlast. rewrite Ho in Hlast.
      destruct (last (fetches ev)) as [[url o']|]; [|done].
      injection Hlast as ->. by exists url, o.
    + by rewrite app_comm_cons, last_snoc.
Qed.


End ListerShapeLemmas.

(** ** What a lookup asks and when it yields a record *)

Lemma version_entry_is_Some (entries : gmap string NpmVersionMetadata.t) (key : string) :
  is_Some (FullDocument.version_entry entries key)
  ↔ is_Some (entries !! key) ∨ key ∈ JsObject.prototype.
Proof.
  unfold FullDocument.version_entry, JsObject.get.
  destruct (entries !! key) as [versionData|].
  - split; [by left | by eexists].
  - destruct (bool_decide_reflect (key ∈ JsObject.prototype)) as [Hin|Hout].
    + split; [by right | by eexists].
    + split; [by intros [] | by intros [[]|]].
Qed.

Lemma version_entry_own (entries : gmap string NpmVersionMetadata.t) (key : string)
    (versionData : NpmVersionMetadata.t) :
  entries !! key = Some versionData →
  FullDocument.version_entry entries key = Some versionData.
Proof. unfold FullDocument.version_entry, JsObject.get. by intros ->. Qed.

Section LookupLemmas.

Context {B A : Type}.
Variable upstream : Upstream B.

(** A retried fetch followed by [response.json()]: the continuation runs
    on the body of the last answer when that is usable, and an error is
    thrown otherwise. *)
Lemma fetch_json_run (url : string) (f : B → Prog B A) (tr : list (Event B)) :
  ∃ answers ev,
    (1 ≤ length answers ≤ 3)%nat
    ∧ fetches ev = (λ o, (url, o)) <$> answers
    ∧ ((∃ body, last answers ≫= usable_body = Some body
                ∧ run upstream (bind (fetchWithRetry url)
                                  (λ response, bind (response_json response) f)) tr
                  = run upstream (f body) (tr ++ ev))
       ∨ (last answers ≫= usable_body = None
          ∧ ∃ e, run upstream (bind (fetchWithRetry url)
                                 (λ response, bind (response_json response) f)) tr
                 = (Err e, tr ++ ev))).
Proof.
  destruct (fetchWithRetry_run upstream url tr)
    as (res & answers & ev & Hrun & _ & Hsil & Hlen & _ & Hver).
  exists answers, ev. split; [done|].
  split; [by rewrite <- fetches_silent, Hsil, fetches_backoff|].
  rewrite run_bind, Hrun. destruct res as [response|e].
  - unfold verdict in Hver. destruct (last answers) as [[|r]|] eqn:Hl; try done.
    destruct (ok r) eqn:Hok; [|by destruct Hver]. injection Hver as ->.
    rewrite run_bind. unfold response_json. simpl. rewrite Hok.
    destruct (json r) as [body|]; simpl.
    + left. by exists body.
    + right. split; [done|]. by exists SyntaxError.
  - right. split; [|by exists e].
    unfold verdict in Hver. destruct (last answers) as [[|r]|]; try done.
    simpl. destruct (ok r); [done|done].
Qed.

End LookupLemmas.


(** X6. The full-document lookup never throws.  It makes one to three
    requests, all to the URL of the package's document, and it yields a
    record exactly when the last answer is an ok response whose body parses
    to a document with a latest version that the lookup in its version map
    finds: the map has an entry for it, or it is the name of a member of
    [Object.prototype] (such as "constructor"), which the lookup finds in
    every map.  The record then carries that version. *)
Theorem full_document_lookup (upstream : Upstream FullDocument.Body)
    (packageName : string) (tr : list (Event FullDocument.Body)) :
  ∃ o answers ev,
    run upstream (FullDocument.fetchPackageAttestation packageName) tr = (Ok o, tr ++ ev)
    ∧ fetches ev = (λ a, (FullDocument.package_url packageName, a)) <$> answers
    ∧ (1 ≤ length answers ≤ 3)%nat
    ∧ (is_Some o ↔ ∃ body, last answers ≫= usable_body = Some body
                            ∧ finds_latest_entry (FullDocument.as_metadata body))
    ∧ (∀ r body, o = Some r → last answers ≫= usable_body = Some body →
         AttestationResult.version r = FullDocument.latest_tag (FullDocument.as_metadata body)).
Proof.
  unfold FullDocument.fetchPackageAttestation.
  rewrite run_catch. cbn [run].
  set (l0 := ELog (LCheckingPackage packageName)).
  match goal with
  | |- context [bind (fetchWithRetry ?url) (λ response, bind (response_json response) ?f)] =>
      destruct (fetch_json_run upstream url f (tr ++ [l0]))
        as (answers & ev & Hlen & Hf & Hcases)
  end.
  destruct Hcases as [(body & Hbody & Hrun)|(Hnone & e & Hrun)];
    rewrite Hrun; clear Hrun.
  - assert (Hfe : ∀ e, fetches (l0 :: ev ++ [ELog (LErrorChecking packageName e)])
                       = (λ a, (FullDocument.package_url packageName, a)) <$> answers).
    { intros e.
      change (fetches (l0 :: ev ++ [ELog (LErrorChecking packageName e)]))
        with (fetches (ev ++ [ELog (LErrorChecking packageName e)])).
      rewrite fetches_app, Hf. apply app_nil_r. }
    unfold FullDocument.read_metadata, finds_latest_entry.
    destruct (truthy (FullDocument.latest_tag (FullDocument.as_metadata body))) eqn:Hv;
      cbn [negb].
    2:{ cbn [run]. exists None, answers, (l0 :: ev).
        split; [by rewrite <- app_assoc|]. split; [exact Hf|]. split; [done|].
        split; [|done]. split; [by intros []|].
        intros (body' & Hb & Ht & _). rewrite Hbody in Hb. injection Hb as <-.
        by rewrite Hv in Ht. }
    destruct (NpmPackageMetadata.versions (FullDocument.as_metadata body))
      as [entries|] eqn:Hvs.
    2:{ cbn [run]. exists None, answers, (l0 :: ev ++ [ELog (LErrorChecking packageName TypeError)]).
        split; [by rewrite <- !app_assoc|]. split; [apply Hfe|]. split; [done|].
        split; [|done]. split; [by intros []|].
        intros (body' & Hb & _ & entries & He & _). rewrite Hbody in Hb.
        injection Hb as <-. by rewrite Hvs in He. }
    pose proof (version_entry_is_Some entries
                  (Js.template (FullDocument.latest_tag (FullDocument.as_metadata body))))
      as Hfound.
    destruct (FullDocument.version_entry entries
                (Js.template (FullDocument.latest_tag (FullDocument.as_metadata body))))
      as [versionData|] eqn:He.
    2:{ cbn [run]. exists None, answers, (l0 :: ev).
        split; [by rewrite <- app_assoc|]. split; [exact Hf|]. split; [done|].
        split; [|done]. split; [by intros []|].
        intros (body' & Hb & _ & entries' & He' & Hsome). rewrite Hbody in Hb.
        injection Hb as <-. rewrite Hvs in He'. injection He' as <-.
        apply Hfound in Hsome. by destruct Hsome. }
    cbn [run]. eexists (Some _), answers, (l0 :: ev).
    split; [by rewrite <- app_assoc|]. split; [exact Hf|]. split; [done|].
    split.
    + split; [|done]. intros _. exists body. split; [done|]. split; [done|].
      exists entries. split; [done|]. by apply Hfound.
    + intros r body' [= <-] Hb. rewrite Hbody in Hb. by injection Hb as <-.
  - cbn [run]. exists None, answers, (l0 :: ev ++ [ELog (LErrorChecking packageName e)]).
    split; [by rewrite <- !app_assoc|].
    split.
    { change (fetches (l0 :: ev ++ [ELog (LErrorChecking packageName e)]))
        with (fetches (ev ++ [ELog (LErrorChecking packageName e)])).
      rewrite fetches_app, Hf. apply app_nil_r. }
    split; [done|]. split; [|done]. split; [by intros []|].
    intros (body & Hb & _). by rewrite Hnone in Hb.
Qed.

(** ** The two strategies on consistent sources *)

Lemma usable_body_Some {B} (o : FetchOutcome B) (body : B) :
  usable_body o = Some body → ∃ r, o = Resp r ∧ ok r = true ∧ json r = Some body.
Proof.
  destruct o as [|r]; [done|]. simpl. destruct (ok r) eqn:Hok; [|done].
  intros Hj. by exists r.
Qed.

(** X7. The two lookups are interchangeable when their sources agree.  If the
    ranking names [v] as the latest version of a package, the package's
    full document names the same [v] and holds the entry [m] for it, the
    publication time and repository URL the lookups read from the document
    are those of the ranking (up to empty values), and the registry serves
    [m] at the
    version URL and the document at the package URL, then both lookups
    yield the same record, after one request each. *)
Theorem strategies_agree (pkg : EcosystemsPackage.t) (v : string)
    (doc : NpmPackageMetadata.t) (entries : gmap string NpmVersionMetadata.t)
    (m : NpmVersionMetadata.t)
    (registry_v : Upstream VersionScoped.Body) (registry_f : Upstream FullDocument.Body) :
  EcosystemsPackage.latest_release_number pkg = Str v → v ≠ "" →
  FullDocument.latest_tag doc = Str v →
  NpmPackageMetadata.versions doc = Some entries → entries !! v = Some m →
  value_or_empty (FullDocument.time_of doc (Str v))
  = or_empty (EcosystemsPackage.latest_release_published_at pkg) →
  or_empty (FullDocument.repository_url doc)
  = or_empty (EcosystemsPackage.repository_url pkg) →
  (∀ tr, usable_body (registry_v tr (VersionScoped.version_url pkg (Str v)))
         = Some (JObject m)) →
  (∀ tr, usable_body (registry_f tr (FullDocument.package_url (EcosystemsPackage.name pkg)))
         = Some (JObject doc)) →
  ∃ r, ∀ tr1 tr2,
    (∃ o, run registry_v (VersionScoped.fetchPackageAttestation pkg) tr1
          = (Ok (Some r),
             tr1 ++ [ELog (LChecking (EcosystemsPackage.name pkg) (Str v));
                     EFetch (VersionScoped.version_url pkg (Str v)) o]))
    ∧ (∃ o, run registry_f
              (FullDocument.fetchPackageAttestation (EcosystemsPackage.name pkg)) tr2
            = (Ok (Some r),
               tr2 ++ [ELog (LCheckingPackage (EcosystemsPackage.name pkg));
                       EFetch (FullDocument.package_url (EcosystemsPackage.name pkg)) o])).
Proof.
  intros Hv Hne Htag Hvs He Htime Hrepo Hreg_v Hreg_f.
  assert (Htruthy : truthy (Str v) = true).
  { simpl. by destruct (String.eqb_spec v ""). }
  eexists. intros tr1 tr2. split.
  - unfold VersionScoped.fetchPackageAttestation. rewrite Hv, Htruthy. cbn [negb].
    set (l0 := ELog (LChecking (EcosystemsPackage.name pkg) (Str v))).
    destruct (usable_body_Some _ _ (Hreg_v (tr1 ++ [l0]))) as (r & Hr & Hok & Hjson).
    exists (Resp r). rewrite run_catch. cbn [run]. rewrite run_bind.
    unfold fetchWithRetry, fetchWithRetry_with.
    rewrite (retry_loop_first_ok _ _ _ _ _ _ _ r) by (done || lia).
    rewrite run_bind. unfold response_json. rewrite Hjson. cbn [run].
    rewrite <- app_assoc. reflexivity.
  - unfold FullDocument.fetchPackageAttestation.
    set (l0 := ELog (LCheckingPackage (EcosystemsPackage.name pkg))).
    destruct (usable_body_Some _ _ (Hreg_f (tr2 ++ [l0]))) as (r & Hr & Hok & Hjson).
    exists (Resp r). rewrite run_catch. cbn [run]. rewrite run_bind.
    unfold fetchWithRetry, fetchWithRetry_with.
    rewrite (retry_loop_first_ok _ _ _ _ _ _ _ r) by (done || lia).
    rewrite run_bind. unfold response_json. rewrite Hjson. cbn [run].
    unfold FullDocument.read_metadata. cbn [FullDocument.as_metadata].
    rewrite Htag, Htruthy. cbn [negb]. rewrite Hvs. cbn [Js.template].
    rewrite (version_entry_own _ _ _ He).
    cbn [run]. rewrite Htime, Hrepo, <- app_assoc. reflexivity.
Qed.

(** The sample package, whose ranking entry and full document agree. *)
Lemma strategies_agree_witness :
  ∃ r, ∀ tr1 tr2,
    (∃ o, run second_only_source (VersionScoped.fetchPackageAttestation listed_package) tr1
          = (Ok (Some r),
             tr1 ++ [ELog (LChecking "second" (Str "2.0.0"));
                     EFetch (VersionScoped.version_url listed_package (Str "2.0.0")) o]))
    ∧ (∃ o, run second_only_documents (FullDocument.fetchPackageAttestation "second") tr2
            = (Ok (Some r),
               tr2 ++ [ELog (LCheckingPackage "second");
                       EFetch (FullDocument.package_url "second") o])).
Proof.
  apply (strategies_agree listed_package "2.0.0" second_document
           {[ "2.0.0" := second_metadata ]} second_metadata
           second_only_source second_only_documents);
    try reflexivity; [discriminate|..]; intros tr; reflexivity.
Defined.

(** ** Where requests go *)

Section AsksLemmas.

Context {B : Type}.
Variable upstream : Upstream B.
Variable U : string → Prop.

Lemma asked_only_app (tr1 tr2 : list (Event B)) :
  asked_only U (tr1 ++ tr2) ↔ asked_only U tr1 ∧ asked_only U tr2.
Proof. unfold asked_only. by rewrite fetches_app, Forall_app. Qed.

Lemma asks_only_bind {A C} (p : Prog B A) (f : A → Prog B C) :
  asks_only U p → (∀ a, asks_only U (f a)) → asks_only U (bind p f).
Proof. intros Hp Hf. induction p; simpl in *; auto. destruct Hp. auto. Qed.

Lemma asks_only_catch {A} (p : Prog B A) (h : Error → Prog B A) :
  asks_only U p → (∀ e, asks_only U (h e)) → asks_only U (catch p h).
Proof. intros Hp Hh. induction p; simpl in *; auto. destruct Hp. auto. Qed.

Lemma run_asks {A} (p : Prog B A) (tr : list (Event B)) :
  asks_only U p → asked_only U tr → asked_only U (run upstream p tr).2.
Proof.
  revert tr. induction p as [a|e|url k IH|ms k IH|l k IH]; intros tr Hp Htr; simpl in *; auto.
  - destruct Hp as [Hu Hk]. apply IH; [done|].
    apply asked_only_app. split; [done|]. by repeat constructor.
  - apply IH; [done|]. apply asked_only_app. split; [done|]. constructor.
  - apply IH; [done|]. apply asked_only_app. split; [done|]. constructor.
Qed.

Lemma step_asks {A} (p : Prog B A) (tr : list (Event B)) :
  asks_only U p → asked_only U tr →
  asks_only U (step upstream p tr).1 ∧ asked_only U (step upstream p tr).2.
Proof.
  intros Hp Htr. destruct p; simpl in *; auto.
  - destruct Hp as [Hu Hk]. split; [done|].
    apply asked_only_app. split; [done|]. by repeat constructor.
  - split; [done|]. apply asked_only_app. split; [done|]. constructor.
  - split; [done|]. apply asked_only_app. split; [done|]. constructor.
Qed.

Lemma advance_asks {A} (i : nat) (pool : list (Prog B A)) (tr : list (Event B)) :
  Forall (asks_only U) pool → asked_only U tr →
  Forall (asks_only U) (advance upstream i pool tr).1
  ∧ asked_only U (advance upstream i pool tr).2.
Proof.
  intros Hpool Htr. unfold advance. destruct (pool !! i) as [p|] eqn:Hi; [|done].
  destruct (step_asks p tr (Forall_lookup_1 _ _ _ _ Hpool Hi) Htr) as [Hp' Htr'].
  destruct (step upstream p tr) as [p' tr']. simpl in *.
  split; [by apply Forall_insert|done].
Qed.

Lemma finish_in_order_asks {A} (pool : list (Prog B A)) (tr : list (Event B)) :
  Forall (asks_only U) pool → asked_only U tr →
  asked_only U (finish_in_order upstream pool tr).2.
Proof.
  intros Hpool. revert tr. induction Hpool as [|p pool Hp _ IH]; intros tr Htr; simpl; [done|].
  pose proof (run_asks p tr Hp Htr) as Hrun.
  destruct (run upstream p tr) as [[a|e] tr']; simpl in *; [|done].
  specialize (IH tr' Hrun). by destruct (finish_in_order upstream pool tr') as [[rest|e] tr''].
Qed.

Lemma promise_all_asks {A} (sched : list nat) (pool : list (Prog B A))
    (tr : list (Event B)) :
  Forall (asks_only U) pool → asked_only U tr →
  asked_only U (promise_all upstream sched pool tr).1.2.
Proof.
  revert pool tr. induction sched as [|c sched IH]; intros pool tr Hpool Htr;
    cbn [promise_all]; destruct (rejection pool); try done;
    destruct (pending_indices pool) as [|i0 rest]; try done.
  - by apply finish_in_order_asks.
  - generalize (nth (c mod S (length rest)) (i0 :: rest) i0). intros i.
    destruct (advance_asks i pool tr Hpool Htr) as [Hpool' Htr'].
    destruct (advance upstream i pool tr) as [pool' tr']. by apply IH.
Qed.

Lemma retry_loop_asks (url : string) (retries : nat) (baseDelay : Z) (fuel attempt : nat) :
  U url → asks_only U (retry_loop (B:=B) url retries baseDelay fuel attempt).
Proof.
  intros Hu. revert attempt. induction fuel as [|fuel IH]; intros attempt;
    cbn [retry_loop]; destruct (attempt <=? retries)%nat; try done.
  simpl. split; [done|]. intros [|r]; simpl; [done|].
  destruct (ok r); simpl; [done|].
  destruct ((status r >=? 500) && (attempt <? retries)%nat); simpl; [apply IH|done].
Qed.

End AsksLemmas.

Lemma display_logs {B} (packages : list Entry.t) :
  Forall (λ ev, is_log ev = true) (display (B:=B) packages).
Proof.
  unfold display. repeat (apply Forall_app; split).
  - by repeat constructor.
  - destruct (0 <? _)%nat; constructor; [done|]. by apply Forall_fmap, Forall_forall.
  - destruct (0 <? _)%nat; constructor; [done|]. by apply Forall_fmap, Forall_forall.
Qed.

Lemma fetches_logs {B} (tr : list (Event B)) :
  Forall (λ ev, is_log ev = true) tr → fetches tr = [].
Proof. induction 1 as [|[] tr Hl _ IH]; try done. Qed.

Section MainAsks.

Context {M P : Type}.
Variable select : EcosystemsPackage.t → P.
Variable checker : P → Prog (Json M) (option AttestationResult.t).
Variable upstream : Upstream (Json M).
Variable U : string → Prop.

Lemma page_loop_asks (totalPages fuel page : nat) (acc : list P) :
  (∀ p, (page ≤ p ≤ totalPages)%nat → U (page_url p)) →
  asks_only U (page_loop (M:=M) select totalPages fuel page acc).
Proof.
  revert page acc. induction fuel as [|fuel IH]; intros page acc Hu;
    cbn [page_loop]; destruct (page <=? totalPages)%nat eqn:Hle; try done.
  apply Nat.leb_le in Hle. cbn [asks_only].
  apply asks_only_bind; [apply retry_loop_asks, Hu; lia|].
  intros response. apply asks_only_bind; [unfold response_json; by destruct (json response)|].
  intros [items|m]; cbn [asks_only]; [|done].
  destruct (length items <? perPage)%nat; [done|].
  destruct (page <? totalPages)%nat; cbn [asks_only]; apply IH; intros p Hp; apply Hu; lia.
Qed.

Lemma fetchTopNpmPackages_asks (limit : nat) :
  (∀ p, (1 ≤ p ≤ ceil_div limit 100)%nat → U (page_url p)) →
  asks_only U (fetchTopNpmPackages (M:=M) select limit).
Proof.
  intros Hu. unfold fetchTopNpmPackages. apply asks_only_catch; [|done].
  cbn [asks_only]. apply asks_only_bind; [by apply page_loop_asks|done].
Qed.

Lemma batch_loop_asks (topPackages : list P) (fuel i : nat)
    (acc : list AttestationResult.t) (tr : list (Event (Json M))) (sched : list nat) :
  Forall (λ pkg, asks_only U (checker pkg)) topPackages → asked_only U tr →
  asked_only U (batch_loop checker upstream topPackages fuel i acc tr sched).1.2.
Proof.
  intros Hchk. revert i acc tr sched. induction fuel as [|fuel IH]; intros i acc tr sched Htr;
    cbn [batch_loop]; destruct (i <? length topPackages)%nat; try done.
  assert (Hpool : Forall (asks_only U) (map checker (Js.slice i (i + batchSize) topPackages))).
  { apply Forall_fmap. unfold Js.slice. by apply Forall_take, Forall_drop. }
  pose proof (promise_all_asks upstream U sched _ tr Hpool Htr) as Hall.
  destruct (promise_all upstream sched _ tr) as [[[batchResults|e] tr'] sched']; [|done].
  simpl in Hall. apply IH.
  destruct (i + batchSize <? length topPackages)%nat; [|done].
  apply asked_only_app. split; [done|]. constructor.
Qed.

Lemma main_asks (sched : list nat) (now : string) :
  (∀ p, (1 ≤ p ≤ 5)%nat → U (page_url p)) →
  Forall (λ pkg, asks_only U (checker pkg)) (ranked select upstream) →
  asked_only U (main select checker upstream sched now).2.
Proof.
  intros Hpages Hchk. unfold main, ranked in *.
  pose proof (run_asks upstream U (fetchTopNpmPackages select 500) []
                (fetchTopNpmPackages_asks 500 Hpages) (Forall_nil_2 _)) as Hlist.
  destruct (run upstream (fetchTopNpmPackages select 500) []) as [[topPackages|e] tr].
  2:{ simpl in *. apply asked_only_app. split; [done|]. constructor. }
  simpl in Hlist. unfold check_all.
  pose proof (batch_loop_asks topPackages (length topPackages) 0 []
                (tr ++ [ELog (LCheckingAll (length topPackages))]) sched Hchk) as Hloop.
  destruct (batch_loop checker upstream topPackages _ 0 [] _ sched)
    as [[[results|e] tr'] sched']; simpl in *.
  - apply asked_only_app. split.
    + apply Hloop. apply asked_only_app. split; [done|]. constructor.
    + unfold asked_only. rewrite fetches_logs; [constructor|apply display_logs].
  - apply asked_only_app. split; [|constructor].
    apply Hloop. apply asked_only_app. split; [done|]. constructor.
Qed.

End MainAsks.

(** X8. A run of [main] asks for nothing but pages 1 to 5 of the ranking and
    the registry documents of packages the ranking listed: with the
    version-scoped lookup the document of the listed latest version of a
    package that has one, with the full-document lookup the package's
    document.  This holds for every upstream and every interleaving of the
    lookups, also when the run fails. *)
Theorem main_requests :
  (∀ upstream sched now,
      asked_only
        (λ url,
           (∃ page, (1 ≤ page ≤ 5)%nat ∧ url = page_url page)
           ∨ ∃ pkg, pkg ∈ ranked (λ pkg, pkg) upstream
                    ∧ truthy (EcosystemsPackage.latest_release_number pkg) = true
                    ∧ url = VersionScoped.version_url pkg
                              (EcosystemsPackage.latest_release_number pkg))
        (VersionScoped.main upstream sched now).2)
  ∧ (∀ upstream sched now,
        asked_only
          (λ url,
             (∃ page, (1 ≤ page ≤ 5)%nat ∧ url = page_url page)
             ∨ ∃ packageName, packageName ∈ ranked EcosystemsPackage.name upstream
                              ∧ url = FullDocument.package_url packageName)
          (FullDocument.main upstream sched now).2).
Proof.
  split; intros upstream sched now.
  - unfold VersionScoped.main. apply main_asks.
    + intros p Hp. left. by exists p.
    + apply Forall_forall. intros pkg Hin. unfold VersionScoped.fetchPackageAttestation.
      destruct (truthy (EcosystemsPackage.latest_release_number pkg)) eqn:Hv; [|done].
      cbn [negb]. apply asks_only_catch; [|done]. cbn [asks_only].
      apply asks_only_bind.
      * apply retry_loop_asks. right. by exists pkg.
      * intros response. apply asks_only_bind; [|done].
        unfold response_json. by destruct (json response).
  - unfold FullDocument.main. apply main_asks.
    + intros p Hp. left. by exists p.
    + apply Forall_forall. intros packageName Hin.
      unfold FullDocument.fetchPackageAttestation.
      apply asks_only_catch; [|done]. cbn [asks_only].
      apply asks_only_bind.
      * apply retry_loop_asks. right. by exists packageName.
      * intros response. apply asks_only_bind.
        { unfold response_json. by destruct (json response). }
        intros body. unfold FullDocument.read_metadata.
        destruct (negb _); [done|].
        destruct (NpmPackageMetadata.versions _) as [entries|]; [|done].
        by destruct (FullDocument.version_entry _ _).
Qed.

(** ** Pauses between batches *)

Lemma ceil_div_step (len n : nat) :
  (1 ≤ n)%nat → (1 ≤ len)%nat → ceil_div len n = S (ceil_div (len - n) n).
Proof.
  intros Hn Hlen. unfold ceil_div. destruct (Nat.le_gt_cases len n) as [Hle|Hgt].
  - replace (len - n)%nat with 0%nat by lia.
    rewrite (Nat.div_small (0 + n - 1) n) by lia.
    symmetry. apply (Nat.div_unique _ _ 1 (len - 1)); lia.
  - replace (len + n - 1)%nat with ((len - n + n - 1) + 1 * n)%nat by lia.
    rewrite Nat.div_add by lia. lia.
Qed.

Lemma chunks_length {A} (n : nat) (l : list A) :
  (1 ≤ n)%nat → length (chunks n l) = ceil_div (length l) n.
Proof.
  intros Hn. remember (length l) as len eqn:Hlen. revert l Hlen.
  induction len as [len IH] using lt_wf_ind. intros l ->.
  destruct l as [|x l].
  - unfold ceil_div. simpl. symmetry. apply Nat.div_small. lia.
  - rewrite chunks_cons by done. cbn [length].
    rewrite (IH (length (drop n (x :: l)))) with (l := drop n (x :: l));
      [|rewrite length_drop; simpl; lia|done].
    rewrite length_drop. symmetry. apply ceil_div_step; simpl; lia.
Qed.

Section BatchPauses.

Context {M P : Type}.
Variable checker : P → Prog (Json M) (option AttestationResult.t).
Variable upstream : Upstream (Json M).

Lemma run_batches_pauses (Q : P → option AttestationResult.t → Prop)
    (batches : list (list P)) (acc : list AttestationResult.t)
    (tr : list (Event (Json M))) (sched : list nat) :
  (∀ pkg, always_under upstream (Q pkg) (checker pkg)) →
  ∃ results ev sched',
    run_batches checker upstream batches acc tr sched = (Ok results, tr ++ ev, sched')
    ∧ (length batches - 1 ≤ pauses 1000 ev)%nat.
Proof.
  intros Hchk. revert acc tr sched.
  induction batches as [|batch rest IH]; intros acc tr sched; cbn [run_batches].
  - exists acc, [], sched. rewrite app_nil_r. split; [done|]. simpl. lia.
  - destruct (promise_all_always upstream (Q <$> batch) sched (map checker batch) tr)
      as (results & ev1 & sched1 & -> & _ & _).
    { apply Forall2_fmap, Forall_Forall2_diag, Forall_forall. intros pkg _. apply Hchk. }
    destruct rest as [|next rest].
    + exists (acc ++ non_null results), ev1, sched1. split; [done|]. simpl. lia.
    + destruct (IH (acc ++ non_null results) ((tr ++ ev1) ++ [ESleep 1000]) sched1)
        as (all & ev2 & sched2 & Hrun & Hp).
      exists all, (ev1 ++ ESleep 1000 :: ev2), sched2.
      split.
      { rewrite Hrun. by rewrite <- !app_assoc. }
      rewrite pauses_app.
      change (pauses 1000 (ESleep 1000 :: ev2)) with (S (pauses 1000 ev2)).
      simpl in *. lia.
Qed.

Lemma check_all_pauses (Q : P → option AttestationResult.t → Prop)
    (topPackages : list P) (tr : list (Event (Json M))) (sched : list nat) :
  (∀ pkg, always_under upstream (Q pkg) (checker pkg)) →
  ∃ results ev sched',
    check_all checker upstream topPackages tr sched = (Ok results, tr ++ ev, sched')
    ∧ (ceil_div (length topPackages) 10 - 1 ≤ pauses 1000 ev)%nat.
Proof.
  intros Hchk. unfold check_all. rewrite batch_loop_refines by lia. rewrite drop_0.
  destruct (run_batches_pauses Q (chunks batchSize topPackages) [] tr sched Hchk)
    as (results & ev & sched' & Hrun & Hp).
  exists results, ev, sched'. split; [done|].
  rewrite chunks_length in Hp by (unfold batchSize; lia). exact Hp.
Qed.

End BatchPauses.

(** X9. The lookups are paced: whatever the upstream answers and however the
    lookups interleave, the batch loop over [n] packages ends, and its run
    contains at least [ceil(n/10) - 1] delays of 1000 ms, one after each
    batch but the last. *)
Theorem batch_pauses :
  (∀ upstream topPackages tr sched,
      ∃ results ev sched',
        check_all VersionScoped.fetchPackageAttestation upstream topPackages tr sched
        = (Ok results, tr ++ ev, sched')
        ∧ (ceil_div (length topPackages) 10 - 1 ≤ pauses 1000 ev)%nat)
  ∧ (∀ upstream topPackages tr sched,
        ∃ results ev sched',
          check_all FullDocument.fetchPackageAttestation upstream topPackages tr sched
          = (Ok results, tr ++ ev, sched')
          ∧ (ceil_div (length topPackages) 10 - 1 ≤ pauses 1000 ev)%nat).
Proof.
  split; intros upstream topPackages tr sched.
  - eapply check_all_pauses. apply version_scoped_always.
  - eapply check_all_pauses. apply full_document_always.
Qed.

(** ** What [isSupportedPlatform] looks at *)

Lemma string_app_cons (c : ascii) (s t : string) : String c s +:+ t = String c (s +:+ t).
Proof. reflexivity. Qed.

Lemma string_app_assoc (s1 s2 s3 : string) : (s1 +:+ s2) +:+ s3 = s1 +:+ s2 +:+ s3.
Proof. induction s1 as [|c s1 IH]; [done|]. by rewrite !string_app_cons, IH. Qed.

Lemma toLowerCase_app (s1 s2 : string) :
  Js.toLowerCase (s1 +:+ s2) = Js.toLowerCase s1 +:+ Js.toLowerCase s2.
Proof.
  induction s1 as [|c s1 IH]; [done|].
  rewrite string_app_cons. cbn [Js.toLowerCase]. by rewrite string_app_cons, IH.
Qed.

Lemma lower_ascii_idem (c : ascii) : Js.lower_ascii (Js.lower_ascii c) = Js.lower_ascii c.
Proof. destruct c as [[] [] [] [] [] [] [] []]; reflexivity. Qed.

Lemma toLowerCase_idem (s : string) : Js.toLowerCase (Js.toLowerCase s) = Js.toLowerCase s.
Proof. induction s as [|c s IH]; simpl; [done|]. by rewrite lower_ascii_idem, IH. Qed.

Lemma startsWith_app_no_overlap (needle t y : string) :
  no_overlap needle t = true → Js.startsWith needle (y +:+ t) = Js.startsWith needle y.
Proof.
  revert y. induction needle as [|a needle IH]; intros y Hno; [done|].
  cbn [no_overlap] in Hno. apply andb_true_iff in Hno as [Hhere Hrest].
  destruct y as [|c y].
  - change ("" +:+ t) with t. apply negb_true_iff in Hhere. by rewrite Hhere.
  - rewrite string_app_cons. cbn [Js.startsWith]. by rewrite IH.
Qed.

Lemma includes_app_no_overlap (needle t x : string) :
  no_overlap needle t = true → Js.includes needle t = false →
  Js.includes needle (x +:+ t) = Js.includes needle x.
Proof.
  intros Hno Ht. induction x as [|c x IH].
  - change ("" +:+ t) with t. rewrite Ht. destruct needle; [by destruct t|done].
  - rewrite string_app_cons. cbn [Js.includes]. rewrite IH. f_equal.
    rewrite <- string_app_cons. by apply startsWith_app_no_overlap.
Qed.

Lemma strip_suffix_cases (p s : string) :
  Js.strip_suffix p s = s ∨ s = Js.strip_suffix p s +:+ p.
Proof.
  induction s as [|c s IH].
  - cbn [Js.strip_suffix]. destruct (String.eqb_spec "" p) as [<-|]; by left.
  - cbn [Js.strip_suffix]. destruct (String.eqb_spec (String c s) p) as [<-|Hne].
    + by right.
    + destruct IH as [->|IH]; [by left|]. right. by rewrite string_app_cons, <- IH.
Qed.

Lemma includes_strip_suffix_git (needle s : string) :
  no_overlap needle ".git" = true → Js.includes needle ".git" = false →
  Js.includes needle (Js.strip_suffix ".git" s) = Js.includes needle s.
Proof.
  intros Hno Ht. destruct (strip_suffix_cases ".git" s) as [->|Hs]; [done|].
  rewrite Hs at 2. symmetry. by apply includes_app_no_overlap.
Qed.

Lemma includes_strip_prefix_git (needle s : string) :
  needle = "github.com" ∨ needle = "gitlab.com" →
  Js.includes needle (Js.strip_prefix "git+" s) = Js.includes needle s.
Proof.
  intros Hn. unfold Js.strip_prefix.
  destruct (Js.startsWith "git+" s) eqn:Hp; [|done].
  apply startsWith_spec in Hp as [rest ->].
  destruct Hn as [-> | ->]; reflexivity.
Qed.

Lemma supported_by_hosts (s : string) :
  isSupportedPlatform (Str s)
  = (Js.includes "github.com" (Js.toLowerCase s)
     || Js.includes "gitlab.com" (Js.toLowerCase s)).
Proof.
  unfold isSupportedPlatform, truthy.
  destruct (String.eqb_spec s "") as [->|Hne]; [reflexivity|]. cbn [negb].
  rewrite !includes_strip_suffix_git by reflexivity.
  rewrite !includes_strip_prefix_git by auto. reflexivity.
Qed.

(** X10. The stripping of ["git+"] and [".git"] never changes the answer of
    [isSupportedPlatform]: a string is supported exactly when its
    lower-cased form contains "github.com" or "gitlab.com" somewhere.  So
    the answer does not depend on the letter case of the URL. *)
Theorem isSupportedPlatform_hosts (u : string) :
  isSupportedPlatform (Str u)
  = (Js.includes "github.com" (Js.toLowerCase u)
     || Js.includes "gitlab.com" (Js.toLowerCase u))
  ∧ isSupportedPlatform (Str (Js.toLowerCase u)) = isSupportedPlatform (Str u).
Proof.
  split; [apply supported_by_hosts|]. by rewrite !supported_by_hosts, toLowerCase_idem.
Qed.

(** X11. [isSupportedPlatform] does not parse the URL: a supported string stays
    supported whatever is written before or after it, so a host name that
    merely contains "github.com", or a path that does, is enough. *)
Theorem isSupportedPlatform_embedded (pre u post : string) :
  isSupportedPlatform (Str u) = true →
  isSupportedPlatform (Str (pre +:+ u +:+ post)) = true.
Proof.
  assert (Hmono : ∀ needle, Js.includes needle (Js.toLowerCase u) = true →
            Js.includes needle (Js.toLowerCase (pre +:+ u +:+ post)) = true).
  { intros needle H. apply includes_spec in H as (a & b & Hu). apply includes_spec.
    exists (Js.toLowerCase pre +:+ a), (b +:+ Js.toLowerCase post).
    rewrite !toLowerCase_app, Hu. by rewrite !string_app_assoc. }
  rewrite !supported_by_hosts.
  rewrite !orb_true_iff. intros [H|H]; [left|right]; by apply Hmono.
Qed.

(** A URL of another host that contains the name of a supported one. *)
Lemma isSupportedPlatform_embedded_witness :
  isSupportedPlatform (Str "github.com") = true
  ∧ isSupportedPlatform (Str ("https://not" +:+ "github.com" +:+ ".example.org/x")) = true.
Proof.
  split; [reflexivity|].
  exact (isSupportedPlatform_embedded "https://not" "github.com" ".example.org/x" eq_refl).
Defined.

(** ** The percentage at its ends *)

Lemma decimal1_checked :
  forall_range
    (λ t, implb (String.eqb (Number.decimal1 t) "0.0") (t =? 0)
          && implb (String.eqb (Number.decimal1 t) "100.0") (t =? 1000)
          && String.eqb (Number.toFixed1 (Number.parseFloat (Number.decimal1 t)))
               (Number.decimal1 t)
          && PrimFloat.leb (Number.of_Z 0) (Number.parseFloat (Number.decimal1 t))
          && PrimFloat.leb (Number.parseFloat (Number.decimal1 t)) (Number.of_Z 100))
    0 1001
  = true.
Proof. vm_compute. reflexivity. Qed.

Lemma percentage_tenths (k n : nat) :
  (1 ≤ n ≤ 500)%nat → (k ≤ n)%nat →
  ∃ t, percentage_string k n = Number.decimal1 t
       ∧ 0 ≤ t ≤ 1000
       ∧ 2 * Z.abs (t * Z.of_nat n - 1000 * Z.of_nat k) ≤ Z.of_nat n.
Proof.
  intros Hn Hk.
  destruct (percentage_check_sound k n) as (t & Hstr & Habs & _);
    [lia|by apply percentage_checked|].
  exists t. split; [done|]. split; [nia|done].
Qed.

(** X12. With at most 500 packages the rounding never hides the ends of the
    scale: the percentage reads "0.0" exactly when no package has an
    attestation, and "100.0" exactly when every package has one. *)
Theorem percentage_extremes (k n : nat) :
  (1 ≤ n ≤ 500)%nat → (k ≤ n)%nat →
  (percentage_string k n = "0.0" ↔ k = 0%nat)
  ∧ (percentage_string k n = "100.0" ↔ k = n).
Proof.
  intros Hn Hk. destruct (percentage_tenths k n Hn Hk) as (t & -> & Ht & Habs).
  pose proof (forall_range_spec _ 0 1001 t decimal1_checked ltac:(lia)) as Hc.
  cbv beta in Hc. rewrite !andb_true_iff in Hc. destruct Hc as [[[[H0 H100] _] _] _].
  split; split.
  - intros Hs. rewrite Hs in H0. simpl in H0. apply Z.eqb_eq in H0. subst t. nia.
  - intros ->. assert (t = 0) as -> by nia. reflexivity.
  - intros Hs. rewrite Hs in H100. simpl in H100. apply Z.eqb_eq in H100. subst t. nia.
  - intros ->. assert (t = 1000) as -> by nia. reflexivity.
Qed.

(** One attested package out of 500 still shows. *)
Lemma percentage_extremes_witness :
  (1 ≤ 500 ≤ 500)%nat ∧ (1 ≤ 500)%nat
  ∧ (percentage_string 1 500 = "0.0" ↔ 1%nat = 0%nat)
  ∧ (percentage_string 1 500 = "100.0" ↔ 1%nat = 500%nat).
Proof.
  split; [lia|]. split; [lia|].
  exact (percentage_extremes 1 500 ltac:(lia) ltac:(lia)).
Defined.

(** X13. Parsing loses nothing that [toFixed(1)] printed: for a report of at
    most 500 packages, the number stored as attestation_percentage prints
    back, with one decimal, as the string shown on the console, and it lies
    between 0 and 100. *)
Theorem percentage_round_trip (k n : nat) :
  (1 ≤ n ≤ 500)%nat → (k ≤ n)%nat →
  Number.toFixed1 (Number.parseFloat (percentage_string k n)) = percentage_string k n
  ∧ PrimFloat.leb (Number.of_Z 0) (Number.parseFloat (percentage_string k n)) = true
  ∧ PrimFloat.leb (Number.parseFloat (percentage_string k n)) (Number.of_Z 100) = true.
Proof.
  intros Hn Hk. destruct (percentage_tenths k n Hn Hk) as (t & -> & Ht & _).
  pose proof (forall_range_spec _ 0 1001 t decimal1_checked ltac:(lia)) as Hc.
  cbv beta in Hc. rewrite !andb_true_iff in Hc. destruct Hc as [[[[_ _] Hrt] Hlo] Hhi].
  split; [by apply String.eqb_eq|done].
Qed.

(** Three attested packages out of seven. *)
Lemma percentage_round_trip_witness :
  (1 ≤ 7 ≤ 500)%nat ∧ (3 ≤ 7)%nat
  ∧ Number.toFixed1 (Number.parseFloat (percentage_string 3 7)) = percentage_string 3 7
  ∧ PrimFloat.leb (Number.of_Z 0) (Number.parseFloat (percentage_string 3 7)) = true
  ∧ PrimFloat.leb (Number.parseFloat (percentage_string 3 7)) (Number.of_Z 100) = true.
Proof.
  split; [lia|]. split; [lia|].
  exact (percentage_round_trip 3 7 ltac:(lia) ltac:(lia)).
Defined.

(** ** Which packages reach the report *)

Section AlwaysMore.

Context {B A : Type}.
Variable upstream : Upstream B.

Lemma always_under_and (Q1 Q2 : A → Prop) (p : Prog B A) :
  always_under upstream Q1 p → always_under upstream Q2 p →
  always_under upstream (λ a, Q1 a ∧ Q2 a) p.
Proof. induction p; simpl; auto. Qed.

Lemma always_under_impl (H : Prop) (Q0 Q : A → Prop) (p : Prog B A) :
  always_under upstream Q0 p → (H → always_under upstream Q p) →
  always_under upstream (λ a, H → Q a) p.
Proof. induction p; simpl; auto. Qed.

End AlwaysMore.

Lemma ranked_run {M P} (select : EcosystemsPackage.t → P) (upstream : Upstream (Json M))
    (topPackages : list P) tr :
  run upstream (fetchTopNpmPackages select 500) [] = (Ok topPackages, tr) →
  ranked select upstream = topPackages.
Proof. unfold ranked. by intros ->. Qed.

(** X14. The version-scoped pipeline never loses a package for lack of a
    version: every package of the ranking without a known latest version
    has an entry in the report that [main] writes, with empty version,
    attestation URL and trusted publisher, and the timestamp and repository
    URL of the ranking. *)
Theorem unversioned_packages_are_reported (upstream : Upstream VersionScoped.Body)
    (sched : list nat) (now : string) :
  match VersionScoped.main upstream sched now with
  | (Written report, _) =>
      Forall
        (λ pkg,
           truthy (EcosystemsPackage.latest_release_number pkg) = true
           ∨ ∃ e, e ∈ Report.packages report
                  ∧ Entry.package e = Str (EcosystemsPackage.name pkg)
                  ∧ Entry.version e = Str ""
                  ∧ Entry.attestationsUrl e = Str ""
                  ∧ Entry.trustedPublisherId e = Str ""
                  ∧ Entry.lastUploaded e
                    = or_empty (EcosystemsPackage.latest_release_published_at pkg)
                  ∧ Entry.repositoryUrl e
                    = or_empty (EcosystemsPackage.repository_url pkg))
        (ranked (λ pkg, pkg) upstream)
  | (Exit1 _, _) => True
  end.
Proof.
  unfold VersionScoped.main.
  set (Q := λ (pkg : EcosystemsPackage.t) (o : option AttestationResult.t),
         truthy (EcosystemsPackage.latest_release_number pkg) = false →
         ∃ r, o = Some r
              ∧ AttestationResult.name r = Str (EcosystemsPackage.name pkg)
              ∧ AttestationResult.version r = Str ""
              ∧ AttestationResult.attestationsUrl r = Str ""
              ∧ AttestationResult.trustedPublisherId r = Str ""
              ∧ AttestationResult.lastUploaded r
                = or_empty (EcosystemsPackage.latest_release_published_at pkg)
              ∧ AttestationResult.repositoryUrl r
                = or_empty (EcosystemsPackage.repository_url pkg)).
  destruct (main_cases (λ pkg, pkg) VersionScoped.fetchPackageAttestation upstream Q
              sched now)
    as [(e & tr & _ & ->)|(topPackages & outcomes & tr & ev & Hrun & _ & Hout & ->)];
    [|done|].
  { intros pkg. subst Q. cbv beta.
    eapply always_under_impl; [apply version_scoped_always|]. intros Hv.
    unfold VersionScoped.fetchPackageAttestation. rewrite Hv. cbn [negb always_under].
    eexists. by repeat split. }
  rewrite (ranked_run _ _ _ _ Hrun). apply Forall_forall. intros pkg Hin.
  destruct (truthy (EcosystemsPackage.latest_release_number pkg)) eqn:Hv; [by left|right].
  apply list_elem_of_lookup in Hin as [i Hi].
  destruct (Forall2_lookup_l _ _ _ _ _ Hout Hi) as (o & Ho & HQ).
  destruct (HQ Hv) as (r & -> & Hname & Hver & Hurl & Htp & Hup & Hrepo).
  assert (Hr : r ∈ non_null outcomes).
  { unfold non_null. apply list_elem_of_omap. exists (Some r).
    split; [by eapply list_elem_of_lookup_2|done]. }
  apply list_elem_of_lookup in Hr as [j Hj].
  exists (to_entry j r). split.
  { cbn [build_report Report.packages]. by apply elem_of_lookup_imap_2. }
  by repeat split.
Qed.

Section Complete.

Context {M P : Type}.
Variable select : EcosystemsPackage.t → P.
Variable pname : P → string.
Variable checker : P → Prog (Json M) (option AttestationResult.t).
Variable upstream : Upstream (Json M).

(** When every lookup of a listed package yields a record, the report
    lists the packages of the ranking, all of them and in order. *)
Lemma main_complete (sched : list nat) (now : string) :
  (∀ pkg, always_under upstream
            (λ o, (∀ r, o = Some r → AttestationResult.name r = Str (pname pkg))
                  ∧ (pkg ∈ ranked select upstream → is_Some o))
            (checker pkg)) →
  match main select checker upstream sched now with
  | (Written report, _) =>
      Entry.package <$> Report.packages report
      = (λ pkg, Str (pname pkg)) <$> ranked select upstream
      ∧ Entry.rank <$> Report.packages report
        = seq 1 (length (ranked select upstream))
  | (Exit1 _, _) => True
  end.
Proof.
  intros Hchk.
  destruct (main_cases select checker upstream _ sched now Hchk)
    as [(e & tr & _ & ->)|(topPackages & outcomes & tr & ev & Hrun & _ & Hout & ->)]; [done|].
  rewrite (ranked_run _ _ _ _ Hrun) in *.
  assert (Hlen : length (non_null outcomes) = length topPackages).
  { rewrite (Forall2_length _ _ _ Hout).
    assert (Hsome : Forall is_Some outcomes).
    { apply Forall_lookup. intros i o Hi.
      destruct (Forall2_lookup_r _ _ _ _ _ Hout Hi) as (pkg & Hpkg & _ & Ho).
      apply Ho. by eapply list_elem_of_lookup_2. }
    clear Hout. induction Hsome as [|o outs [r ->] _ IH]; [done|].
    unfold non_null in *. cbn. by rewrite IH. }
  split.
  - rewrite packages_of_report. apply none_dropped; [|done].
    eapply Forall2_impl; [exact Hout|]. by intros pkg o [Ho _].
  - rewrite <- Hlen. cbn [build_report Report.packages].
    generalize (non_null outcomes). intros l. apply list_eq. intros i.
    rewrite list_lookup_fmap, list_lookup_imap.
    destruct (l !! i) as [r|] eqn:Hi; simpl.
    + symmetry. apply lookup_seq. apply lookup_lt_Some in Hi. lia.
    + symmetry. apply lookup_seq_ge. apply lookup_ge_None in Hi. lia.
Qed.

End Complete.

Section Healthy.

Context {B : Type}.
Variable upstream : Upstream B.

Lemma always_under_bind {A C} (R : A → Prop) (Q : C → Prop) (p : Prog B A)
    (f : A → Prog B C) :
  always_under upstream R p → (∀ a, R a → always_under upstream Q (f a)) →
  always_under upstream Q (bind p f).
Proof. intros Hp Hf. induction p; simpl in *; auto; done. Qed.

Lemma always_under_catch {A} (Q : A → Prop) (p : Prog B A) (h : Error → Prog B A) :
  always_under upstream Q p → always_under upstream Q (catch p h).
Proof. intros Hp. induction p; simpl in *; auto; done. Qed.

(** At a URL that is always answered with a usable body, the retried fetch
    followed by [response.json()] yields such a body. *)
Lemma fetch_json_healthy {A} (url : string) (R : B → Prop) (Q : A → Prop)
    (f : B → Prog B A) :
  (∀ tr, ∃ body, usable_body (upstream tr url) = Some body ∧ R body) →
  (∀ body, R body → always_under upstream Q (f body)) →
  always_under upstream Q
    (bind (fetchWithRetry url) (λ response, bind (response_json response) f)).
Proof.
  intros Hurl Hf. unfold fetchWithRetry, fetchWithRetry_with.
  change (retry_loop url 3 1000 3 1)
    with (bind (fetch (B:=B) url) (λ response,
            if ok response then Ret response
            else if ((status response >=? 500) && (1 <? 3)%nat)%bool then
              Log (LRetrying (status response) 1 3 (1000 * 2 ^ (Z.of_nat 1 - 1)))
                (Sleep (1000 * 2 ^ (Z.of_nat 1 - 1)) (retry_loop url 3 1000 2 2))
            else Throw (HttpError (status response)))).
  cbn [bind fetch always_under]. intros tr.
  destruct (Hurl tr) as (body & Hbody & HR).
  apply usable_body_Some in Hbody as (r & -> & Hok & Hjson).
  cbn [bind]. rewrite Hok. cbn [bind]. unfold response_json. rewrite Hjson.
  cbn [bind]. by apply Hf.
Qed.

End Healthy.

(** X15. Against a registry that serves every listed package, the report is
    complete.  If the version document of every listed package with a
    known version is always served (an ok response with a JSON body), the
    version-scoped [main] reports every package of the ranking, in the
    order of the ranking, with the ranks 1, 2, ...; so does the
    full-document [main] if the document of every listed package is always
    served and holds a latest version with its entry. *)
Theorem healthy_registry_complete_report :
  (∀ upstream sched now,
      (∀ tr pkg, pkg ∈ ranked (λ pkg, pkg) upstream →
                 truthy (EcosystemsPackage.latest_release_number pkg) = true →
                 is_Some (usable_body
                            (upstream tr (VersionScoped.version_url pkg
                               (EcosystemsPackage.latest_release_number pkg))))) →
      match VersionScoped.main upstream sched now with
      | (Written report, _) =>
          Entry.package <$> Report.packages report
          = (λ pkg, Str (EcosystemsPackage.name pkg)) <$> ranked (λ pkg, pkg) upstream
          ∧ Entry.rank <$> Report.packages report
            = seq 1 (length (ranked (λ pkg, pkg) upstream))
      | (Exit1 _, _) => True
      end)
  ∧ (∀ upstream sched now,
        (∀ tr packageName,
           packageName ∈ ranked EcosystemsPackage.name upstream →
           ∃ body, usable_body (upstream tr (FullDocument.package_url packageName))
                   = Some body
                   ∧ has_latest_entry (FullDocument.as_metadata body)) →
        match FullDocument.main upstream sched now with
        | (Written report, _) =>
            Entry.package <$> Report.packages report
            = Str <$> ranked EcosystemsPackage.name upstream
            ∧ Entry.rank <$> Report.packages report
              = seq 1 (length (ranked EcosystemsPackage.name upstream))
        | (Exit1 _, _) => True
        end).
Proof.
  split; intros upstream sched now Hhealthy.
  - unfold VersionScoped.main.
    apply (main_complete (λ pkg, pkg) EcosystemsPackage.name
             VersionScoped.fetchPackageAttestation upstream sched now).
    intros pkg. apply always_under_and.
    { eapply always_under_mono; [|apply version_scoped_always]. intros o Ho r Hr.
      by apply (Ho r). }
    eapply always_under_impl; [apply version_scoped_always|]. intros Hin.
    unfold VersionScoped.fetchPackageAttestation.
    destruct (truthy (EcosystemsPackage.latest_release_number pkg)) eqn:Hv; cbn [negb];
      [|by eexists].
    apply always_under_catch. cbn [always_under].
    apply (fetch_json_healthy upstream _ (λ _, True)).
    + intros tr. destruct (Hhealthy tr pkg Hin Hv) as [body Hbody]. by exists body.
    + intros body _. by eexists.
  - unfold FullDocument.main.
    apply (main_complete EcosystemsPackage.name (λ packageName, packageName)
             FullDocument.fetchPackageAttestation upstream sched now).
    intros packageName. apply always_under_and.
    { eapply always_under_mono; [|apply full_document_always]. intros o Ho r Hr.
      by apply (Ho r). }
    eapply always_under_impl; [apply full_document_always|]. intros Hin.
    unfold FullDocument.fetchPackageAttestation.
    apply always_under_catch. cbn [always_under].
    apply (fetch_json_healthy upstream _
             (λ body, has_latest_entry (FullDocument.as_metadata body))).
    + intros tr. apply Hhealthy, Hin.
    + intros body (Hv & entries & Hvs & [versionData He]).
      unfold FullDocument.read_metadata.
      rewrite Hv, Hvs, (version_entry_own _ _ _ He). by eexists.
Qed.

(** A ranking of two packages and registries that serve them both. *)
Lemma healthy_registry_complete_report_witness :
  (∀ tr pkg, pkg ∈ ranked (λ pkg, pkg) healthy_source →
             truthy (EcosystemsPackage.latest_release_number pkg) = true →
             is_Some (usable_body
                        (healthy_source tr (VersionScoped.version_url pkg
                           (EcosystemsPackage.latest_release_number pkg)))))
  ∧ match VersionScoped.main healthy_source [2; 7; 1]%nat "2026-01-01T00:00:00.000Z" with
    | (Written report, _) =>
        Entry.package <$> Report.packages report
        = (λ pkg, Str (EcosystemsPackage.name pkg)) <$> ranked (λ pkg, pkg) healthy_source
        ∧ Entry.rank <$> Report.packages report
          = seq 1 (length (ranked (λ pkg, pkg) healthy_source))
    | (Exit1 _, _) => True
    end.
Proof.
  assert (H : ∀ tr pkg, pkg ∈ ranked (λ pkg, pkg) healthy_source →
             truthy (EcosystemsPackage.latest_release_number pkg) = true →
             is_Some (usable_body
                        (healthy_source tr (VersionScoped.version_url pkg
                           (EcosystemsPackage.latest_release_number pkg))))).
  { intros tr pkg _ _. unfold healthy_source.
    destruct (String.eqb _ _); by eexists. }
  split; [exact H|].
  exact (proj1 healthy_registry_complete_report healthy_source [2; 7; 1]%nat
           "2026-01-01T00:00:00.000Z" H).
Defined.

(** ** How many requests *)

Section AtMost.

Context {B : Type}.
Variable upstream : Upstream B.

Lemma requests_app (tr1 tr2 : list (Event B)) :
  requests (tr1 ++ tr2) = (requests tr1 + requests tr2)%nat.
Proof. unfold requests. by rewrite fetches_app, length_app. Qed.

Lemma at_most_mono {A} (n m : nat) (p : Prog B A) :
  (n ≤ m)%nat → at_most n p → at_most m p.
Proof.
  revert n m. induction p as [a|e|url k IH|ms k IH|l k IH]; intros n m Hle Hp;
    simpl in *; eauto.
  destruct n as [|n]; [done|]. destruct m as [|m]; [lia|].
  intros o. apply (IH o n m); [lia|done].
Qed.

Lemma at_most_bind {A C} (n m : nat) (p : Prog B A) (f : A → Prog B C) :
  at_most n p → (∀ a, at_most m (f a)) → at_most (n + m) (bind p f).
Proof.
  intros Hp Hf. revert n Hp. induction p as [a|e|url k IH|ms k IH|l k IH]; intros n Hp;
    simpl in *; eauto.
  - apply (at_most_mono m); [lia|apply Hf].
  - destruct n as [|n]; [done|]. simpl. intros o. by apply IH.
Qed.

Lemma at_most_catch {A} (n : nat) (p : Prog B A) (h : Error → Prog B A) :
  at_most n p → (∀ e, at_most 0 (h e)) → at_most n (catch p h).
Proof.
  intros Hp Hh. revert n Hp. induction p as [a|e|url k IH|ms k IH|l k IH]; intros n Hp;
    simpl in *; eauto.
  - apply (at_most_mono 0); [lia|apply Hh].
  - destruct n as [|n]; [done|]. intros o. by apply IH.
Qed.

Lemma run_at_most {A} (n : nat) (p : Prog B A) (tr : list (Event B)) :
  at_most n p → (requests (run upstream p tr).2 ≤ requests tr + n)%nat.
Proof.
  revert n tr. induction p as [a|e|url k IH|ms k IH|l k IH]; intros n tr Hp; simpl in *;
    try lia.
  - destruct n as [|n]; [done|].
    specialize (IH (upstream tr url) n (tr ++ [EFetch url (upstream tr url)])
                  (Hp (upstream tr url))).
    rewrite requests_app in IH. unfold requests in *. simpl in *. lia.
  - specialize (IH n (tr ++ [ESleep ms]) Hp). rewrite requests_app in IH.
    unfold requests in *. simpl in *. lia.
  - specialize (IH n (tr ++ [ELog l]) Hp). rewrite requests_app in IH.
    unfold requests in *. simpl in *. lia.
Qed.

Lemma step_at_most {A} (n : nat) (p : Prog B A) (tr : list (Event B)) :
  at_most n p →
  ∃ n', at_most n' (step upstream p tr).1
        ∧ (requests (step upstream p tr).2 + n' = requests tr + n)%nat.
Proof.
  intros Hp. destruct p as [a|e|url k|ms k|l k]; simpl in *.
  - by exists n.
  - by exists n.
  - destruct n as [|n]; [done|]. exists n. split; [apply Hp|].
    rewrite requests_app. unfold requests. simpl. lia.
  - exists n. split; [done|]. rewrite requests_app. unfold requests. simpl. lia.
  - exists n. split; [done|]. rewrite requests_app. unfold requests. simpl. lia.
Qed.

Lemma sum_list_insert (ns : list nat) (i n n' : nat) :
  ns !! i = Some n → (sum_list (<[i := n']> ns) + n = sum_list ns + n')%nat.
Proof.
  revert i. induction ns as [|m ns IH]; intros [|i] Hi; simpl in *; try done.
  - injection Hi as ->. lia.
  - specialize (IH i Hi). lia.
Qed.

Lemma advance_at_most {A} (ns : list nat) (i : nat) (pool : list (Prog B A))
    (tr : list (Event B)) :
  Forall2 at_most ns pool →
  ∃ ns', Forall2 at_most ns' (advance upstream i pool tr).1
         ∧ (requests (advance upstream i pool tr).2 + sum_list ns'
            = requests tr + sum_list ns)%nat.
Proof.
  intros Hpool. unfold advance. destruct (pool !! i) as [p|] eqn:Hi; [|by exists ns].
  destruct (Forall2_lookup_r _ _ _ _ _ Hpool Hi) as (n & Hn & Hp).
  destruct (step_at_most n p tr Hp) as (n' & Hp' & Hreq).
  destruct (step upstream p tr) as [p' tr']. simpl in *.
  exists (<[i := n']> ns). split; [by apply Forall2_insert|].
  pose proof (sum_list_insert ns i n n' Hn). lia.
Qed.

Lemma finish_in_order_at_most {A} (ns : list nat) (pool : list (Prog B A))
    (tr : list (Event B)) :
  Forall2 at_most ns pool →
  (requests (finish_in_order upstream pool tr).2 ≤ requests tr + sum_list ns)%nat.
Proof.
  intros Hpool. revert tr. induction Hpool as [|n p ns pool Hp _ IH]; intros tr; simpl;
    [lia|].
  pose proof (run_at_most n p tr Hp) as Hrun.
  destruct (run upstream p tr) as [[a|e] tr']; simpl in *; [|lia].
  specialize (IH tr').
  destruct (finish_in_order upstream pool tr') as [[rest|e] tr'']; simpl in *; lia.
Qed.

Lemma promise_all_at_most {A} (ns : list nat) (sched : list nat) (pool : list (Prog B A))
    (tr : list (Event B)) :
  Forall2 at_most ns pool →
  (requests (promise_all upstream sched pool tr).1.2 ≤ requests tr + sum_list ns)%nat.
Proof.
  revert ns pool tr. induction sched as [|c sched IH]; intros ns pool tr Hpool;
    cbn [promise_all]; (destruct (rejection pool); [cbn [fst snd]; lia|]);
    (destruct (pending_indices pool) as [|i0 rest]; [cbn [fst snd]; lia|]).
  - cbn [fst snd]. by apply finish_in_order_at_most.
  - generalize (nth (c mod S (length rest)) (i0 :: rest) i0). intros i.
    destruct (advance_at_most ns i pool tr Hpool) as (ns' & Hpool' & Hreq).
    destruct (advance upstream i pool tr) as [pool' tr']. cbn [fst snd] in *.
    specialize (IH ns' pool' tr' Hpool'). lia.
Qed.

Lemma retry_loop_at_most (url : string) (retries : nat) (baseDelay : Z)
    (fuel attempt : nat) :
  at_most (S retries - attempt) (retry_loop (B:=B) url retries baseDelay fuel attempt).
Proof.
  revert attempt. induction fuel as [|fuel IH]; intros attempt;
    cbn [retry_loop]; destruct (attempt <=? retries)%nat eqn:Hle; try done.
  apply Nat.leb_le in Hle. replace (S retries - attempt)%nat
    with (S (retries - attempt)) by lia.
  simpl. intros [|r]; simpl; [done|].
  destruct (ok r); simpl; [done|].
  destruct ((status r >=? 500) && (attempt <? retries)%nat); simpl; [|done].
  apply (at_most_mono (S retries - S attempt)); [lia|apply IH].
Qed.

Lemma fetch_json_at_most {A} (url : string) (f : B → Prog B A) :
  (∀ body, at_most 0 (f body)) →
  at_most 3 (bind (fetchWithRetry url) (λ response, bind (response_json response) f)).
Proof.
  intros Hf. change 3%nat with (3 + 0)%nat. apply at_most_bind.
  - apply (retry_loop_at_most url 3 1000 3 1).
  - intros response. change 0%nat with (0 + 0)%nat. apply at_most_bind; [|done].
    unfold response_json. by destruct (json response).
Qed.

End AtMost.

Section MainAtMost.

Context {M P : Type}.
Variable select : EcosystemsPackage.t → P.
Variable checker : P → Prog (Json M) (option AttestationResult.t).
Variable upstream : Upstream (Json M).

Lemma page_loop_at_most (totalPages fuel page : nat) (acc : list P) :
  at_most (3 * (S totalPages - page)) (page_loop (M:=M) select totalPages fuel page acc).
Proof.
  revert page acc. induction fuel as [|fuel IH]; intros page acc;
    cbn [page_loop]; destruct (page <=? totalPages)%nat eqn:Hle; try done.
  apply Nat.leb_le in Hle. cbn [at_most].
  replace (3 * (S totalPages - page))%nat
    with (3 + 3 * (S totalPages - S page))%nat by lia.
  apply at_most_bind; [apply (retry_loop_at_most (B:=Json M) (page_url page) 3 1000 3 1)|].
  intros response. change (3 * (S totalPages - S page))%nat
    with (0 + 3 * (S totalPages - S page))%nat.
  apply at_most_bind; [unfold response_json; by destruct (json response)|].
  intros [items|m]; cbn [at_most]; [|done].
  destruct (length items <? perPage)%nat; [done|].
  destruct (page <? totalPages)%nat; cbn [at_most]; apply IH.
Qed.

Lemma batch_loop_at_most (topPackages : list P) (fuel i : nat)
    (acc : list AttestationResult.t) (tr : list (Event (Json M))) (sched : list nat) :
  (∀ pkg, at_most 3 (checker pkg)) →
  (requests (batch_loop checker upstream topPackages fuel i acc tr sched).1.2
   ≤ requests tr + 3 * (length topPackages - i))%nat.
Proof.
  intros Hchk. revert i acc tr sched. induction fuel as [|fuel IH]; intros i acc tr sched;
    cbn [batch_loop]; destruct (i <? length topPackages)%nat eqn:Hi; simpl; try lia.
  apply Nat.ltb_lt in Hi.
  set (batch := Js.slice i (i + batchSize) topPackages).
  assert (Hlen : (length batch ≤ length topPackages - i)%nat
                 ∧ (length topPackages - (i + batchSize) + length batch
                    = length topPackages - i)%nat).
  { subst batch. unfold Js.slice, batchSize. rewrite length_take, length_drop. lia. }
  assert (Hpool : Forall2 at_most (replicate (length batch) 3%nat) (map checker batch)).
  { clear Hlen. induction batch as [|pkg batch IHb]; simpl; constructor; auto. }
  pose proof (promise_all_at_most upstream _ sched _ tr Hpool) as Hall.
  rewrite sum_list_replicate in Hall.
  destruct (promise_all upstream sched _ tr) as [[[batchResults|e] tr'] sched'];
    simpl in *; [|lia].
  set (tr'' := if (i + batchSize <? length topPackages)%nat
               then tr' ++ [ESleep 1000] else tr').
  assert (Htr : requests tr'' = requests tr').
  { subst tr''. destruct (i + batchSize <? length topPackages)%nat; [|done].
    rewrite requests_app. unfold requests. simpl. lia. }
  specialize (IH (i + batchSize)%nat (acc ++ non_null batchResults) tr'' sched'). lia.
Qed.

Lemma main_at_most (sched : list nat) (now : string) :
  (∀ pkg, at_most 3 (checker pkg)) →
  (requests (main select checker upstream sched now).2
   ≤ 15 + 3 * length (ranked select upstream))%nat.
Proof.
  intros Hchk. unfold main, ranked.
  assert (Hlist : at_most 15 (fetchTopNpmPackages (M:=M) select 500)).
  { unfold fetchTopNpmPackages. apply at_most_catch; [|done]. cbn [at_most].
    change 15%nat with (15 + 0)%nat. apply at_most_bind; [|done].
    apply (page_loop_at_most 5 5 1 []). }
  pose proof (run_at_most upstream 15 _ [] Hlist) as Hrun.
  destruct (run upstream (fetchTopNpmPackages select 500) []) as [[topPackages|e] tr];
    simpl in Hrun.
  { unfold check_all.
    pose proof (batch_loop_at_most topPackages (length topPackages) 0 []
                  (tr ++ [ELog (LCheckingAll (length topPackages))]) sched Hchk) as Hloop.
    rewrite requests_app in Hloop.
    destruct (batch_loop checker upstream topPackages _ 0 [] _ sched)
      as [[[results|e] tr'] sched']; simpl in *; rewrite requests_app.
    - unfold requests at 2. rewrite fetches_logs by apply display_logs.
      unfold requests in *. simpl in *. lia.
    - unfold requests in *. simpl in *. lia. }
  simpl. rewrite requests_app. unfold requests in *. simpl in *. lia.
Qed.

End MainAtMost.

(** X16. A run of [main] stays within a budget of requests: at most 15 for the
    ranking (5 pages, 3 attempts each) and at most 3 for each package the
    ranking listed, so never more than 1515, whatever the upstream answers
    and however the lookups interleave. *)
Theorem main_request_budget :
  (∀ upstream sched now,
      (requests (VersionScoped.main upstream sched now).2
       ≤ 15 + 3 * length (ranked (λ pkg, pkg) upstream))%nat
      ∧ (requests (VersionScoped.main upstream sched now).2 ≤ 1515)%nat)
  ∧ (∀ upstream sched now,
        (requests (FullDocument.main upstream sched now).2
         ≤ 15 + 3 * length (ranked EcosystemsPackage.name upstream))%nat
        ∧ (requests (FullDocument.main upstream sched now).2 ≤ 1515)%nat).
Proof.
  assert (Hranked : ∀ M P (select : EcosystemsPackage.t → P) (upstream : Upstream (Json M)),
            (length (ranked select upstream) ≤ 500)%nat).
  { intros M P select upstream. unfold ranked.
    pose proof (fetchTopNpmPackages_length select upstream 500 []) as Hlen.
    destruct (run upstream (fetchTopNpmPackages select 500) []) as [[l|e] tr];
      simpl in *; lia. }
  split; intros upstream sched now.
  - assert (H : (requests (VersionScoped.main upstream sched now).2
                 ≤ 15 + 3 * length (ranked (λ pkg, pkg) upstream))%nat).
    { unfold VersionScoped.main. apply main_at_most. intros pkg.
      unfold VersionScoped.fetchPackageAttestation.
      destruct (negb _); [done|]. apply at_most_catch; [|done]. cbn [at_most].
      by apply fetch_json_at_most. }
    split; [exact H|]. pose proof (Hranked _ _ (λ pkg, pkg) upstream). lia.
  - assert (H : (requests (FullDocument.main upstream sched now).2
                 ≤ 15 + 3 * length (ranked EcosystemsPackage.name upstream))%nat).
    { unfold FullDocument.main. apply main_at_most. intros packageName.
      unfold FullDocument.fetchPackageAttestation.
      apply at_most_catch; [|done]. cbn [at_most].
      apply fetch_json_at_most. intros body. unfold FullDocument.read_metadata.
      destruct (negb _); [done|].
      destruct (NpmPackageMetadata.versions _) as [entries|]; [|done].
      by destruct (FullDocument.version_entry _ _). }
    split; [exact H|]. pose proof (Hranked _ _ EcosystemsPackage.name upstream). lia.
Qed.

(** ** Where the fields of a record come from *)

(** X17. The fields of a record have fixed sources.  A record of the
    version-scoped lookup takes its name, version, timestamp and repository
    URL from the ranking alone (null and absent values as empty strings),
    whatever the registry answers: only attestationsUrl and
    trustedPublisherId are read from the registry.  A record of the
    full-document lookup takes its name from the ranking and everything
    else from the document of the last answer; its timestamp is what the
    lookup of the latest version in the [time] map finds: the entry of the
    map, the empty string for none, or a member of [Object.prototype] when
    the map has no entry and the version is the name of one. *)
Theorem record_provenance :
  (∀ pkg,
      always (B:=VersionScoped.Body)
        (λ o, ∀ r, o = Some r →
           AttestationResult.name r = Str (EcosystemsPackage.name pkg)
           ∧ AttestationResult.version r
             = or_empty (EcosystemsPackage.latest_release_number pkg)
           ∧ AttestationResult.lastUploaded r
             = or_empty (EcosystemsPackage.latest_release_published_at pkg)
           ∧ AttestationResult.repositoryUrl r
             = or_empty (EcosystemsPackage.repository_url pkg))
        (VersionScoped.fetchPackageAttestation pkg))
  ∧ (∀ packageName,
        always_seen
          (λ seen o, ∀ r, o = Some r →
             ∃ url resp doc,
               last seen = Some (url, Resp resp)
               ∧ json resp = Some (JObject doc)
               ∧ AttestationResult.name r = Str packageName
               ∧ AttestationResult.version r = FullDocument.latest_tag doc
               ∧ AttestationResult.lastUploaded r
                 = value_or_empty
                     (FullDocument.time_of doc (FullDocument.latest_tag doc))
               ∧ AttestationResult.repositoryUrl r
                 = or_empty (FullDocument.repository_url doc))
          [] (FullDocument.fetchPackageAttestation packageName))
  ∧ (∀ doc key,
        match NpmPackageMetadata.time doc with
        | None => FullDocument.time_of doc (Str key) = Plain Undefined
        | Some times =>
            match times !! key with
            | Some t => FullDocument.time_of doc (Str key) = Plain t
            | None =>
                (key ∈ JsObject.prototype →
                 FullDocument.time_of doc (Str key) = Inherited key)
                ∧ (key ∉ JsObject.prototype →
                   FullDocument.time_of doc (Str key) = Plain Undefined)
            end
        end).
Proof.
  split; [|split].
  3:{ intros doc key. unfold FullDocument.time_of, JsObject.get. cbn [Js.template].
      destruct (NpmPackageMetadata.time doc) as [times|]; [|done].
      destruct (times !! key) as [t|]; [done|].
      destruct (bool_decide_reflect (key ∈ JsObject.prototype)); by split. }
  - intros pkg.
    eapply always_mono; [|exact (always_of_seen _ _ _ (version_scoped_checker_post pkg))].
    intros o [seen Hpost] r ->. destruct Hpost as (Hname & Hup & Hrepo & Hcase).
    split; [done|]. split; [|done].
    destruct Hcase as [(Hv & _ & -> & _)|(Hv & -> & _)].
    + unfold or_empty. by rewrite Hv.
    + unfold or_empty. by rewrite Hv.
  - intros packageName. eapply always_seen_mono; [|apply full_document_checker_post].
    intros seen o Hpost r ->.
    destruct Hpost as (resp & body & v & entries & versionData
                       & Hlast & _ & Hjson & Htag & _ & _ & _ & ->).
    destruct body as [items|doc]; [done|]. cbn [FullDocument.as_metadata] in *.
    eexists _, resp, doc. rewrite Htag. by repeat split.
Qed.

(** ** Which fields of a record are strings *)




(** ** How a run of [main] ends *)

Section MainEnds.

Context {M P : Type}.
Variable select : EcosystemsPackage.t → P.
Variable checker : P → Prog (Json M) (option AttestationResult.t).
Variable upstream : Upstream (Json M).

Lemma main_ends (Q : P → option AttestationResult.t → Prop) (sched : list nat)
    (now : string) :
  (∀ pkg, always_under upstream (Q pkg) (checker pkg)) →
  match run upstream (fetchTopNpmPackages select 500) [] with
  | (Err e, tr) =>
      main select checker upstream sched now = (Exit1 e, tr ++ [ELog (LFailed e)])
      ∧ ∃ url o, last (fetches tr) = Some (url, o) ∧ page_failure o = Some e
  | (Ok topPackages, tr) =>
      ∃ report ev,
        main select checker upstream sched now = (Written report, tr ++ ev)
        ∧ Summary.total_packages (Report.summary report) = length (Report.packages report)
        ∧ (Summary.packages_with_attestations (Report.summary report)
           ≤ Summary.total_packages (Report.summary report))%nat
        ∧ (Summary.total_packages (Report.summary report) ≤ length topPackages)%nat
        ∧ (length topPackages ≤ 500)%nat
  end.
Proof.
  intros Hchk.
  destruct (main_cases select checker upstream Q sched now Hchk)
    as [(e & tr & Hrun & ->)|(topPackages & outcomes & tr & ev & Hrun & Hlen & Hout & ->)];
    rewrite Hrun.
  - split; [done|].
    destruct (listing_ends select upstream 500 []) as (res & ev & Hrun' & Hres).
    rewrite Hrun in Hrun'. injection Hrun' as <- ->. by destruct Hres.
  - eexists _, ev. split; [done|].
    cbn [build_report Report.summary Report.packages Summary.total_packages
         Summary.packages_with_attestations].
    split; [done|]. split; [apply List.filter_length_le|]. split; [|done].
    rewrite length_imap, (Forall2_length _ _ _ Hout). apply length_non_null.
Qed.

End MainEnds.

(** X18. A run of [main] fails only on the listing.  If the ranking cannot be
    listed, [main] logs the error of the last ranking answer and exits with
    status 1: nothing is written.  If it can, [main] writes a report,
    whatever the registry answers: no lookup can make the run fail.  The
    report counts its entries, never more than the ranking listed, which is
    never more than 500, and never more attested packages than entries. *)
Theorem main_fails_only_on_listing :
  (∀ upstream sched now,
      match run upstream (fetchTopNpmPackages (λ pkg, pkg) 500) [] with
      | (Err e, tr) =>
          VersionScoped.main upstream sched now = (Exit1 e, tr ++ [ELog (LFailed e)])
          ∧ ∃ url o, last (fetches tr) = Some (url, o) ∧ page_failure o = Some e
      | (Ok topPackages, tr) =>
          ∃ report ev,
            VersionScoped.main upstream sched now = (Written report, tr ++ ev)
            ∧ Summary.total_packages (Report.summary report)
              = length (Report.packages report)
            ∧ (Summary.packages_with_attestations (Report.summary report)
               ≤ Summary.total_packages (Report.summary report))%nat
            ∧ (Summary.total_packages (Report.summary report) ≤ length topPackages)%nat
            ∧ (length topPackages ≤ 500)%nat
      end)
  ∧ (∀ upstream sched now,
        match run upstream (fetchTopNpmPackages EcosystemsPackage.name 500) [] with
        | (Err e, tr) =>
            FullDocument.main upstream sched now = (Exit1 e, tr ++ [ELog (LFailed e)])
            ∧ ∃ url o, last (fetches tr) = Some (url, o) ∧ page_failure o = Some e
        | (Ok topPackages, tr) =>
            ∃ report ev,
              FullDocument.main upstream sched now = (Written report, tr ++ ev)
              ∧ Summary.total_packages (Report.summary report)
                = length (Report.packages report)
              ∧ (Summary.packages_with_attestations (Report.summary report)
                 ≤ Summary.total_packages (Report.summary report))%nat
              ∧ (Summary.total_packages (Report.summary report) ≤ length topPackages)%nat
              ∧ (length topPackages ≤ 500)%nat
        end).
Proof.
  split; intros upstream sched now.
  - eapply (main_ends (λ pkg, pkg) VersionScoped.fetchPackageAttestation upstream).
    apply version_scoped_always.
  - eapply (main_ends EcosystemsPackage.name FullDocument.fetchPackageAttestation upstream).
    apply full_document_always.
Qed.

(** * The static file server *)

Lemma extname_examples :
  Path.extname "./index.html" = ".html"
  ∧ Path.extname "./a/b.tar.gz" = ".gz"
  ∧ Path.extname "./.bashrc" = ""
  ∧ Path.extname "./a/.." = ""
  ∧ Path.extname "./README" = ""
  ∧ Path.extname "./x." = "."
  ∧ Path.extname "./a.b/" = ".b"
  ∧ Path.extname "./a.b/c" = ""
  ∧ Path.extname "./..html" = ".html"
  ∧ Path.extname "" = "".
Proof. repeat split; vm_compute; reflexivity. Qed.

Section ExtnameLemmas.

Import Path.

Lemma list_ascii_app (s t : string) :
  String.list_ascii_of_string (s +:+ t)
  = String.list_ascii_of_string s ++ String.list_ascii_of_string t.
Proof.
  induction s as [|c s IH]; [done|]. rewrite string_app_cons. simpl. by rewrite IH.
Qed.

Lemma string_length_app (s t : string) :
  String.length (s +:+ t) = (String.length s + String.length t)%nat.
Proof.
  induction s as [|c s IH]; [done|]. rewrite string_app_cons. simpl. by rewrite IH.
Qed.

Lemma list_ascii_length (s : string) :
  length (String.list_ascii_of_string s) = String.length s.
Proof. induction s as [|c s IH]; simpl; congruence. Qed.

Lemma substring_whole (s : string) : String.substring 0 (String.length s) s = s.
Proof. induction s as [|c s IH]; simpl; congruence. Qed.

Lemma substring_app (p s : string) :
  String.substring (String.length p) (String.length s) (p +:+ s) = s.
Proof.
  induction p as [|c p IH]; [apply substring_whole|]. rewrite string_app_cons. exact IH.
Qed.

(** Characters that are neither a dot nor a slash, read before any dot
    was seen, leave the state alone once the end is marked. *)
Lemma extname_loop_plain (chars rest : list ascii) (i : Z) (st : State) :
  Forall (λ c, c ≠ "/"%char ∧ c ≠ "."%char) chars →
  startDot st = -1 → end_ st ≠ -1 →
  extname_loop (chars ++ rest) i st = extname_loop rest (i - Z.of_nat (length chars)) st.
Proof.
  intros Hplain Hdot Hend. revert i.
  induction Hplain as [|c chars [Hs Hd] _ IH]; intros i.
  - simpl. f_equal. lia.
  - cbn [app extname_loop].
    destruct (Ascii.eqb_spec c "/"); [done|]. destruct (Ascii.eqb_spec c "."); [done|].
    replace (end_ st =? -1) with false by (symmetry; by apply Z.eqb_neq).
    rewrite Hdot. cbn [Z.eqb negb]. rewrite IH. f_equal. simpl length. lia.
Qed.

(** Once a dot is marked and something was read before it, the loop keeps
    the dot and the end and never returns to the state "nothing before the
    dot". *)
Lemma extname_loop_after_dot (chars : list ascii) (i : Z) (st : State) :
  startDot st ≠ -1 → end_ st ≠ -1 → preDotState st ≠ 0 →
  startDot (extname_loop chars i st) = startDot st
  ∧ end_ (extname_loop chars i st) = end_ st
  ∧ preDotState (extname_loop chars i st) ≠ 0.
Proof.
  revert i st. induction chars as [|c chars IH]; intros i st Hdot Hend Hpre; [done|].
  cbn [extname_loop]. destruct (Ascii.eqb c "/").
  { destruct (negb (matchedSlash st)); [done|]. by apply IH. }
  replace (end_ st =? -1) with false by (symmetry; by apply Z.eqb_neq).
  replace (startDot st =? -1) with false by (symmetry; by apply Z.eqb_neq).
  cbn [negb]. destruct (Ascii.eqb c ".").
  - destruct (preDotState st =? 1) eqn:H1; cbn [negb]; [by apply IH|].
    match goal with
    | |- context [extname_loop chars ?j ?st'] =>
        destruct (IH j st') as (Hd & He & Hp); [done..|]
    end.
    by rewrite Hd, He.
  - match goal with
    | |- context [extname_loop chars ?j ?st'] =>
        destruct (IH j st') as (Hd & He & Hp); [done..|]
    end.
    by rewrite Hd, He.
Qed.

Lemma extname_loop_first (c : ascii) (chars : list ascii) (i : Z) :
  c ≠ "/"%char → c ≠ "."%char →
  extname_loop (c :: chars) i initial
  = extname_loop chars (i - 1)
      {| startDot := -1; startPart := 0; end_ := i + 1; matchedSlash := false;
         preDotState := 0 |}.
Proof.
  intros Hs Hd. cbn [extname_loop].
  destruct (Ascii.eqb_spec c "/"); [done|]. destruct (Ascii.eqb_spec c "."); [done|].
  reflexivity.
Qed.

Lemma extname_loop_dot (chars : list ascii) (i e : Z) :
  e ≠ -1 →
  extname_loop ("."%char :: chars) i
    {| startDot := -1; startPart := 0; end_ := e; matchedSlash := false; preDotState := 0 |}
  = extname_loop chars (i - 1)
      {| startDot := i; startPart := 0; end_ := e; matchedSlash := false;
         preDotState := 0 |}.
Proof.
  intros He. cbn [extname_loop]. change (Ascii.eqb "." "/") with false.
  change (Ascii.eqb "." ".") with true. cbn [end_].
  replace (e =? -1) with false by (symmetry; by apply Z.eqb_neq). reflexivity.
Qed.

Lemma extname_loop_before_dot (c : ascii) (chars : list ascii) (i d e : Z) :
  c ≠ "/"%char → d ≠ -1 → e ≠ -1 →
  ∃ st, extname_loop (c :: chars) i
          {| startDot := d; startPart := 0; end_ := e; matchedSlash := false;
             preDotState := 0 |}
        = extname_loop chars (i - 1) st
        ∧ startDot st = d ∧ end_ st = e ∧ preDotState st ≠ 0.
Proof.
  intros Hs Hd He. cbn [extname_loop]. destruct (Ascii.eqb_spec c "/"); [done|].
  cbn [end_]. replace (e =? -1) with false by (symmetry; by apply Z.eqb_neq).
  cbn [startDot preDotState]. replace (d =? -1) with false by (symmetry; by apply Z.eqb_neq).
  change (0 =? 1) with false. cbn [negb].
  destruct (Ascii.eqb c "."); eexists; (split; [reflexivity|]); by simpl.
Qed.

(** The extension of [name.ext]: when the path ends in a dot followed by
    a non-empty extension without dot or slash, and the dot follows a
    character that is not a slash, [extname] is the dot and the
    extension. *)
Lemma extname_of_name (p ext : string) :
  ends_in_name p → ext ≠ "" → plain ext →
  extname (p +:+ "." +:+ ext) = "." +:+ ext.
Proof.
  intros (c' & Hlast & Hc') Hne Hplain. unfold extname.
  set (n := Z.of_nat (String.length (p +:+ "." +:+ ext))).
  assert (Hn : n = Z.of_nat (String.length p) + 1 + Z.of_nat (String.length ext)).
  { subst n. rewrite !string_length_app. simpl. lia. }
  rewrite !list_ascii_app, rev_app_distr.
  change (String.list_ascii_of_string ".") with ["."%char].
  change (["."%char] ++ String.list_ascii_of_string ext)
    with ("."%char :: String.list_ascii_of_string ext).
  cbn [rev]. rewrite <- app_assoc. cbn [app].
  apply last_Some in Hlast as [lp Hlp]. rewrite Hlp, rev_app_distr. cbn [rev app].
  assert (Hlen_p : Z.of_nat (String.length p) = Z.of_nat (length lp) + 1).
  { rewrite <- list_ascii_length, Hlp, length_app. simpl. lia. }
  pose proof (Forall_rev Hplain) as Hrev.
  assert (Hlen_e : length (rev (String.list_ascii_of_string ext)) = String.length ext).
  { by rewrite length_rev, list_ascii_length. }
  destruct (rev (String.list_ascii_of_string ext)) as [|c E] eqn:HE.
  { destruct ext; [done|simpl in Hlen_e; lia]. }
  apply Forall_cons in Hrev as [[Hcs Hcd] HE'].
  cbn [app]. rewrite extname_loop_first by done.
  rewrite extname_loop_plain by (done || simpl; lia).
  rewrite extname_loop_dot by lia.
  set (i := n - 1 - 1 - Z.of_nat (length E)).
  assert (Hi : i = Z.of_nat (String.length p)) by (simpl in Hlen_e; lia).
  destruct (extname_loop_before_dot c' (rev lp) (i - 1) i (n - 1 + 1))
    as (st & -> & Hd & He & Hp); [done|lia|lia|].
  destruct (extname_loop_after_dot (rev lp) (i - 1 - 1) st) as (Hd' & He' & Hp');
    [lia|lia|done|].
  rewrite Hd', He', Hd, He.
  replace (i =? -1) with false by (symmetry; apply Z.eqb_neq; lia).
  replace (n - 1 + 1 =? -1) with false by (symmetry; apply Z.eqb_neq; lia).
  replace (preDotState (extname_loop (rev lp) (i - 1 - 1) st) =? 0) with false
    by (symmetry; by apply Z.eqb_neq).
  replace (i =? n - 1 + 1 - 1) with false
    by (symmetry; apply Z.eqb_neq; simpl in Hlen_e; lia).
  rewrite andb_false_r. cbn [orb andb].
  replace (Z.to_nat i) with (String.length p) by lia.
  replace (Z.to_nat (n - 1 + 1 - i)) with (String.length ("." +:+ ext))
    by (rewrite string_length_app; simpl; lia).
  apply substring_app.
Qed.

(** What the loop maintains: a marked dot is a dot of the path and lies
    before the marked end. *)
Lemma extname_loop_marks (la : list ascii) (k : nat) (st : State) :
  (k ≤ length la)%nat →
  (end_ st = -1 ∨ Z.of_nat k < end_ st) →
  (startDot st = -1
   ∨ (0 ≤ startDot st < end_ st ∧ la !! Z.to_nat (startDot st) = Some "."%char)) →
  let st' := extname_loop (rev (take k la)) (Z.of_nat k - 1) st in
  startDot st' = -1
  ∨ (0 ≤ startDot st' < end_ st' ∧ la !! Z.to_nat (startDot st') = Some "."%char).
Proof.
  revert st. induction k as [|k IH]; intros st Hk Hend Hdot; [done|].
  destruct (lookup_lt_is_Some_2 la k ltac:(lia)) as [c Hc].
  rewrite (take_S_r _ _ _ Hc), rev_app_distr. cbn [rev app extname_loop].
  replace (Z.of_nat (S k) - 1) with (Z.of_nat k) by lia.
  destruct (Ascii.eqb_spec c "/") as [->|Hslash].
  { destruct (negb (matchedSlash st)); [exact Hdot|]. apply IH; [lia| |done].
    destruct Hend; [by left|right; lia]. }
  set (st1 := if end_ st =? -1 then _ else st).
  assert (H1 : Z.of_nat k < end_ st1
               ∧ (startDot st1 = -1
                  ∨ (0 ≤ startDot st1 < end_ st1
                     ∧ la !! Z.to_nat (startDot st1) = Some "."%char))
               ∧ startDot st1 = startDot st).
  { subst st1. destruct (Z.eqb_spec (end_ st) (-1)) as [He|He]; simpl.
    - split; [lia|]. split; [|done]. destruct Hdot as [?|[? ?]]; [by left|lia].
    - split; [lia|]. split; [exact Hdot|done]. }
  destruct H1 as (Hend1 & Hdot1 & Hsame).
  apply IH; [lia| |].
  - right. destruct (Ascii.eqb c "."); [|destruct (negb _); simpl; lia].
    destruct (startDot st1 =? -1); [simpl; lia|]. destruct (negb _); simpl; lia.
  - destruct (Ascii.eqb_spec c ".") as [->|Hd].
    + destruct (Z.eqb_spec (startDot st1) (-1)) as [Hs|Hs].
      * right. simpl. rewrite Nat2Z.id. split; [lia|done].
      * destruct (negb _); simpl; exact Hdot1.
    + destruct (negb _); simpl; exact Hdot1.
Qed.

Lemma substring_head (s : string) (n m : nat) (c : ascii) :
  String.list_ascii_of_string s !! n = Some c →
  ∃ rest, String.substring n (S m) s = String c rest.
Proof.
  revert n. induction s as [|a s IH]; intros [|n] Hn; simpl in *; try done.
  - injection Hn as ->. by eexists.
  - by apply IH.
Qed.

(** [extname] yields the empty string or a string that starts with a
    dot. *)
Lemma extname_shape (path : string) :
  extname path = "" ∨ ∃ rest, extname path = String "." rest.
Proof.
  unfold extname.
  pose proof (extname_loop_marks (String.list_ascii_of_string path)
                (String.length path) initial) as Hmarks.
  assert (Htake : take (String.length path) (String.list_ascii_of_string path)
                  = String.list_ascii_of_string path).
  { rewrite <- list_ascii_length. apply firstn_all. }
  specialize (Hmarks ltac:(rewrite list_ascii_length; lia) ltac:(by left) ltac:(by left)).
  cbv zeta in Hmarks. rewrite Htake in Hmarks.
  set (st := extname_loop _ _ initial) in *.
  destruct (Z.eqb_spec (startDot st) (-1)) as [Hs|Hs]; [by left|].
  destruct Hmarks as [?|[Hrange Hdot]]; [done|].
  destruct (_ || _ || _ || _); [by left|right].
  replace (Z.to_nat (end_ st - startDot st))
    with (S (Z.to_nat (end_ st - startDot st) - 1)) by lia.
  by apply substring_head.
Qed.

End ExtnameLemmas.

(** ** What the server replies *)

Lemma filePath_not_root (url : string) : url ≠ "/" → Server.filePath url = "." +:+ url.
Proof.
  intros Hne. unfold Server.filePath.
  destruct (String.eqb_spec ("." +:+ url) "./") as [Heq|]; [|done].
  exfalso. apply Hne. by injection Heq.
Qed.

(** X19. A file named [name.ext] is served with the content type of its
    extension, whatever the letter case of the extension.  For a request
    whose URL ends in a dot and a non-empty extension without dot or slash,
    the dot not directly after a slash, and whose file can be read, the
    reply is 200 with the file's content, the CORS header, and the type the
    table gives for the lower-cased extension (application/octet-stream when
    the table does not list it).  The URL "/" is served as "/index.html". *)
Theorem served_by_extension (fs : Server.FileSystem) :
  (∀ prefix ext content,
      Path.ends_in_name prefix → ext ≠ "" → Path.plain ext →
      fs ("." +:+ prefix +:+ "." +:+ ext) = Server.Content content →
      Server.handler fs (prefix +:+ "." +:+ ext)
      = {| Server.status := 200;
           Server.headers :=
             [("Content-Type", Server.contentType (Js.toLowerCase ("." +:+ ext)));
              ("Access-Control-Allow-Origin", "*")];
           Server.body := content |})
  ∧ Server.handler fs "/" = Server.handler fs "/index.html"
  ∧ (∀ content, fs "./index.html" = Server.Content content →
       Server.handler fs "/"
       = {| Server.status := 200;
            Server.headers :=
              [("Content-Type", "text/html"); ("Access-Control-Allow-Origin", "*")];
            Server.body := content |}).
Proof.
  split; [|split; [reflexivity|]].
  - intros prefix ext content Hname Hne Hplain Hfs.
    assert (Hurl : prefix +:+ "." +:+ ext ≠ "/").
    { destruct Hname as (c & Hlast & Hc).
      destruct prefix as [|a prefix]; [done|]. rewrite string_app_cons.
      intros [= -> Hrest]. destruct prefix; [|done]. simpl in Hlast. by injection Hlast as <-. }
    unfold Server.handler. rewrite (filePath_not_root _ Hurl), Hfs.
    rewrite <- (string_app_assoc "." prefix), extname_of_name; try done.
    destruct Hname as (c & Hlast & Hc). exists c. split; [|done].
    change (String.list_ascii_of_string ("." +:+ prefix))
      with ("."%char :: String.list_ascii_of_string prefix).
    destruct (String.list_ascii_of_string prefix); [done|exact Hlast].
  - intros content Hfs. unfold Server.handler.
    change (Server.filePath "/") with "./index.html". by rewrite Hfs.
Qed.

(** A page in a directory, its extension in capitals. *)
Lemma served_by_extension_witness :
  Path.ends_in_name "/docs/Index" ∧ "HTML" ≠ "" ∧ Path.plain "HTML"
  ∧ Server.handler (λ _, Server.Content "<p>hello</p>") ("/docs/Index" +:+ "." +:+ "HTML")
    = {| Server.status := 200;
         Server.headers :=
           [("Content-Type", Server.contentType (Js.toLowerCase ("." +:+ "HTML")));
            ("Access-Control-Allow-Origin", "*")];
         Server.body := "<p>hello</p>" |}
  ∧ Server.contentType (Js.toLowerCase ("." +:+ "HTML")) = "text/html".
Proof.
  assert (H1 : Path.ends_in_name "/docs/Index") by (exists "x"%char; by split).
  assert (H2 : "HTML" ≠ "") by done.
  assert (H3 : Path.plain "HTML") by (repeat constructor; done).
  split; [exact H1|]. split; [exact H2|]. split; [exact H3|]. split; [|reflexivity].
  exact (proj1 (served_by_extension (λ _, Server.Content "<p>hello</p>"))
           "/docs/Index" "HTML" "<p>hello</p>" H1 H2 H3 eq_refl).
Defined.

(** X20. Error replies give nothing away and differ from successes by their
    headers.  A failed read is answered 404 when the code is ENOENT and 500
    otherwise; the reply depends on the error code alone, not on the URL
    asked for, the file system or the content type, so two failed
    requests with the same code get the same reply.  The header
    Access-Control-Allow-Origin is sent with a reply exactly when its status
    is 200, and every reply has status 200, 404 or 500. *)
Theorem server_error_replies :
  (∀ fs fs' url url' code,
      fs (Server.filePath url) = Server.ReadError code →
      fs' (Server.filePath url') = Server.ReadError code →
      Server.handler fs url = Server.handler fs' url'
      ∧ (Server.status (Server.handler fs url) = 404 ↔ code = "ENOENT")
      ∧ (Server.status (Server.handler fs url) = 500 ↔ code ≠ "ENOENT"))
  ∧ (∀ fs url,
        (("Access-Control-Allow-Origin", "*") ∈ Server.headers (Server.handler fs url)
         ↔ Server.status (Server.handler fs url) = 200)
        ∧ (Server.status (Server.handler fs url) = 200
           ↔ ∃ content, fs (Server.filePath url) = Server.Content content
                        ∧ Server.body (Server.handler fs url) = content)
        ∧ (Server.status (Server.handler fs url) = 200
           ∨ Server.status (Server.handler fs url) = 404
           ∨ Server.status (Server.handler fs url) = 500)).
Proof.
  split.
  - intros fs fs' url url' code Hfs Hfs'. unfold Server.handler. rewrite Hfs, Hfs'.
    destruct (String.eqb_spec code "ENOENT") as [->|Hne]; simpl; repeat split; try done.
  - intros fs url. unfold Server.handler.
    destruct (fs (Server.filePath url)) as [content|code]; simpl.
    + split; [split; [done|intros _; set_solver]|].
      split; [split; [by exists content|done]|by left].
    + destruct (String.eqb code "ENOENT"); simpl.
      * split; [split; [|done]|].
        { intros H. apply list_elem_of_singleton in H. discriminate H. }
        split; [split; [done|by intros (? & [=] & _)]|]. right. by left.
      * split; [split; [|done]|].
        { intros H. by apply elem_of_nil in H. }
        split; [split; [done|by intros (? & [=] & _)]|]. right. by right.
Qed.

(** Two requests for files that do not exist. *)
Lemma server_error_replies_witness :
  Server.handler (λ _, Server.ReadError "ENOENT") "/secret.txt"
  = Server.handler (λ _, Server.ReadError "ENOENT") "/other/page.html"
  ∧ (Server.status (Server.handler (λ _, Server.ReadError "ENOENT") "/secret.txt") = 404
     ↔ "ENOENT" = "ENOENT")
  ∧ (Server.status (Server.handler (λ _, Server.ReadError "ENOENT") "/secret.txt") = 500
     ↔ "ENOENT" ≠ "ENOENT").
Proof.
  exact (proj1 server_error_replies (λ _, Server.ReadError "ENOENT")
           (λ _, Server.ReadError "ENOENT") "/secret.txt" "/other/page.html" "ENOENT"
           eq_refl eq_refl).
Defined.
